(** * GraphView: the interactive node-link canvas

    A shallow embedding of [components/GraphView.tsx] (the canvas component,
    its four memoized render layers and its event handlers) together with the
    batch-update reducer of [App.tsx] that owns the notes list.

    Conventions of the embedding.
    - A JavaScript [number] is an abstract type [num] with the operations the
      component uses ([Number]); [float_Number] instantiates it with IEEE
      binary64, which is what the browser runs, and [Q_Number] with exact
      rationals, used where a statement is about the arithmetic itself.
    - A JavaScript string is held as its UTF-8 encoding; [jsLtb] is the
      order of [<], which compares UTF-16 code units.
    - A JavaScript [Set<string>] and [Map<string, V>] iterate in insertion
      order; they are lists without repeated keys ([JSSet], [JSMap]).
    - React state ([useState]) and refs ([useRef]) are the fields of [State];
      a handler reads the values of the render it closes over and returns the
      next state together with the calls it made on the component's props. *)

From Stdlib Require Import ZArith QArith Qabs Qminmax Floats.
From Stdlib Require Import String Ascii List Bool Arith Lia Field Permutation.
Import ListNotations.

Set Warnings "-inexact-float".
Local Open Scope string_scope.
Local Open Scope list_scope.

(** ** Numbers *)

Class Number (num : Type) : Type := {
  nadd : num -> num -> num;
  nsub : num -> num -> num;
  nmul : num -> num -> num;
  ndiv : num -> num -> num;
  nltb : num -> num -> bool;        (* a < b *)
  nmin : num -> num -> num;         (* Math.min *)
  nmax : num -> num -> num;         (* Math.max *)
  nabs : num -> num;                (* Math.abs *)
  ntruthy : num -> bool;            (* ToBoolean: neither 0 nor NaN *)
  ofZ : Z -> num;                   (* integer literals and lengths *)
  lit_1_05 : num;                   (* the literal 1.05 *)
  lit_0_95 : num                    (* the literal 0.95 *)
}.

(** [Math.hypot], used by the click-versus-drag test only. *)
Class Hypot (num : Type) : Type := { nhypot : num -> num -> num }.

Declare Scope num_scope.
Delimit Scope num_scope with num.
Infix "+" := nadd : num_scope.
Infix "-" := nsub : num_scope.
Infix "*" := nmul : num_scope.
Infix "/" := ndiv : num_scope.
Infix "<?" := nltb : num_scope.

(** *** IEEE binary64 *)

Module F64.
Definition of_Z (z : Z) : float :=
    if (z <? 0)%Z then PrimFloat.opp (PrimFloat.of_uint63 (Uint63.of_Z (- z)))
    else PrimFloat.of_uint63 (Uint63.of_Z z).

Definition min (a b : float) : float :=
    if PrimFloat.is_nan a then a
    else if PrimFloat.is_nan b then b
    else if PrimFloat.ltb a b then a
    else if PrimFloat.ltb b a then b
    else if PrimFloat.get_sign a then a else b.

Definition max (a b : float) : float :=
    if PrimFloat.is_nan a then a
    else if PrimFloat.is_nan b then b
    else if PrimFloat.ltb a b then b
    else if PrimFloat.ltb b a then a
    else if PrimFloat.get_sign a then b else a.

Definition truthy (a : float) : bool :=
    negb (PrimFloat.is_zero a || PrimFloat.is_nan a).

  (** [Math.hypot] of two numbers.  The language fixes its value when an
      argument is infinite or NaN and when both are zero; otherwise the
      result is an implementation-approximated square root of the sum of
      squares, here the parameter [approx]. *)
Definition hypot (approx : float -> float -> float) (a b : float) : float :=
    if PrimFloat.is_infinity a || PrimFloat.is_infinity b then PrimFloat.infinity
    else if PrimFloat.is_nan a || PrimFloat.is_nan b then PrimFloat.nan
    else if PrimFloat.is_zero a && PrimFloat.is_zero b then PrimFloat.zero
    else approx a b.
End F64.

#[export] Instance float_Number : Number float := {
  nadd := PrimFloat.add;
  nsub := PrimFloat.sub;
  nmul := PrimFloat.mul;
  ndiv := PrimFloat.div;
  nltb := PrimFloat.ltb;
  nmin := F64.min;
  nmax := F64.max;
  nabs := PrimFloat.abs;
  ntruthy := F64.truthy;
  ofZ := F64.of_Z;
  lit_1_05 := 1.05%float;
  lit_0_95 := 0.95%float
}.

Definition float_Hypot (approx : float -> float -> float) : Hypot float :=
  {| nhypot := F64.hypot approx |}.

(** *** Exact rationals *)

Definition Qltb (a b : Q) : bool := if Qlt_le_dec a b then true else false.

#[export] Instance Q_Number : Number Q := {
  nadd := Qplus;
  nsub := Qminus;
  nmul := Qmult;
  ndiv := Qdiv;
  nltb := Qltb;
  nmin := Qmin;
  nmax := Qmax;
  nabs := Qabs;
  ntruthy := fun a => negb (Qeq_bool a 0);
  ofZ := inject_Z;
  lit_1_05 := 105 # 100;
  lit_0_95 := 95 # 100
}.

(** ** Insertion-ordered sets and maps keyed by strings *)

Module JSSet.
Definition t : Type := list string.
Definition empty : t := [].
Definition has (s : t) (k : string) : bool := existsb (String.eqb k) s.
Definition add (s : t) (k : string) : t := if has s k then s else s ++ [k].
Definition delete (s : t) (k : string) : t :=
    filter (fun x => negb (String.eqb x k)) s.
Definition size (s : t) : nat := length s.
  (** [new Set(iterable)] *)
Definition of_list (l : list string) : t := fold_left add l empty.
  (** [Array.from(set)] *)
Definition to_list (s : t) : list string := s.
End JSSet.

Module JSMap.
Definition t (V : Type) : Type := list (string * V).
Definition empty {V} : t V := [].
Fixpoint get {V} (m : t V) (k : string) : option V :=
    match m with
    | [] => None
    | (k', v) :: m' => if String.eqb k k' then Some v else get m' k
    end.
  (** [map.set(k, v)]: an existing key keeps its place. *)
Fixpoint set {V} (m : t V) (k : string) (v : V) : t V :=
    match m with
    | [] => [(k, v)]
    | (k', v') :: m' =>
        if String.eqb k k' then (k', v) :: m' else (k', v') :: set m' k v
    end.
Definition size {V} (m : t V) : nat := length m.
Definition keys {V} (m : t V) : list string := map fst m.
End JSMap.

(** ** Data model ([types.ts] and the component's local types) *)

Record Note {num : Type} : Type := mkNote {
  id : string;
  title : string;
  content : string;
  tags : list string;
  isFavorite : bool;
  createdAt : num;
  updatedAt : num;
  x : num;
  y : num;
  links : list string
}.
Arguments Note : clear implicits.
Arguments mkNote {num}.

Inductive ToolMode : Type := PAN | SELECT | CONNECT | DEFAULT.

Definition ToolMode_eqb (a b : ToolMode) : bool :=
  match a, b with
  | PAN, PAN | SELECT, SELECT | CONNECT, CONNECT | DEFAULT, DEFAULT => true
  | _, _ => false
  end.

(** [{x, y}] *)
Record Point {num : Type} : Type := mkPoint { px : num; py : num }.
Arguments Point : clear implicits.
Arguments mkPoint {num}.

(** [{dx, dy}] *)
Record Offset {num : Type} : Type := mkOffset { odx : num; ody : num }.
Arguments Offset : clear implicits.
Arguments mkOffset {num}.

(** [{x, y, w, h}]: the view box and the selection box. *)
Record Box {num : Type} : Type := mkBox { bx : num; by_ : num; bw : num; bh : num }.
Arguments Box : clear implicits.
Arguments mkBox {num}.

(** An edge of the connection layers: the React [key] and the two [<line>]
    end points.  [esource] and [etarget] name the two notes whose
    coordinates the lines join. *)
Record EdgeEl {num : Type} : Type := mkEdgeEl {
  ekey : string;
  esource : string;
  etarget : string;
  ex1 : num; ey1 : num;
  ex2 : num; ey2 : num
}.
Arguments EdgeEl : clear implicits.
Arguments mkEdgeEl {num}.

(** A node group of the node layers: the React [key], the [translate(x,y)]
    of the group and the note its pointer handlers close over. *)
Record NodeEl {num : Type} : Type := mkNodeEl {
  nkey : string;
  nx : num; ny : num;
  nnote : Note num
}.
Arguments NodeEl : clear implicits.
Arguments mkNodeEl {num}.

(** ** Helper functions and render layers *)

(** *** String comparison

    A JavaScript string is a sequence of UTF-16 code units; a [string] here
    holds its UTF-8 encoding, byte by byte (a JavaScript string with an
    unpaired surrogate has none and is outside the model).  [===] and
    template concatenation read the same on both encodings.  [<] does not:
    JavaScript compares code units, under which the supplementary
    characters (first code unit D800..DBFF; UTF-8 lead byte F0..F4) come
    before the characters U+E000..U+FFFF (UTF-8 lead byte EE or EF), while
    plain byte order puts them after.  [unitRank] ranks the bytes so that
    the lexicographic order of two encodings is the code-unit order of the
    strings they encode: EE and EF are moved behind F4
    ([jsCompare_is_code_unit_order]). *)
Definition unitRank (c : ascii) : N :=
  let n := N_of_ascii c in
  if (n =? 238)%N then 977%N
  else if (n =? 239)%N then 978%N
  else (4 * n)%N.

Fixpoint jsCompare (a b : string) {struct a} : comparison :=
  match a with
  | EmptyString => if String.eqb b EmptyString then Eq else Lt
  | String unit_a rest_a =>
      match b with
      | EmptyString => Gt
      | String unit_b rest_b =>
          let byUnit := (unitRank unit_a ?= unitRank unit_b)%N in
          match byUnit with
          | Eq => jsCompare rest_a rest_b
          | _ => byUnit
          end
      end
  end.

(** [a < b] on strings. *)
Definition jsLtb (a b : string) : bool :=
  match jsCompare a b with
  | Lt => true
  | _ => false
  end.

Definition getLinkKey (a b : string) : string :=
  if jsLtb a b then a ++ "-" ++ b else b ++ "-" ++ a.

(** The string with the given bytes, for examples outside ASCII. *)
Definition utf8 (bytes : list nat) : string :=
  string_of_list_ascii (map ascii_of_nat bytes).

(** *** The two encodings of a string

    A string of Unicode scalar values (code points outside D800..DFFF), as
    JavaScript holds it ([utf16Units]) and as it is held here ([utf8Bytes],
    [jsString]).  [unitsCompare] is the comparison behind JavaScript's [<]:
    code unit by code unit, a proper prefix first. *)
Definition isScalarValue (n : N) : Prop :=
  (n < 55296)%N \/ (57344 <= n < 1114112)%N.

Definition utf8Bytes (n : N) : list N :=
  (if n <? 128 then [n]
   else if n <? 2048 then [192 + n / 64; 128 + n mod 64]
   else if n <? 65536 then [224 + n / 4096; 128 + (n / 64) mod 64; 128 + n mod 64]
   else [240 + n / 262144; 128 + (n / 4096) mod 64; 128 + (n / 64) mod 64;
         128 + n mod 64])%N.

Definition utf16Units (n : N) : list N :=
  (if n <? 65536 then [n]
   else [55296 + (n - 65536) / 1024; 56320 + (n - 65536) mod 1024])%N.

Definition jsString (codePoints : list N) : string :=
  string_of_list_ascii (map ascii_of_N (flat_map utf8Bytes codePoints)).

Fixpoint unitsCompare (u v : list N) : comparison :=
  match u, v with
  | [], [] => Eq
  | [], _ :: _ => Lt
  | _ :: _, [] => Gt
  | a :: u', b :: v' =>
      match (a ?= b)%N with
      | Eq => unitsCompare u' v'
      | Lt => Lt
      | Gt => Gt
      end
  end.

(** A scalar value by the bit groups both encodings are cut from: seven
    bits; five and six; four, six and six; three, six, two, four and six. *)
Inductive Scalar : Type :=
| Scalar1 (a : N)
| Scalar2 (h l : N)
| Scalar3 (h m l : N)
| Scalar4 (h a mh ml l : N).

Definition wellFormed (c : Scalar) : Prop :=
  match c with
  | Scalar1 a => (a < 128)%N
  | Scalar2 h l => (2 <= h < 32 /\ l < 64)%N
  | Scalar3 h m l =>
      (h < 16 /\ m < 64 /\ l < 64)%N /\
      (h = 0%N -> (32 <= m)%N) /\ (h = 13%N -> (m < 32)%N)
  | Scalar4 h a mh ml l =>
      (h < 5 /\ a < 64 /\ mh < 4 /\ ml < 16 /\ l < 64)%N /\
      (h = 0%N -> (16 <= a)%N) /\ (h = 4%N -> (a < 16)%N)
  end.

Definition codePoint (c : Scalar) : N :=
  match c with
  | Scalar1 a => a
  | Scalar2 h l => 64 * h + l
  | Scalar3 h m l => 4096 * h + 64 * m + l
  | Scalar4 h a mh ml l => 262144 * h + 4096 * a + 1024 * mh + 64 * ml + l
  end%N.

Definition encode8 (c : Scalar) : list N :=
  match c with
  | Scalar1 a => [a]
  | Scalar2 h l => [192 + h; 128 + l]
  | Scalar3 h m l => [224 + h; 128 + m; 128 + l]
  | Scalar4 h a mh ml l => [240 + h; 128 + a; 128 + (16 * mh + ml); 128 + l]
  end%N.

Definition encode16 (c : Scalar) : list N :=
  match c with
  | Scalar4 h a mh ml l => [55232 + (256 * h + 4 * a + mh); 56320 + (64 * ml + l)]
  | _ => [codePoint c]
  end%N.

Definition scalarOf (n : N) : Scalar :=
  (if n <? 128 then Scalar1 n
   else if n <? 2048 then Scalar2 (n / 64) (n mod 64)
   else if n <? 65536 then Scalar3 (n / 4096) ((n / 64) mod 64) (n mod 64)
   else Scalar4 (n / 262144) ((n / 4096) mod 64) ((n / 1024) mod 4)
                ((n / 64) mod 16) (n mod 64))%N.

(** [unitRank] and [jsCompare] on bytes given as numbers. *)
Definition byteRank (n : N) : N :=
  if (n =? 238)%N then 977%N else if (n =? 239)%N then 978%N else (4 * n)%N.

Fixpoint bytesCompare (u v : list N) : comparison :=
  match u, v with
  | [], [] => Eq
  | [], _ :: _ => Lt
  | _ :: _, [] => Gt
  | a :: u', b :: v' =>
      match (byteRank a ?= byteRank b)%N with
      | Eq => bytesCompare u' v'
      | Lt => Lt
      | Gt => Gt
      end
  end.

Ltac euclid := zify; Z.to_euclidean_division_equations; lia.

Ltac split_compare :=
  repeat match goal with
         | |- context [N.eqb ?a ?b] => destruct (N.eqb_spec a b); cbv iota
         | |- context [N.compare ?a ?b] => destruct (N.compare_spec a b); cbv iota
         end.

Section Layers.
Context {num : Type} `{Number num}.

  (** [notes.find(n => n.id === k)] *)
Definition findNote (notes : list (Note num)) (k : string) : option (Note num) :=
    find (fun n => String.eqb (id n) k) notes.

Definition NODE_RADIUS : num := ofZ 30.

Definition staticEdge (notes : list (Note num)) (activeDragIds : JSSet.t)
      (source : Note num) (acc : JSSet.t * list (EdgeEl num)) (targetId : string)
      : JSSet.t * list (EdgeEl num) :=
    let '(processed, els) := acc in
    let key := getLinkKey (id source) targetId in
    if JSSet.has processed key then acc
    else
      let processed := JSSet.add processed key in
      match findNote notes targetId with
      | None => (processed, els)
      | Some target =>
          if JSSet.has activeDragIds (id source) || JSSet.has activeDragIds (id target)
          then (processed, els)
          else (processed,
                els ++ [mkEdgeEl key (id source) (id target)
                                 (x source) (y source) (x target) (y target)])
      end.

Definition StaticConnectionsLayer (notes : list (Note num)) (activeDragIds : JSSet.t)
      : list (EdgeEl num) :=
    snd (fold_left
           (fun acc source =>
              fold_left (staticEdge notes activeDragIds source) (links source) acc)
           notes (JSSet.empty, [])).

Definition getPos (dragOverrides : JSMap.t (Point num)) (k : string)
      (n : option (Note num)) : Point num :=
    match JSMap.get dragOverrides k with
    | Some override => override
    | None =>
        match n with
        | Some n => mkPoint (x n) (y n)
        | None => mkPoint (ofZ 0) (ofZ 0)
        end
    end.

Definition dynamicEdge (notes : list (Note num))
      (dragOverrides : JSMap.t (Point num)) (activeDragIds : JSSet.t)
      (source : Note num) (acc : JSSet.t * list (EdgeEl num)) (targetId : string)
      : JSSet.t * list (EdgeEl num) :=
    let '(processed, els) := acc in
    let sourceIsDragging := JSSet.has activeDragIds (id source) in
    match findNote notes targetId with
    | None => acc
    | Some target =>
        let targetIsDragging := JSSet.has activeDragIds targetId in
        if negb sourceIsDragging && negb targetIsDragging then acc
        else
          let key := getLinkKey (id source) targetId in
          if JSSet.has processed key then acc
          else
            let processed := JSSet.add processed key in
            let sPos := getPos dragOverrides (id source) (Some source) in
            let tPos := getPos dragOverrides targetId (Some target) in
            (processed,
             els ++ [mkEdgeEl key (id source) targetId
                              (px sPos) (py sPos) (px tPos) (py tPos)])
    end.

  (** [None] is the [null] the layer returns when nothing is dragged. *)
Definition DynamicConnectionsLayer (notes : list (Note num))
      (dragOverrides : JSMap.t (Point num)) (activeDragIds : JSSet.t)
      : option (list (EdgeEl num)) :=
    if Nat.eqb (JSSet.size activeDragIds) 0 then None
    else Some (snd (fold_left
                      (fun acc source =>
                         fold_left (dynamicEdge notes dragOverrides activeDragIds source)
                                   (links source) acc)
                      notes (JSSet.empty, []))).

Definition StaticNodesLayer (notes : list (Note num)) (activeDragIds : JSSet.t)
      : list (NodeEl num) :=
    flat_map (fun note =>
                if JSSet.has activeDragIds (id note) then []
                else [mkNodeEl (id note) (x note) (y note) note])
             notes.

Definition DynamicNodesLayer (notes : list (Note num))
      (dragOverrides : JSMap.t (Point num)) : option (list (NodeEl num)) :=
    if Nat.eqb (JSMap.size dragOverrides) 0 then None
    else Some (flat_map (fun note =>
                           match JSMap.get dragOverrides (id note) with
                           | None => []
                           | Some pos => [mkNodeEl (id note) (px pos) (py pos) note]
                           end)
                        notes).

  (** What React mounts for a layer that may return [null]. *)
Definition mounted {A : Type} (layer : option (list A)) : list A :=
    match layer with
    | None => []
    | Some els => els
    end.
End Layers.

(** ** Component state *)

Record State {num : Type} : Type := mkState {
  (* props *)
  notes : list (Note num);
  (* useState *)
  viewBox : Box num;
  mode : ToolMode;
  isLayoutLocked : bool;
  selectedNodeIds : JSSet.t;
  activeNodeId : option string;
  linkSourceId : option string;
  activeDragIds : JSSet.t;
  dragOverrides : JSMap.t (Point num);
  selectionBox : option (Box num);
  selectionMenuPos : option (Point num);
  (* useRef *)
  pointerStartPos : Point num;
  isDraggingRef : bool;
  lastPanPoint : Point num;
  dragStartOffsets : JSMap.t (Offset num);
  dragCommitRef : bool;
  wasNodeSelectedRef : bool
}.
Arguments State : clear implicits.
Arguments mkState {num}.

Section Setters.
Context {num : Type}.
Implicit Type s : State num.

Definition set_notes v s :=
    mkState v (viewBox s) (mode s) (isLayoutLocked s) (selectedNodeIds s)
      (activeNodeId s) (linkSourceId s) (activeDragIds s) (dragOverrides s)
      (selectionBox s) (selectionMenuPos s) (pointerStartPos s) (isDraggingRef s)
      (lastPanPoint s) (dragStartOffsets s) (dragCommitRef s) (wasNodeSelectedRef s).
Definition setViewBox v s :=
    mkState (notes s) v (mode s) (isLayoutLocked s) (selectedNodeIds s)
      (activeNodeId s) (linkSourceId s) (activeDragIds s) (dragOverrides s)
      (selectionBox s) (selectionMenuPos s) (pointerStartPos s) (isDraggingRef s)
      (lastPanPoint s) (dragStartOffsets s) (dragCommitRef s) (wasNodeSelectedRef s).
Definition setMode v s :=
    mkState (notes s) (viewBox s) v (isLayoutLocked s) (selectedNodeIds s)
      (activeNodeId s) (linkSourceId s) (activeDragIds s) (dragOverrides s)
      (selectionBox s) (selectionMenuPos s) (pointerStartPos s) (isDraggingRef s)
      (lastPanPoint s) (dragStartOffsets s) (dragCommitRef s) (wasNodeSelectedRef s).
Definition setIsLayoutLocked v s :=
    mkState (notes s) (viewBox s) (mode s) v (selectedNodeIds s)
      (activeNodeId s) (linkSourceId s) (activeDragIds s) (dragOverrides s)
      (selectionBox s) (selectionMenuPos s) (pointerStartPos s) (isDraggingRef s)
      (lastPanPoint s) (dragStartOffsets s) (dragCommitRef s) (wasNodeSelectedRef s).
Definition setSelectedNodeIds v s :=
    mkState (notes s) (viewBox s) (mode s) (isLayoutLocked s) v
      (activeNodeId s) (linkSourceId s) (activeDragIds s) (dragOverrides s)
      (selectionBox s) (selectionMenuPos s) (pointerStartPos s) (isDraggingRef s)
      (lastPanPoint s) (dragStartOffsets s) (dragCommitRef s) (wasNodeSelectedRef s).
Definition setActiveNodeId v s :=
    mkState (notes s) (viewBox s) (mode s) (isLayoutLocked s) (selectedNodeIds s)
      v (linkSourceId s) (activeDragIds s) (dragOverrides s)
      (selectionBox s) (selectionMenuPos s) (pointerStartPos s) (isDraggingRef s)
      (lastPanPoint s) (dragStartOffsets s) (dragCommitRef s) (wasNodeSelectedRef s).
Definition setLinkSourceId v s :=
    mkState (notes s) (viewBox s) (mode s) (isLayoutLocked s) (selectedNodeIds s)
      (activeNodeId s) v (activeDragIds s) (dragOverrides s)
      (selectionBox s) (selectionMenuPos s) (pointerStartPos s) (isDraggingRef s)
      (lastPanPoint s) (dragStartOffsets s) (dragCommitRef s) (wasNodeSelectedRef s).
Definition setActiveDragIds v s :=
    mkState (notes s) (viewBox s) (mode s) (isLayoutLocked s) (selectedNodeIds s)
      (activeNodeId s) (linkSourceId s) v (dragOverrides s)
      (selectionBox s) (selectionMenuPos s) (pointerStartPos s) (isDraggingRef s)
      (lastPanPoint s) (dragStartOffsets s) (dragCommitRef s) (wasNodeSelectedRef s).
Definition setDragOverrides v s :=
    mkState (notes s) (viewBox s) (mode s) (isLayoutLocked s) (selectedNodeIds s)
      (activeNodeId s) (linkSourceId s) (activeDragIds s) v
      (selectionBox s) (selectionMenuPos s) (pointerStartPos s) (isDraggingRef s)
      (lastPanPoint s) (dragStartOffsets s) (dragCommitRef s) (wasNodeSelectedRef s).
Definition setSelectionBox v s :=
    mkState (notes s) (viewBox s) (mode s) (isLayoutLocked s) (selectedNodeIds s)
      (activeNodeId s) (linkSourceId s) (activeDragIds s) (dragOverrides s)
      v (selectionMenuPos s) (pointerStartPos s) (isDraggingRef s)
      (lastPanPoint s) (dragStartOffsets s) (dragCommitRef s) (wasNodeSelectedRef s).
Definition setSelectionMenuPos v s :=
    mkState (notes s) (viewBox s) (mode s) (isLayoutLocked s) (selectedNodeIds s)
      (activeNodeId s) (linkSourceId s) (activeDragIds s) (dragOverrides s)
      (selectionBox s) v (pointerStartPos s) (isDraggingRef s)
      (lastPanPoint s) (dragStartOffsets s) (dragCommitRef s) (wasNodeSelectedRef s).
Definition set_pointerStartPos v s :=
    mkState (notes s) (viewBox s) (mode s) (isLayoutLocked s) (selectedNodeIds s)
      (activeNodeId s) (linkSourceId s) (activeDragIds s) (dragOverrides s)
      (selectionBox s) (selectionMenuPos s) v (isDraggingRef s)
      (lastPanPoint s) (dragStartOffsets s) (dragCommitRef s) (wasNodeSelectedRef s).
Definition set_isDraggingRef v s :=
    mkState (notes s) (viewBox s) (mode s) (isLayoutLocked s) (selectedNodeIds s)
      (activeNodeId s) (linkSourceId s) (activeDragIds s) (dragOverrides s)
      (selectionBox s) (selectionMenuPos s) (pointerStartPos s) v
      (lastPanPoint s) (dragStartOffsets s) (dragCommitRef s) (wasNodeSelectedRef s).
Definition set_lastPanPoint v s :=
    mkState (notes s) (viewBox s) (mode s) (isLayoutLocked s) (selectedNodeIds s)
      (activeNodeId s) (linkSourceId s) (activeDragIds s) (dragOverrides s)
      (selectionBox s) (selectionMenuPos s) (pointerStartPos s) (isDraggingRef s)
      v (dragStartOffsets s) (dragCommitRef s) (wasNodeSelectedRef s).
Definition set_dragStartOffsets v s :=
    mkState (notes s) (viewBox s) (mode s) (isLayoutLocked s) (selectedNodeIds s)
      (activeNodeId s) (linkSourceId s) (activeDragIds s) (dragOverrides s)
      (selectionBox s) (selectionMenuPos s) (pointerStartPos s) (isDraggingRef s)
      (lastPanPoint s) v (dragCommitRef s) (wasNodeSelectedRef s).
Definition set_dragCommitRef v s :=
    mkState (notes s) (viewBox s) (mode s) (isLayoutLocked s) (selectedNodeIds s)
      (activeNodeId s) (linkSourceId s) (activeDragIds s) (dragOverrides s)
      (selectionBox s) (selectionMenuPos s) (pointerStartPos s) (isDraggingRef s)
      (lastPanPoint s) (dragStartOffsets s) v (wasNodeSelectedRef s).
Definition set_wasNodeSelectedRef v s :=
    mkState (notes s) (viewBox s) (mode s) (isLayoutLocked s) (selectedNodeIds s)
      (activeNodeId s) (linkSourceId s) (activeDragIds s) (dragOverrides s)
      (selectionBox s) (selectionMenuPos s) (pointerStartPos s) (isDraggingRef s)
      (lastPanPoint s) (dragStartOffsets s) (dragCommitRef s) v.
End Setters.

(** ** Events, the DOM the handlers query, and the calls they make *)

(** The fields of a [React.PointerEvent] the handlers read. *)
Record PointerEvent {num : Type} : Type := mkPointerEvent {
  clientX : num;
  clientY : num;
  shiftKey : bool
}.
Arguments PointerEvent : clear implicits.
Arguments mkPointerEvent {num}.

(** [svgRef.current.getScreenCTM()]: the entries [a], [d], [e], [f]. *)
Record CTM {num : Type} : Type := mkCTM {
  ctm_a : num; ctm_d : num; ctm_e : num; ctm_f : num
}.
Arguments CTM : clear implicits.
Arguments mkCTM {num}.

(** [containerRef.current]: [clientWidth] and the bounding rectangle. *)
Record Container {num : Type} : Type := mkContainer {
  clientWidth : num;
  rectWidth : num;
  rectHeight : num
}.
Arguments Container : clear implicits.
Arguments mkContainer {num}.

(** [svgCTM] is [None] when [svgRef.current] or its CTM is missing,
    [container] when [containerRef.current] is. *)
Record Dom {num : Type} : Type := mkDom {
  svgCTM : option (CTM num);
  container : option (Container num)
}.
Arguments Dom : clear implicits.
Arguments mkDom {num}.

(** Calls on the component's props. *)
Inductive Call {num : Type} : Type :=
| onUpdateNotes (updates : list (Note num))
| onSelectNote (k : string)
| onDeleteNotes (ids : list string)
| onDuplicateNotes (ids : list string).
Arguments Call : clear implicits.

Notation "s |> f" := (f s) (at level 45, left associativity, only parsing).

(** ** Event handlers *)

Section Handlers.
Context {num : Type} `{Number num}.
Implicit Type s : State num.
Local Open Scope num_scope.

(** [{ ...note, x, y }] *)
Definition withXY (n : Note num) (nx ny : num) : Note num :=
  mkNote (id n) (title n) (content n) (tags n) (isFavorite n)
         (createdAt n) (updatedAt n) nx ny (links n).

(** [{ ...note, links }] *)
Definition withLinks (n : Note num) (l : list string) : Note num :=
  mkNote (id n) (title n) (content n) (tags n) (isFavorite n)
         (createdAt n) (updatedAt n) (x n) (y n) l.

(** ToBoolean of a [string | null]. *)
Definition truthyId (o : option string) : bool :=
  match o with
  | Some k => negb (String.eqb k "")
  | None => false
  end.

(** [a !== b] for a [string | null] and a string. *)
Definition differsFrom (o : option string) (k : string) : bool :=
  match o with
  | Some k' => negb (String.eqb k' k)
  | None => true
  end.

Definition getPointerPosition (dom : Dom num) (evt : PointerEvent num) : Point num :=
  match svgCTM dom with
  | None => mkPoint (ofZ 0) (ofZ 0)
  | Some c =>
      mkPoint ((clientX evt - ctm_e c) / ctm_a c) ((clientY evt - ctm_f c) / ctm_d c)
  end.

Definition toScreenCoords s (dom : Dom num) (svgX svgY : num) : Point num :=
  match container dom with
  | None => mkPoint (ofZ 0) (ofZ 0)
  | Some rect =>
      let scaleX := rectWidth rect / bw (viewBox s) in
      let scaleY := rectHeight rect / bh (viewBox s) in
      mkPoint ((svgX - bx (viewBox s)) * scaleX) ((svgY - by_ (viewBox s)) * scaleY)
  end.

Definition handlePointerDown s (dom : Dom num) (e : PointerEvent num)
    : State num * list (Call num) :=
  let s1 := s |> setActiveNodeId None |> setSelectionMenuPos None in
  let s2 := if negb (ToolMode_eqb (mode s) CONNECT) then setLinkSourceId None s1 else s1 in
  let coords := getPointerPosition dom e in
  let s3 := s2 |> set_pointerStartPos (mkPoint (clientX e) (clientY e))
               |> set_lastPanPoint (mkPoint (clientX e) (clientY e))
               |> set_isDraggingRef false in
  let s4 :=
    match mode s with
    | SELECT =>
        let s' := setSelectionBox (Some (mkBox (px coords) (py coords) (ofZ 0) (ofZ 0))) s3 in
        let s' := if negb (shiftKey e) then setSelectedNodeIds JSSet.empty s' else s' in
        set_isDraggingRef true s'
    | PAN => set_isDraggingRef true s3
    | DEFAULT =>
        let s' := set_isDraggingRef true s3 in
        if negb (shiftKey e) then setSelectedNodeIds JSSet.empty s' else s'
    | CONNECT => s3
    end in
  (s4, []).

(** [containerRef.current?.clientWidth || 1] *)
Definition clientW (dom : Dom num) : num :=
  match container dom with
  | Some c => if ntruthy (clientWidth c) then clientWidth c else ofZ 1
  | None => ofZ 1
  end.

(** The [activeDragIds.forEach] of the drag branch: the new override map and
    the [changed] flag. *)
Definition moveOverrides (coords : Point num) (offsets : JSMap.t (Offset num))
    (activeDragIds : JSSet.t) (dragOverrides : JSMap.t (Point num))
    : JSMap.t (Point num) * bool :=
  fold_left
    (fun (acc : JSMap.t (Point num) * bool) k =>
       let '(newOverrides, changed) := acc in
       match JSMap.get offsets k with
       | Some offset =>
           let newX := px coords - odx offset in
           let newY := py coords - ody offset in
           (JSMap.set newOverrides k (mkPoint newX newY), true)
       | None => acc
       end)
    activeDragIds (dragOverrides, false).

Definition handlePointerMove s (dom : Dom num) (e : PointerEvent num)
    : State num * list (Call num) :=
  if negb (isDraggingRef s) then (s, [])
  else
    let coords := getPointerPosition dom e in
    match ToolMode_eqb (mode s) SELECT, selectionBox s with
    | true, Some prev =>
        (setSelectionBox
           (Some (mkBox (bx prev) (by_ prev) (px coords - bx prev) (py coords - by_ prev))) s,
         [])
    | _, _ =>
        if ToolMode_eqb (mode s) PAN
           || (ToolMode_eqb (mode s) DEFAULT && Nat.eqb (JSSet.size (activeDragIds s)) 0)
        then
          let dx := clientX e - px (lastPanPoint s) in
          let dy := clientY e - py (lastPanPoint s) in
          let scaleX := bw (viewBox s) / clientW dom in
          let prev := viewBox s in
          (s |> setViewBox (mkBox (bx prev - dx * scaleX) (by_ prev - dy * scaleX)
                                  (bw prev) (bh prev))
             |> set_lastPanPoint (mkPoint (clientX e) (clientY e)),
           [])
        else if Nat.ltb 0 (JSSet.size (activeDragIds s)) && negb (isLayoutLocked s)
        then
          let '(newOverrides, changed) :=
            moveOverrides coords (dragStartOffsets s) (activeDragIds s) (dragOverrides s) in
          (if changed then setDragOverrides newOverrides s else s, [])
        else (s, [])
    end.

(** The [dragOverrides.forEach] of pointer-up: one update per override whose
    note is found. *)
Definition dragUpdates (notes : list (Note num)) (dragOverrides : JSMap.t (Point num))
    : list (Note num) :=
  fold_left
    (fun updates (entry : string * Point num) =>
       let '(k, pos) := entry in
       match findNote notes k with
       | Some note => updates ++ [withXY note (px pos) (py pos)]
       | None => updates
       end)
    dragOverrides [].

(** The box normalised on release: [x], [y], [w], [h] of the SELECT branch. *)
Definition normalizeBox (b : Box num) : Box num :=
  mkBox (nmin (bx b) (bx b + bw b)) (nmin (by_ b) (by_ b + bh b))
        (nabs (bw b)) (nabs (bh b)).

(** The circle-versus-rectangle test of the SELECT branch, on the
    normalised box. *)
Definition boxHits (b : Box num) (note : Note num) : bool :=
  let closestX := nmax (bx b) (nmin (x note) (bx b + bw b)) in
  let closestY := nmax (by_ b) (nmin (y note) (by_ b + bh b)) in
  let dx := x note - closestX in
  let dy := y note - closestY in
  (dx * dx + dy * dy) <? (NODE_RADIUS * NODE_RADIUS).

Definition boxSelection (b : Box num) (notes : list (Note num)) (seed : JSSet.t)
    : JSSet.t :=
  fold_left (fun sel note => if boxHits b note then JSSet.add sel (id note) else sel)
            notes seed.

Definition handlePointerUp s (dom : Dom num) (e : PointerEvent num)
    : State num * list (Call num) :=
  let s1 := set_isDraggingRef false s in
  let '(s2, calls) :=
    if Nat.ltb 0 (JSSet.size (activeDragIds s)) then
      let updates := dragUpdates (notes s) (dragOverrides s) in
      let '(s', calls) :=
        if Nat.ltb 0 (length updates)
        then (set_dragCommitRef true s1, [onUpdateNotes updates])
        else (s1 |> setActiveDragIds JSSet.empty |> setDragOverrides JSMap.empty, [])
      in
      (set_dragStartOffsets JSMap.empty s', calls)
    else (s1, []) in
  let s3 :=
    match ToolMode_eqb (mode s) SELECT, selectionBox s with
    | true, Some box =>
        let nb := normalizeBox box in
        let newSelection :=
          boxSelection nb (notes s) (if shiftKey e then selectedNodeIds s else JSSet.empty) in
        let s' := s2 |> setSelectedNodeIds newSelection |> setSelectionBox None in
        if Nat.ltb 0 (JSSet.size newSelection) then
          let selectedNotes := filter (fun n => JSSet.has newSelection (id n)) (notes s) in
          if Nat.ltb 0 (length selectedNotes) then
            let len := ofZ (Z.of_nat (length selectedNotes)) in
            let avgX := fold_left (fun sum n => sum + x n) selectedNotes (ofZ 0) / len in
            let avgY := fold_left (fun sum n => sum + y n) selectedNotes (ofZ 0) / len in
            setSelectionMenuPos (Some (toScreenCoords s dom avgX avgY)) s'
          else s'
        else s'
    | _, _ => s2
    end in
  (s3, calls).

(** The link toggle of the CONNECT branch. *)
Definition toggleLink (sourceLinks : list string) (k : string) : list string :=
  if existsb (String.eqb k) sourceLinks
  then filter (fun l => negb (String.eqb l k)) sourceLinks
  else sourceLinks ++ [k].

(** The [nodesToDrag.forEach] of drag initiation: start offsets, seeded
    overrides and the new active-drag set. *)
Definition seedDrag (notes : list (Note num)) (coords : Point num)
    (nodesToDrag : list string)
    : JSMap.t (Offset num) * JSMap.t (Point num) * JSSet.t :=
  fold_left
    (fun (acc : JSMap.t (Offset num) * JSMap.t (Point num) * JSSet.t) k =>
       let '(offsets, overrides, newActiveDragIds) := acc in
       match findNote notes k with
       | Some n =>
           (JSMap.set offsets k (mkOffset (px coords - x n) (py coords - y n)),
            JSMap.set overrides k (mkPoint (x n) (y n)),
            JSSet.add newActiveDragIds k)
       | None => acc
       end)
    nodesToDrag (JSMap.empty, JSMap.empty, JSSet.empty).

Definition handleNodePointerDown s (dom : Dom num) (e : PointerEvent num)
    (note : Note num) : State num * list (Call num) :=
  let s1 := set_wasNodeSelectedRef (JSSet.has (selectedNodeIds s) (id note)) s in
  if ToolMode_eqb (mode s) CONNECT then
    if truthyId (linkSourceId s) && differsFrom (linkSourceId s) (id note) then
      let calls :=
        match linkSourceId s with
        | Some src =>
            match findNote (notes s) src with
            | Some source =>
                [onUpdateNotes [withLinks source (toggleLink (links source) (id note))]]
            | None => []
            end
        | None => []
        end in
      (setLinkSourceId None s1, calls)
    else (setLinkSourceId (Some (id note)) s1, [])
  else
    let newSelection :=
      if negb (JSSet.has (selectedNodeIds s) (id note)) then
        if negb (shiftKey e) then JSSet.of_list [id note]
        else JSSet.add (selectedNodeIds s) (id note)
      else selectedNodeIds s in
    let s2 := s1 |> setSelectedNodeIds newSelection
                 |> setSelectionMenuPos None
                 |> setActiveNodeId None in
    if negb (isLayoutLocked s) && negb (ToolMode_eqb (mode s) PAN)
       && negb (ToolMode_eqb (mode s) SELECT)
    then
      let coords := getPointerPosition dom e in
      let nodesToDrag :=
        if JSSet.has newSelection (id note) then JSSet.to_list newSelection
        else [id note] in
      let '(offsets, overrides, newActiveDragIds) :=
        seedDrag (notes s) coords nodesToDrag in
      (s2 |> set_pointerStartPos (mkPoint (clientX e) (clientY e))
          |> set_dragStartOffsets offsets
          |> setActiveDragIds newActiveDragIds
          |> setDragOverrides overrides
          |> set_isDraggingRef true,
       [])
    else (s2, []).

Definition handleNodeDoubleClick s (note : Note num) : State num * list (Call num) :=
  (setActiveNodeId (Some (id note)) s, []).

(** Defined by the component but passed to no element: see [step]. *)
Definition handleNodePointerUp `{Hypot num} s (dom : Dom num) (e : PointerEvent num)
    (noteId : string) : State num * list (Call num) :=
  let dist := nhypot (clientX e - px (pointerStartPos s))
                     (clientY e - py (pointerStartPos s)) in
  if (dist <? ofZ 5) && negb (ToolMode_eqb (mode s) CONNECT) then
    let s1 :=
      if wasNodeSelectedRef s && JSSet.has (selectedNodeIds s) noteId then
        if shiftKey e then setSelectedNodeIds (JSSet.delete (selectedNodeIds s) noteId) s
        else s
      else s in
    let s2 :=
      if Nat.ltb 1 (JSSet.size (selectedNodeIds s)) && JSSet.has (selectedNodeIds s) noteId
      then
        match findNote (notes s) noteId with
        | Some note => setSelectionMenuPos (Some (toScreenCoords s dom (x note) (y note))) s1
        | None => s1
        end
      else s1 in
    (s2, [])
  else (s, []).

(** [activeTag] is [document.activeElement?.tagName]; the test is the guard
    inside the Delete/Backspace branch. *)
Definition isTextInput (activeTag : option string) : bool :=
  match activeTag with
  | Some t => String.eqb t "INPUT" || String.eqb t "TEXTAREA"
  | None => false
  end.

Definition handleKeyDown s (key : string) (activeTag : option string)
    : State num * list (Call num) :=
  if Nat.ltb 0 (JSSet.size (selectedNodeIds s))
     && (String.eqb key "Delete" || String.eqb key "Backspace")
     && isTextInput activeTag
  then (s, [])
  else
    let '(s1, calls) :=
      if Nat.ltb 0 (JSSet.size (selectedNodeIds s))
         && (String.eqb key "Delete" || String.eqb key "Backspace")
      then (s |> setSelectedNodeIds JSSet.empty
              |> setSelectionMenuPos None
              |> setActiveNodeId None,
            [onDeleteNotes (JSSet.to_list (selectedNodeIds s))])
      else (s, []) in
    let s2 :=
      if String.eqb key "Escape" then
        s1 |> setSelectedNodeIds JSSet.empty
           |> setActiveNodeId None
           |> setSelectionMenuPos None
           |> setLinkSourceId None
           |> setMode DEFAULT
      else s1 in
    (s2, calls).

Definition onWheel s (deltaY : num) : State num * list (Call num) :=
  let scale := if ofZ 0 <? deltaY then lit_1_05 else lit_0_95 in
  let prev := viewBox s in
  (setViewBox (mkBox (bx prev) (by_ prev) (bw prev * scale) (bh prev * scale)) s, []).

(** The [useEffect] keyed on [notes]; it runs after the render that first
    sees the new list. *)
Definition dragCommitEffect s : State num :=
  if dragCommitRef s then
    s |> setDragOverrides JSMap.empty
      |> setActiveDragIds JSSet.empty
      |> set_dragCommitRef false
  else s.

(** The parent passes a new [notes] array: the render with it, then the
    effect. *)
Definition receiveNotes s (notes' : list (Note num)) : State num :=
  dragCommitEffect (set_notes notes' s).

(** [activeNode] of the render. *)
Definition activeNode s : option (Note num) :=
  match activeNodeId s with
  | Some k => if negb (String.eqb k "") then findNote (notes s) k else None
  | None => None
  end.

(** Buttons of the toolbar, the detail card and the bulk menu. *)
Inductive Button : Type :=
| LockButton
| ModeButton (m : ToolMode)      (* Pan, Selection and Box Select tools *)
| ConnectButton
| DetailClose
| DetailEdit
| DetailDelete
| MenuCopy
| MenuDelete.

Definition onClick s (b : Button) : State num * list (Call num) :=
  match b with
  | LockButton => (setIsLayoutLocked (negb (isLayoutLocked s)) s, [])
  | ModeButton m => (setMode m s, [])
  | ConnectButton =>
      (s |> setMode (if ToolMode_eqb (mode s) CONNECT then DEFAULT else CONNECT)
         |> setLinkSourceId None,
       [])
  | DetailClose | DetailEdit | DetailDelete =>
      match activeNode s, selectionMenuPos s with
      | Some n, None =>
          match b with
          | DetailClose => (setActiveNodeId None s, [])
          | DetailEdit => (s, [onSelectNote (id n)])
          | _ => (setActiveNodeId None s, [onDeleteNotes [id n]])
          end
      | _, _ => (s, [])
      end
  | MenuCopy | MenuDelete =>
      match selectionMenuPos s with
      | Some _ =>
          match b with
          | MenuCopy =>
              (setSelectionMenuPos None s,
               [onDuplicateNotes (JSSet.to_list (selectedNodeIds s))])
          | _ =>
              (s |> setSelectionMenuPos None |> setSelectedNodeIds JSSet.empty,
               [onDeleteNotes (JSSet.to_list (selectedNodeIds s))])
          end
      | None => (s, [])
      end
  end.

(** ** The component as wired in its JSX

    The [<svg>] carries [onPointerDown], [onPointerMove], [onPointerUp] and
    [onWheel]; a node group carries [onPointerDown] (which stops
    propagation) and [onDoubleClick] only, so a pointer-move or pointer-up
    over a node bubbles to the [<svg>] handlers. *)

Inductive Event : Type :=
| PointerDown (dom : Dom num) (e : PointerEvent num)
| PointerMove (dom : Dom num) (e : PointerEvent num)
| PointerUp (dom : Dom num) (e : PointerEvent num)
| Wheel (deltaY : num)
| NodePointerDown (dom : Dom num) (e : PointerEvent num) (note : Note num)
| NodeDoubleClick (note : Note num)
| KeyDown (key : string) (activeTag : option string)
| Click (b : Button)
| NotesChanged (notes' : list (Note num)).

Definition step s (ev : Event) : State num * list (Call num) :=
  match ev with
  | PointerDown dom e => handlePointerDown s dom e
  | PointerMove dom e => handlePointerMove s dom e
  | PointerUp dom e => handlePointerUp s dom e
  | Wheel deltaY => onWheel s deltaY
  | NodePointerDown dom e note => handleNodePointerDown s dom e note
  | NodeDoubleClick note => handleNodeDoubleClick s note
  | KeyDown key activeTag => handleKeyDown s key activeTag
  | Click b => onClick s b
  | NotesChanged notes' => (receiveNotes s notes', [])
  end.

(** The states passed through by a sequence of events, and the calls made. *)
Fixpoint run s (evs : list Event) : State num * list (Call num) :=
  match evs with
  | [] => (s, [])
  | ev :: evs' =>
      let '(s1, calls1) := step s ev in
      let '(s2, calls2) := run s1 evs' in
      (s2, calls1 ++ calls2)
  end.

(** [useState]/[useRef] initial values. *)
Definition initialState (notes : list (Note num)) : State num :=
  mkState notes (mkBox (ofZ 0) (ofZ 0) (ofZ 1200) (ofZ 800)) DEFAULT false
          JSSet.empty None None JSSet.empty JSMap.empty None None
          (mkPoint (ofZ 0) (ofZ 0)) false (mkPoint (ofZ 0) (ofZ 0))
          JSMap.empty false false.

(** [handleBatchUpdateNotes] of [App.tsx]: the store's merge by identifier. *)
Definition handleBatchUpdateNotes (prev updates : list (Note num)) : list (Note num) :=
  let updateMap := fold_left (fun m n => JSMap.set m (id n) n) updates JSMap.empty in
  map (fun n => match JSMap.get updateMap (id n) with
                | Some u => u
                | None => n
                end) prev.

End Handlers.

(** ** Concrete scenes used by the examples (binary64 numbers) *)

Module Scene.
Local Open Scope float_scope.

Definition note (k : string) (nx ny : float) (l : list string) : Note float :=
  mkNote k "" "" [] false 0 0 nx ny l.

(** A ready DOM: identity CTM, a 600 by 400 pixel container. *)
Definition dom600 : Dom float :=
  mkDom (Some (mkCTM 1 1 0 0)) (Some (mkContainer 600 600 400)).

Definition at_ (cx cy : float) : PointerEvent float := mkPointerEvent cx cy false.
Definition shift_at (cx cy : float) : PointerEvent float := mkPointerEvent cx cy true.

Definition nA : Note float := note "a" 100 100 [].
Definition nB : Note float := note "b" 300 100 [].
Definition nC : Note float := note "c" 300 300 [].
End Scene.

(** A scene for the keyboard handler: note [a] selected, the Connect tool
    active with [a] armed as link source. *)
Module KeyScene.
Import Scene.
Definition s0 : State float :=
  initialState [nA; nB]
    |> setSelectedNodeIds (JSSet.of_list ["a"])
    |> setMode CONNECT
    |> setLinkSourceId (Some "a").
End KeyScene.

(** Scenes for panning: the Default tool with nothing dragged, the pointer
    pressed on the empty canvas at (300, 200); the view box is 1200 wide in
    the first scene and 600 wide in the second, over 600 device pixels. *)
Module PanScene.
Import Scene.
Local Open Scope float_scope.
Definition pressed (w : float) : State float :=
  fst (step (setViewBox (mkBox 0 0 w 800) (initialState [nA]))
            (PointerDown dom600 (at_ 300 200))).
Definition wide : State float := pressed 1200.
End PanScene.


(** Scenes for the rubber band: the Box Select tool over a single node at
    (100, 100); the band is pulled from (0, 0) to [(cx, cy)] and released. *)
Module BandScene.
Import Scene.
Local Open Scope float_scope.
Definition start : State float := setMode SELECT (initialState [nA]).
Definition band (cx cy : float) : list Event :=
  [PointerDown dom600 (at_ 0 0); PointerMove dom600 (at_ cx cy);
   PointerUp dom600 (at_ cx cy)].
Definition released : State float :=
  setSelectionBox (Some (mkBox 0 0 95 100)) start.
(** The band pulled from [(x0, y0)] to [(cx, cy)] and released. *)
Definition pull (x0 y0 cx cy : float) : list Event :=
  [PointerDown dom600 (at_ x0 y0); PointerMove dom600 (at_ cx cy);
   PointerUp dom600 (at_ cx cy)].
(** What the band from [(x0, y0)] to [(cx, cy)] selects of the node at
    (100, 100). *)
Definition pulled (x0 y0 cx cy : float) : JSSet.t :=
  selectedNodeIds (fst (run start (pull x0 y0 cx cy))).
End BandScene.

(** ** The component together with the store

    [App.tsx] answers every [onUpdateNotes] with [handleBatchUpdateNotes]
    and passes the resulting list back as the [notes] prop. *)

Section WithStore.
Context {num : Type} `{Number num}.



End WithStore.

Module ConnectScene.
Import Scene.
Definition s0 : State float :=
  initialState [nA; nB] |> setMode CONNECT |> setLinkSourceId (Some "a").
End ConnectScene.

(** ** Vocabulary of the drag protocol *)

Section DragVocabulary.
Context {num : Type} `{Number num}.
Implicit Type s : State num.

(** The override map and the active-drag set hold the same identifiers
    (in the same insertion order), each once. *)
Definition overridesMatchDragSet s : Prop :=
  JSMap.keys (dragOverrides s) = activeDragIds s /\ NoDup (activeDragIds s).

(** All three parts of a drag session hold the same identifiers. *)
Definition sessionConsistent s : Prop :=
  JSMap.keys (dragOverrides s) = activeDragIds s /\
  JSMap.keys (dragStartOffsets s) = activeDragIds s.

(** The updates pointer-up proposes: per override whose note is present, the
    note with the override coordinates. *)
Definition proposedUpdates (notes : list (Note num))
    (dragOverrides : JSMap.t (Point num)) : list (Note num) :=
  flat_map (fun entry : string * Point num =>
              match findNote notes (fst entry) with
              | Some note => [withXY note (px (snd entry)) (py (snd entry))]
              | None => []
              end)
           dragOverrides.

(** Both node layers as mounted under the [<svg>]. *)
Definition nodeLayers s : list (NodeEl num) :=
  StaticNodesLayer (notes s) (activeDragIds s)
    ++ mounted (DynamicNodesLayer (notes s) (dragOverrides s)).

(** Events that can arrive while the pointer is held down on a node. *)
Definition duringGesture (ev : @Event num) : Prop :=
  match ev with
  | PointerMove _ _ | Wheel _ | KeyDown _ _ => True
  | _ => False
  end.

(** A node press that opens a new drag session. *)
Definition startsDrag s (ev : @Event num) : bool :=
  match ev with
  | NodePointerDown _ _ _ =>
      negb (ToolMode_eqb (mode s) CONNECT) && negb (isLayoutLocked s)
      && negb (ToolMode_eqb (mode s) PAN) && negb (ToolMode_eqb (mode s) SELECT)
  | _ => false
  end.


End DragVocabulary.

(** The same, or a change of the notes prop arriving meanwhile. *)
Definition duringGestureOrRefresh {num : Type} (ev : @Event num) : Prop :=
  match ev with
  | PointerMove _ _ | Wheel _ | KeyDown _ _ | NotesChanged _ => True
  | _ => False
  end.

(** A drag of note [a] from (100, 100) to (140, 130), before release. *)
Module DragScene.
Import Scene.
Local Open Scope float_scope.
Definition pressed : State float :=
  fst (step (initialState [nA; nB]) (NodePointerDown dom600 (at_ 100 100) nA)).
Definition dragged : State float :=
  fst (step pressed (PointerMove dom600 (at_ 140 130))).
Definition release : Event := PointerUp dom600 (at_ 140 130).
End DragScene.

(** The part of the state the drag protocol lives in. *)
Definition dragPart {num : Type} (s : State num) :=
  (activeDragIds s, dragOverrides s, dragStartOffsets s, dragCommitRef s, notes s).

(** ** Vocabulary of the connection layers *)

Section EdgeVocabulary.
Context {num : Type} `{Number num}.

(** Both connection layers as mounted under the [<svg>]. *)
Definition connectionLayers (notes : list (Note num))
    (dragOverrides : JSMap.t (Point num)) (activeDragIds : JSSet.t)
    : list (EdgeEl num) :=
  StaticConnectionsLayer notes activeDragIds
    ++ mounted (DynamicConnectionsLayer notes dragOverrides activeDragIds).

(** The element joins the notes [A] and [B], in either direction. *)
Definition joins (A B : string) (el : EdgeEl num) : bool :=
  (String.eqb (esource el) A && String.eqb (etarget el) B)
  || (String.eqb (esource el) B && String.eqb (etarget el) A).

Definition edgesBetween (A B : string) (els : list (EdgeEl num)) : list (EdgeEl num) :=
  filter (joins A B) els.

Definition isEntity (notes : list (Note num)) (A : string) : Prop :=
  exists n, In n notes /\ id n = A.

(** The adjacency records [A -> B], [B -> A] or both. *)
Definition linked (notes : list (Note num)) (A B : string) : Prop :=
  exists n, In n notes /\
            ((id n = A /\ In B (links n)) \/ (id n = B /\ In A (links n))).

(** Every identifier the list mentions, as a note or as a link target. *)
Definition identifiers (notes : list (Note num)) : list string :=
  flat_map (fun n => id n :: links n) notes.

(** The (source, target) pairs in the order the layers visit them. *)
Definition linkPairs (notes : list (Note num)) : list (Note num * string) :=
  flat_map (fun source => map (fun targetId => (source, targetId)) (links source)) notes.
End EdgeVocabulary.

(** Four notes whose identifiers make two different pairs share one link
    key: ["a-b"] with ["c"], and ["a"] with ["b-c"]. *)
Module KeyClash.
Import Scene.
Local Open Scope float_scope.
Definition notes : list (Note float) :=
  [note "a-b" 0 0 ["c"]; note "c" 100 0 []; note "a" 0 100 ["b-c"]; note "b-c" 100 100 []].
End KeyClash.

(** A selection of both notes, for the click on an already selected node. *)
Module ClickScene.
Import Scene.
Definition s0 : State float :=
  initialState [nA; nB] |> setSelectedNodeIds (JSSet.of_list ["a"; "b"]).
Definition click (e : PointerEvent float) : list Event :=
  [NodePointerDown dom600 e nA; PointerUp dom600 e].
(** The state in which the release arrives. *)
Definition held (e : PointerEvent float) : State float :=
  fst (step s0 (NodePointerDown dom600 e nA)).
End ClickScene.

(** ** Invariants of the two connection loops

    [P] is the list of (source, target) pairs visited so far, [processed]
    and [els] the loop variables of the same name. *)

Section EdgeInvariants.
Context {num : Type} `{Number num}.
Variable notes : list (Note num).
Variable activeDragIds : JSSet.t.

Definition pairKey (p : Note num * string) : string :=
  getLinkKey (id (fst p)) (snd p).

(** The element was pushed for the pair [p]. *)
Definition pushedFor (el : EdgeEl num) (p : Note num * string) : Prop :=
  esource el = id (fst p) /\ etarget el = snd p /\ ekey el = pairKey p.

Definition dragging (p : Note num * string) : bool :=
  JSSet.has activeDragIds (id (fst p)) || JSSet.has activeDragIds (snd p).

Definition staticInv (P : list (Note num * string)) (processed : JSSet.t)
    (els : list (EdgeEl num)) : Prop :=
  (forall el, In el els ->
     In (ekey el) processed /\
     exists p, In p P /\ pushedFor el p /\ dragging p = false) /\
  NoDup (map ekey els) /\
  (forall p, In p P -> In (pairKey p) processed) /\
  (forall k, In k processed ->
     exists p, In p P /\ k = pairKey p /\
       (findNote notes (snd p) <> None -> dragging p = false ->
        exists el, In el els /\ ekey el = k)).

Definition dynamicInv (P : list (Note num * string)) (processed : JSSet.t)
    (els : list (EdgeEl num)) : Prop :=
  (forall el, In el els ->
     In (ekey el) processed /\
     exists p, In p P /\ pushedFor el p /\ dragging p = true) /\
  NoDup (map ekey els) /\
  (forall p, In p P -> findNote notes (snd p) <> None -> dragging p = true ->
     In (pairKey p) processed) /\
  (forall k, In k processed -> exists el, In el els /\ ekey el = k).
End EdgeInvariants.

(** ** Which link a key belongs to

    Both connection loops skip a link whose key was processed before, so
    what they draw for two notes [A] and [B] is decided by the first link,
    in visiting order, that produces the key of [A] and [B]. *)

Section KeyOwnership.
Context {num : Type} `{Number num}.
Variable notes : list (Note num).
Variable activeDragIds : JSSet.t.
Variables A B : string.

(** The recorded link [p] joins [A] and [B], in either direction. *)
Definition linkJoins (p : Note num * string) : bool :=
  (String.eqb (id (fst p)) A && String.eqb (snd p) B)
  || (String.eqb (id (fst p)) B && String.eqb (snd p) A).

(** The link [p] produces the key of [A] and [B]. *)
Definition hasKey (p : Note num * string) : bool :=
  String.eqb (pairKey p) (getLinkKey A B).

(** The first recorded link, in the order the layers visit them, that
    produces the key of [A] and [B]. *)
Definition firstWithKey : option (Note num * string) :=
  find hasKey (linkPairs notes).

(** The key of [A] and [B] is first produced by a link between them. *)
Definition keyOwnedBy : Prop :=
  exists p, firstWithKey = Some p /\ linkJoins p = true.

(** The target of the link is a note of the list. *)
Definition targetFound (p : Note num * string) : bool :=
  match findNote notes (snd p) with
  | Some _ => true
  | None => false
  end.

(** A link the dynamic loop can draw under the key of [A] and [B]. *)
Definition eligible (p : Note num * string) : bool :=
  hasKey p && (targetFound p && dragging activeDragIds p).

(** The static elements joining [A] and [B] when [o] is the first visited
    link with their key. *)
Definition staticCount (o : option (Note num * string)) : nat :=
  match o with
  | Some p =>
      if linkJoins p && targetFound p && negb (dragging activeDragIds p)
      then 1%nat else 0%nat
  | None => 0%nat
  end.

(** The dynamic elements joining [A] and [B] when [o] is the first visited
    eligible link. *)
Definition dynamicCount (o : option (Note num * string)) : nat :=
  match o with
  | Some p => if linkJoins p then 1%nat else 0%nat
  | None => 0%nat
  end.

(** Loop invariants: [P] is the list of links visited so far. *)
Definition staticKeyInv (P : list (Note num * string)) (processed : JSSet.t)
    (els : list (EdgeEl num)) : Prop :=
  (In (getLinkKey A B) processed <-> find hasKey P <> None) /\
  length (edgesBetween A B els) = staticCount (find hasKey P).

Definition dynamicKeyInv (P : list (Note num * string)) (processed : JSSet.t)
    (els : list (EdgeEl num)) : Prop :=
  (In (getLinkKey A B) processed <-> find eligible P <> None) /\
  length (edgesBetween A B els) = dynamicCount (find eligible P).
End KeyOwnership.

(** No two recorded links between different pairs share a link key. *)
Definition keysUnambiguous {num : Type} (notes : list (Note num)) : Prop :=
  forall p q,
    In p (linkPairs notes) -> In q (linkPairs notes) ->
    pairKey p = pairKey q ->
    linkJoins (id (fst q)) (snd q) p = true.

(** The link between [a] and [b] recorded on both sides, with [a] dragged. *)
Module BothWays.
Import Scene.
Local Open Scope float_scope.
Definition notes : list (Note float) := [note "a" 100 100 ["b"]; note "b" 300 100 ["a"]].
Definition activeDragIds : JSSet.t := JSSet.of_list ["a"].
Definition dragOverrides : JSMap.t (Point float) := [("a", mkPoint 140 130)].
End BothWays.

(** Case analysis on every test a handler makes. *)
Ltac split_ifs :=
  repeat match goal with
         | |- context [if ?c then _ else _] => destruct c; cbn
         | |- context [match ?c with _ => _ end] => destruct c; cbn
         end.

(** Closes the two halves of [bulkMenuInvariant] after a step. *)
Ltac menu_done Hb Hb' Hm :=
  split; intros Hx; cbn in *; unfold JSSet.empty in *;
  first [ reflexivity | congruence | now elim Hx
        | apply Hb; exact Hx | apply Hb; discriminate
        | eapply Hb'; eassumption | apply Hm; exact Hx | apply Hm; discriminate
        | exfalso; specialize (Hb Hx); discriminate ].

(** ** The store's other reducers ([App.tsx])

    [window.confirm], [crypto.randomUUID] and [Date.now] are inputs: the
    answer of the dialog is a boolean, and the [i]-th duplicate draws the
    [i]-th entry of a supply of fresh values. *)

Section Store.
Context {num : Type} `{Number num}.

(** [handleUpdateNote]: the editor's single-note update. *)
Definition handleUpdateNote (prev : list (Note num)) (updatedNote : Note num)
    : list (Note num) :=
  map (fun n => if String.eqb (id n) (id updatedNote) then updatedNote else n) prev.

(** [ids.includes(k)] *)
Definition includes (ids : list string) (k : string) : bool :=
  existsb (String.eqb k) ids.

(** [handleDeleteNote]: the new notes list and the new [activeNoteId]. *)
Definition handleDeleteNote (prev : list (Note num)) (activeNoteId : option string)
    (k : string) : list (Note num) * option string :=
  (filter (fun n => negb (String.eqb (id n) k)) prev,
   match activeNoteId with
   | Some prevId => if String.eqb prevId k then None else Some prevId
   | None => None
   end).

(** [handleBatchDelete]: [confirmed] is the answer [window.confirm] gives
    when more than three notes are to be deleted. *)
Definition handleBatchDelete (confirmed : bool) (prev : list (Note num))
    (activeNoteId : option string) (ids : list string)
    : list (Note num) * option string :=
  if Nat.eqb (length ids) 0 then (prev, activeNoteId)
  else if Nat.ltb 3 (length ids) && negb confirmed then (prev, activeNoteId)
  else
    (filter (fun n => negb (includes ids (id n))) prev,
     match activeNoteId with
     | Some prevId =>
         if negb (String.eqb prevId "") && includes ids prevId then None
         else Some prevId
     | None => None
     end).

(** What one duplicate draws from the environment: [crypto.randomUUID()]
    and the two [Date.now()] readings. *)
Record Fresh : Type := mkFresh {
  freshId : string;
  createdNow : num;
  updatedNow : num
}.

(** The [ids.map(...).filter(Boolean)] of [handleBatchDuplicate]; [i]
    counts the duplicates made so far. *)
Fixpoint duplicatesOf (prev : list (Note num)) (supply : nat -> Fresh) (i : nat)
    (ids : list string) : list (Note num) :=
  match ids with
  | [] => []
  | k :: ids' =>
      match findNote prev k with
      | None => duplicatesOf prev supply i ids'
      | Some original =>
          mkNote (freshId (supply i))
                 (title original ++ " (Copy)")
                 (content original) (tags original) (isFavorite original)
                 (createdNow (supply i)) (updatedNow (supply i))
                 (nadd (x original) (ofZ 40)) (nadd (y original) (ofZ 40))
                 (links original)
            :: duplicatesOf prev supply (S i) ids'
      end
  end.

Definition handleBatchDuplicate (supply : nat -> Fresh) (prev : list (Note num))
    (ids : list string) : list (Note num) :=
  prev ++ duplicatesOf prev supply 0 ids.

End Store.
Arguments Fresh : clear implicits.

(** The identifiers of [ids] that name a note of [prev], in order. *)
Definition namingNotes {num : Type} `{Number num} (prev : list (Note num))
    (ids : list string) : list string :=
  filter (fun k => match findNote prev k with Some _ => true | None => false end) ids.

(** ** What an edge element of each connection layer is made from *)

Section EdgeShape.
Context {num : Type} `{Number num}.
Variable notes : list (Note num).
Variable dragOverrides : JSMap.t (Point num).
Variable activeDragIds : JSSet.t.

(** [el] was made from a note [source] of the list and one of its links
    whose target [target] the list holds. *)
Definition edgeFrom (el : EdgeEl num) (source target : Note num) : Prop :=
  In source notes /\ In (etarget el) (links source) /\
  findNote notes (etarget el) = Some target /\
  esource el = id source /\
  ekey el = getLinkKey (esource el) (etarget el).

Definition staticEdgeShape (el : EdgeEl num) : Prop :=
  exists source target,
    edgeFrom el source target /\
    JSSet.has activeDragIds (esource el) = false /\
    JSSet.has activeDragIds (etarget el) = false /\
    mkPoint (ex1 el) (ey1 el) = mkPoint (x source) (y source) /\
    mkPoint (ex2 el) (ey2 el) = mkPoint (x target) (y target).

Definition dynamicEdgeShape (el : EdgeEl num) : Prop :=
  exists source target,
    edgeFrom el source target /\
    (JSSet.has activeDragIds (esource el) = true \/
     JSSet.has activeDragIds (etarget el) = true) /\
    mkPoint (ex1 el) (ey1 el) = getPos dragOverrides (esource el) (Some source) /\
    mkPoint (ex2 el) (ey2 el) = getPos dragOverrides (etarget el) (Some target).
End EdgeShape.

(** ** Vocabulary of whole gestures *)

Section GestureVocabulary.
Context {num : Type} `{Number num}.

(** Any event but a click on the lock button. *)
Definition notLockButton (ev : @Event num) : Prop :=
  match ev with
  | Click LockButton => False
  | _ => True
  end.

(** The pointer events of the canvas and of its nodes. *)
Definition pointerGesture (ev : @Event num) : Prop :=
  match ev with
  | PointerDown _ _ | PointerMove _ _ | PointerUp _ _ | NodePointerDown _ _ _ => True
  | _ => False
  end.

(** Pointer-moves, each with the DOM it arrives in. *)
Definition moves (ms : list (Dom num * PointerEvent num)) : list (@Event num) :=
  map (fun m => PointerMove (fst m) (snd m)) ms.

(** The client position of the last of [es], or [start] when there is none. *)
Definition lastClient (es : list (PointerEvent num)) (start : Point num) : Point num :=
  fold_left (fun _ e => mkPoint (clientX e) (clientY e)) es start.
End GestureVocabulary.

(** ** Bulk menu *)

(** The rubber band and the bulk menu are never up together, and the bulk
    menu is up only over a non-empty selection. *)
Definition bulkMenuInvariant {num : Type} (s : State num) : Prop :=
  (selectionBox s <> None -> selectionMenuPos s = None) /\
  (selectionMenuPos s <> None -> selectedNodeIds s <> JSSet.empty).

(** The identifiers a call to the parent's delete or duplicate carries. *)
Definition bulkIds {num : Type} (c : Call num) : option (list string) :=
  match c with
  | onDeleteNotes ids | onDuplicateNotes ids => Some ids
  | _ => None
  end.

(** Scenes for the store and the canvas menus. *)
Module StoreScene.
Import Scene.
Local Open Scope float_scope.

(** One fresh identifier, with both clock readings. *)
Definition supply (i : nat) : Fresh float := mkFresh "a2" 7 8.

(** The copy the store makes of [nA] from [supply]. *)
Definition copyA : Note float := mkNote "a2" " (Copy)" "" [] false 7 8 140 140 [].

(** [a] links to [b]. *)
Definition linked : State float := initialState [note "a" 100 100 ["b"]; nB].
Definition edgeAB : EdgeEl float := mkEdgeEl (getLinkKey "a" "b") "a" "b" 100 100 300 100.

(** Note [a] selected. *)
Definition selectedA : State float :=
  initialState [nA; nB] |> setSelectedNodeIds (JSSet.of_list ["a"]).

(** The layout locked. *)
Definition locked : State float := setIsLayoutLocked true (initialState [nA; nB]).

(** Box Select picked from the toolbar, then a band pulled over [nA]. *)
Definition bandOverA : list (@Event float) :=
  Click (ModeButton SELECT) :: BandScene.band 95 100.
End StoreScene.

(** * Properties *)

Section KeyboardAndWheel.
Context {num : Type} `{Number num}.
Implicit Type s : State num.

(** C10.  A wheel event multiplies the view box width and height by 1.05
    when [deltaY > 0] and by 0.95 otherwise; the origin [x], [y] and every
    other field of the component state stay as they were, and no prop is
    called.  The zoom is therefore anchored at the top-left corner. *)
Theorem wheel_changes_extent_only :
  forall s (deltaY : num),
    let s' := fst (step s (Wheel deltaY)) in
    let scale := if nltb (ofZ 0) deltaY then lit_1_05 else lit_0_95 in
    bw (viewBox s') = nmul (bw (viewBox s)) scale /\
    bh (viewBox s') = nmul (bh (viewBox s)) scale /\
    bx (viewBox s') = bx (viewBox s) /\
    by_ (viewBox s') = by_ (viewBox s) /\
    s' = setViewBox (viewBox s') s /\
    snd (step s (Wheel deltaY)) = [].
Proof.
  intros s deltaY; cbn.
  repeat split; reflexivity.
Qed.

(** C9 (as amended).  Escape is handled whatever element has focus: it
    empties the selection, closes the detail card and the bulk menu, disarms
    the link source and selects the Default tool, calling no prop.  Delete
    or Backspace with a non-empty selection is ignored while an INPUT or a
    TEXTAREA has focus; otherwise it calls [onDeleteNotes] once with the
    selected identifiers and empties the selection, the bulk menu and the
    detail card, leaving every other field alone. *)
Theorem key_handling :
  (forall s tag,
      let s' := fst (step s (KeyDown "Escape" tag)) in
      selectedNodeIds s' = JSSet.empty /\
      activeNodeId s' = None /\
      selectionMenuPos s' = None /\
      linkSourceId s' = None /\
      mode s' = DEFAULT /\
      s' = (s |> setSelectedNodeIds JSSet.empty |> setActiveNodeId None
              |> setSelectionMenuPos None |> setLinkSourceId None
              |> setMode DEFAULT) /\
      snd (step s (KeyDown "Escape" tag)) = []) /\
  (forall s key tag,
      key = "Delete" \/ key = "Backspace" ->
      selectedNodeIds s <> JSSet.empty ->
      (isTextInput tag = true -> step s (KeyDown key tag) = (s, [])) /\
      (isTextInput tag = false ->
       let s' := fst (step s (KeyDown key tag)) in
       snd (step s (KeyDown key tag)) = [onDeleteNotes (JSSet.to_list (selectedNodeIds s))] /\
       selectedNodeIds s' = JSSet.empty /\
       selectionMenuPos s' = None /\
       activeNodeId s' = None /\
       s' = (s |> setSelectedNodeIds JSSet.empty |> setSelectionMenuPos None
               |> setActiveNodeId None))).
Proof.
  split.
  - intros s tag; unfold step, handleKeyDown.
    destruct (Nat.ltb 0 (JSSet.size (selectedNodeIds s))); cbn;
      repeat split; reflexivity.
  - intros s key tag Hkey Hsel.
    assert (Hsize : Nat.ltb 0 (JSSet.size (selectedNodeIds s)) = true).
    { destruct (selectedNodeIds s) eqn:E; [now elim Hsel | reflexivity]. }
    split; intros Htag; cbn; unfold handleKeyDown; rewrite Hsize, Htag;
      destruct Hkey as [-> | ->]; cbn; repeat split; reflexivity.
Qed.

End KeyboardAndWheel.

(** [key_handling] at the state of [KeyScene]: Delete with the canvas
    focused deletes the selected note. *)
Lemma key_handling_witness :
  snd (step KeyScene.s0 (KeyDown "Delete" None)) = [onDeleteNotes ["a"]].
Proof.
  refine (proj1 (proj2 (proj2 (@key_handling float _) KeyScene.s0 "Delete" None
                          (or_introl eq_refl) _) eq_refl)).
  discriminate.
Defined.

(** C9 (as stated) fails: with an INPUT focused, Escape still clears the
    selection, disarms the link source and leaves the Connect tool. *)
Lemma escape_ignores_focus :
  ~ (forall (s : State float) (key : string),
        step s (KeyDown key (Some "INPUT")) = (s, [])).
Proof.
  intros Hclaim.
  specialize (Hclaim KeyScene.s0 "Escape").
  apply (f_equal (fun r => selectedNodeIds (fst r))) in Hclaim.
  vm_compute in Hclaim. discriminate.
Qed.


(** ** Panning *)

Section Pan.
Context {num : Type} `{Number num}.
Implicit Type s : State num.
Local Open Scope num_scope.

(** A pointer-move that reaches the pan branch subtracts from both origin
    coordinates the pointer delta times [viewBox.w / clientWidth]. *)
Lemma pan_move :
  forall s dom e c,
    isDraggingRef s = true ->
    mode s = PAN \/ (mode s = DEFAULT /\ activeDragIds s = JSSet.empty) ->
    container dom = Some c ->
    ntruthy (clientWidth c) = true ->
    let ratio := bw (viewBox s) / clientWidth c in
    step s (PointerMove dom e) =
      (s |> setViewBox
              (mkBox (bx (viewBox s) - (clientX e - px (lastPanPoint s)) * ratio)
                     (by_ (viewBox s) - (clientY e - py (lastPanPoint s)) * ratio)
                     (bw (viewBox s)) (bh (viewBox s)))
         |> set_lastPanPoint (mkPoint (clientX e) (clientY e)),
       []).
Proof.
  intros s dom e c Hdrag Hmode Hc Hw; cbn.
  unfold handlePointerMove, clientW. rewrite Hdrag, Hc, Hw; cbn.
  destruct Hmode as [Hm | [Hm Hd]]; rewrite Hm; [|rewrite Hd]; reflexivity.
Qed.

End Pan.




(** ** Rubber-band selection *)

Lemma JSSet_has_In : forall (s : JSSet.t) k, JSSet.has s k = true <-> In k s.
Proof.
  intros s k; unfold JSSet.has. rewrite existsb_exists. split.
  - intros [x0 [Hin Heq]]. apply String.eqb_eq in Heq. now subst.
  - intros Hin. exists k. split; [exact Hin | apply String.eqb_refl].
Qed.

Lemma JSSet_has_false : forall (s : JSSet.t) k, JSSet.has s k = false <-> ~ In k s.
Proof.
  intros s k. rewrite <- JSSet_has_In. destruct (JSSet.has s k); split; congruence.
Qed.

Lemma JSSet_add_In : forall (s : JSSet.t) k k', In k' (JSSet.add s k) <-> In k' s \/ k' = k.
Proof.
  intros s k k'; unfold JSSet.add.
  destruct (JSSet.has s k) eqn:E.
  - apply JSSet_has_In in E. split; [tauto | intros [H | ->]; assumption].
  - rewrite in_app_iff; cbn. intuition congruence.
Qed.

Section BoxSelect.
Context {num : Type} `{Number num}.
Implicit Type s : State num.

Lemma boxSelection_In :
  forall (b : Box num) (l : list (Note num)) (seed : JSSet.t) k,
    In k (boxSelection b l seed) <->
    In k seed \/ exists note, In note l /\ id note = k /\ boxHits b note = true.
Proof.
  intros b l; unfold boxSelection.
  induction l as [|n l IH]; intros seed k; cbn.
  - split; [tauto | intros [Hs | [n [[] _]]]; exact Hs].
  - rewrite IH. destruct (boxHits b n) eqn:Hhit.
    + rewrite JSSet_add_In. split.
      * intros [[Hs | ->] | [m [Hin Hm]]]; eauto 6.
      * intros [Hs | [m [[-> | Hin] [Hid Hm]]]]; eauto 6.
    + split.
      * intros [Hs | [m [Hin Hm]]]; eauto 6.
      * intros [Hs | [m [[-> | Hin] [Hid Hm]]]]; [tauto | congruence | eauto 6].
Qed.

Lemma pointerUp_band_selection :
  forall s dom e box,
    mode s = SELECT ->
    selectionBox s = Some box ->
    let s' := fst (step s (PointerUp dom e)) in
    selectedNodeIds s'
      = boxSelection (normalizeBox box) (notes s)
                     (if shiftKey e then selectedNodeIds s else JSSet.empty) /\
    selectionBox s' = None.
Proof.
  intros s dom e box Hm Hb; cbn. unfold handlePointerUp. rewrite Hm, Hb; cbn.
  repeat match goal with
         | |- context [if ?c then _ else _] => destruct c; cbn
         end; split; reflexivity.
Qed.

End BoxSelect.

(** *** Order in binary64

    [Math.max], [Math.min] and [Math.abs] as the order of the numbers sees
    them, from the specification of the primitive comparison
    ([SFcompare]). *)

Lemma SFcompare_antisym :
  forall a b, SFcompare b a = option_map CompOpp (SFcompare a b).
Proof.
  intros [sa | sa | | sa ma ea] [sb | sb | | sb mb eb]; cbn;
    try reflexivity;
    try (destruct sa; reflexivity); try (destruct sb; reflexivity);
    try (destruct sa, sb; reflexivity).
  destruct sa, sb; cbn; try reflexivity;
    rewrite (Z.compare_antisym ea eb); destruct (Z.compare ea eb) eqn:E; cbn;
    try reflexivity;
    replace (Pos.compare_cont Eq mb ma) with (CompOpp (Pos.compare_cont Eq ma mb))
      by apply (Pos.compare_cont_antisym ma mb Eq);
    destruct (Pos.compare_cont Eq ma mb); reflexivity.
Qed.

Lemma F64_ltb_asym :
  forall a b : float, PrimFloat.ltb a b = true -> PrimFloat.ltb b a = false.
Proof.
  intros a b. rewrite !ltb_spec. unfold SFltb.
  rewrite (SFcompare_antisym (Prim2SF a) (Prim2SF b)).
  destruct (SFcompare (Prim2SF a) (Prim2SF b)) as [[]|]; cbn; congruence.
Qed.

Lemma F64_ltb_irrefl : forall a : float, PrimFloat.ltb a a = false.
Proof.
  intros a. destruct (PrimFloat.ltb a a) eqn:E; [|reflexivity].
  pose proof (F64_ltb_asym a a E). congruence.
Qed.

(** [Math.max] of two numbers is one of them, and neither is above it. *)
Lemma F64_max_spec :
  forall a b : float,
    PrimFloat.is_nan a = false -> PrimFloat.is_nan b = false ->
    (F64.max a b = a \/ F64.max a b = b) /\
    PrimFloat.ltb (F64.max a b) a = false /\
    PrimFloat.ltb (F64.max a b) b = false.
Proof.
  intros a b Ha Hb; unfold F64.max. rewrite Ha, Hb.
  destruct (PrimFloat.ltb a b) eqn:E1.
  { repeat split; [now right | now apply F64_ltb_asym | apply F64_ltb_irrefl]. }
  destruct (PrimFloat.ltb b a) eqn:E2.
  { repeat split; [now left | apply F64_ltb_irrefl | exact E1]. }
  destruct (PrimFloat.get_sign a).
  - repeat split; [now right | exact E2 | apply F64_ltb_irrefl].
  - repeat split; [now left | apply F64_ltb_irrefl | exact E1].
Qed.

(** [Math.min] of two numbers is one of them, and neither is below it. *)
Lemma F64_min_spec :
  forall a b : float,
    PrimFloat.is_nan a = false -> PrimFloat.is_nan b = false ->
    (F64.min a b = a \/ F64.min a b = b) /\
    PrimFloat.ltb a (F64.min a b) = false /\
    PrimFloat.ltb b (F64.min a b) = false.
Proof.
  intros a b Ha Hb; unfold F64.min. rewrite Ha, Hb.
  destruct (PrimFloat.ltb a b) eqn:E1.
  { repeat split; [now left | apply F64_ltb_irrefl | now apply F64_ltb_asym]. }
  destruct (PrimFloat.ltb b a) eqn:E2.
  { repeat split; [now right | exact E1 | apply F64_ltb_irrefl]. }
  destruct (PrimFloat.get_sign a).
  - repeat split; [now left | apply F64_ltb_irrefl | exact E2].
  - repeat split; [now right | exact E1 | apply F64_ltb_irrefl].
Qed.

(** [Math.abs] of a number is the number or its negation, and is not below
    zero. *)
Lemma F64_abs_spec :
  forall a : float,
    (PrimFloat.abs a = a \/ PrimFloat.abs a = PrimFloat.opp a) /\
    PrimFloat.ltb (PrimFloat.abs a) 0%float = false.
Proof.
  intros a. split.
  - assert (Hsf : SFabs (Prim2SF a) = Prim2SF a \/ SFabs (Prim2SF a) = SFopp (Prim2SF a)).
    { destruct (Prim2SF a) as [[]|[]| |[] m e]; cbn; auto. }
    destruct Hsf as [Hsf | Hsf]; [left | right]; apply Prim2SF_inj.
    + now rewrite abs_spec.
    + now rewrite abs_spec, opp_spec.
  - rewrite ltb_spec, abs_spec.
    change (Prim2SF 0%float) with (S754_zero false).
    destruct (Prim2SF a) as [s|s| |s m e]; reflexivity.
Qed.

(** The centre coordinate [v] clamped to the edges [lo] and [hi] of a box
    of non-negative extent is one of the three and lies within the edges. *)
Lemma F64_clamp_spec :
  forall lo hi v : float,
    PrimFloat.is_nan lo = false -> PrimFloat.is_nan hi = false ->
    PrimFloat.is_nan v = false ->
    PrimFloat.ltb hi lo = false ->
    let c := F64.max lo (F64.min v hi) in
    (c = lo \/ c = v \/ c = hi) /\
    PrimFloat.ltb c lo = false /\ PrimFloat.ltb hi c = false.
Proof.
  intros lo hi v Hlo Hhi Hv Hle c.
  destruct (F64_min_spec v hi Hv Hhi) as [Hm [_ Hmhi]].
  assert (Hnan : PrimFloat.is_nan (F64.min v hi) = false)
    by (destruct Hm as [-> | ->]; assumption).
  destruct (F64_max_spec lo (F64.min v hi) Hlo Hnan) as [Hc [Hclo _]].
  fold c in Hc, Hclo. split; [|split; [exact Hclo|]].
  - destruct Hc as [-> | ->]; [now left|].
    destruct Hm as [-> | ->]; auto.
  - destruct Hc as [-> | ->]; assumption.
Qed.

(** Over exact rationals the normalised box has non-negative extent and
    spans the same interval on each axis as the signed one. *)
Lemma normalizeBox_Q :
  forall b : Box Q,
    let nb := normalizeBox b in
    0 <= bw nb /\ 0 <= bh nb /\
    bx nb == Qmin (bx b) (bx b + bw b) /\
    bx nb + bw nb == Qmax (bx b) (bx b + bw b) /\
    by_ nb == Qmin (by_ b) (by_ b + bh b) /\
    by_ nb + bh nb == Qmax (by_ b) (by_ b + bh b).
Proof.
  assert (span : forall a w : Q, Qmin a (a + w) + Qabs w == Qmax a (a + w)).
  { intros a w. destruct (Qlt_le_dec w 0) as [Hneg | Hpos].
    - rewrite (Qabs_neg w) by (apply Qlt_le_weak; exact Hneg).
      assert (Hle : a + w <= a).
      { rewrite <- (Qplus_0_r a) at 2. apply Qplus_le_r. apply Qlt_le_weak; exact Hneg. }
      rewrite (Q.min_r _ _ Hle), (Q.max_l _ _ Hle). ring.
    - rewrite (Qabs_pos w Hpos).
      assert (Hle : a <= a + w).
      { rewrite <- (Qplus_0_r a) at 1. apply Qplus_le_r. exact Hpos. }
      rewrite (Q.min_l _ _ Hle), (Q.max_r _ _ Hle). reflexivity. }
  intros b; cbn.
  repeat split; try apply Qabs_nonneg; try reflexivity; apply span.
Qed.

(** C5.  On release of the rubber band the box is normalised ([x], [y] the
    smaller corner, [w], [h] the absolute extent) and the new selection
    holds, besides the previous selection when Shift is held, exactly the
    notes whose centre lies at squared distance less than 30 * 30 from the
    closest point of the normalised rectangle, the centre clamped to it
    with [Math.max] and [Math.min].  In binary64 the maximum and the
    minimum of two numbers are one of the two, no number being above the
    one and below the other, and the absolute value is the number or its
    negation and not below zero; so the clamped coordinate is an edge of
    the box or the centre coordinate itself, and lies within the edges.
    A node at (100, 100) is selected by the
    band from (0, 0) to (95, 100) and not by the band from (0, 0) to
    (50, 50); it is selected by a band around it, by the band pulled back
    from (95, 100) to (0, 0), by the band ending 29 to its left and by the
    one ending 21 off on both axes; it is not selected by the band ending
    30 to its left, by the one ending 22 off on both axes, nor by the band
    between (150, 150) and (300, 300) pulled either way.  Over exact
    rationals the normalised extent is never negative and spans the
    dragged interval. *)
Theorem band_selects_by_circle_overlap :
  (forall {num : Type} `{Number num} (s : State num) dom e box,
      mode s = SELECT ->
      selectionBox s = Some box ->
      let s' := fst (step s (PointerUp dom e)) in
      let nb := normalizeBox box in
      (bx nb = nmin (bx box) (nadd (bx box) (bw box)) /\
       by_ nb = nmin (by_ box) (nadd (by_ box) (bh box)) /\
       bw nb = nabs (bw box) /\ bh nb = nabs (bh box)) /\
      selectionBox s' = None /\
      forall k,
        In k (selectedNodeIds s') <->
        (shiftKey e = true /\ In k (selectedNodeIds s)) \/
        exists note,
          In note (notes s) /\ id note = k /\
          let closestX := nmax (bx nb) (nmin (x note) (nadd (bx nb) (bw nb))) in
          let closestY := nmax (by_ nb) (nmin (y note) (nadd (by_ nb) (bh nb))) in
          let dx := nsub (x note) closestX in
          let dy := nsub (y note) closestY in
          nltb (nadd (nmul dx dx) (nmul dy dy)) (nmul (ofZ 30) (ofZ 30)) = true) /\
  (forall a b : float,
      (PrimFloat.is_nan a = false -> PrimFloat.is_nan b = false ->
       ((nmax a b = a \/ nmax a b = b) /\
        nltb (nmax a b) a = false /\ nltb (nmax a b) b = false) /\
       ((nmin a b = a \/ nmin a b = b) /\
        nltb a (nmin a b) = false /\ nltb b (nmin a b) = false)) /\
      (nabs a = a \/ nabs a = PrimFloat.opp a) /\
      nltb (nabs a) 0%float = false) /\
  (forall lo hi v : float,
      PrimFloat.is_nan lo = false -> PrimFloat.is_nan hi = false ->
      PrimFloat.is_nan v = false ->
      nltb hi lo = false ->
      let closest := nmax lo (nmin v hi) in
      (closest = lo \/ closest = v \/ closest = hi) /\
      nltb closest lo = false /\ nltb hi closest = false) /\
  (selectedNodeIds (fst (run BandScene.start (BandScene.band 95 100))) = ["a"] /\
   selectedNodeIds (fst (run BandScene.start (BandScene.band 50 50))) = [] /\
   BandScene.pulled 50 50 150 150 = ["a"] /\
   BandScene.pulled 95 100 0 0 = ["a"] /\
   BandScene.pulled 0 0 71 100 = ["a"] /\
   BandScene.pulled 0 0 70 100 = [] /\
   BandScene.pulled 0 0 79 79 = ["a"] /\
   BandScene.pulled 0 0 78 78 = [] /\
   BandScene.pulled 150 150 300 300 = [] /\
   BandScene.pulled 300 300 150 150 = [] /\
   BandScene.pulled 130 0 200 200 = [] /\
   BandScene.pulled 129 0 200 200 = ["a"])%float /\
  (forall b : Box Q,
      let nb := normalizeBox b in
      0 <= bw nb /\ 0 <= bh nb /\
      bx nb == Qmin (bx b) (bx b + bw b) /\
      bx nb + bw nb == Qmax (bx b) (bx b + bw b) /\
      by_ nb == Qmin (by_ b) (by_ b + bh b) /\
      by_ nb + bh nb == Qmax (by_ b) (by_ b + bh b)).
Proof.
  split; [|split; [|split; [|split]]].
  - intros num N s dom e box Hm Hb s' nb.
    destruct (pointerUp_band_selection s dom e box Hm Hb) as [Hsel Hbox].
    split; [repeat split; reflexivity|].
    split; [exact Hbox|].
    intros k. subst s'. rewrite Hsel, boxSelection_In.
    destruct (shiftKey e); cbn; unfold boxHits, NODE_RADIUS; fold nb.
    + split; intros [Hs | Hn]; tauto.
    + split; [intros [[] | Hn]; tauto | intros [[Hf _] | Hn]; [discriminate | tauto]].
  - intros a b. split; [|exact (F64_abs_spec a)].
    intros Ha Hb. split; [exact (F64_max_spec a b Ha Hb) | exact (F64_min_spec a b Ha Hb)].
  - exact F64_clamp_spec.
  - repeat split; vm_compute; reflexivity.
  - exact normalizeBox_Q.
Qed.

(** [band_selects_by_circle_overlap] at the released band (0,0)-(95,100):
    the node at (100, 100) is in the new selection. *)
Lemma band_selects_by_circle_overlap_witness :
  In "a" (selectedNodeIds (fst (step BandScene.released
                                     (PointerUp Scene.dom600 (Scene.at_ 95 100))))).
Proof.
  apply (proj2 (proj2 (proj1 band_selects_by_circle_overlap float _
                         BandScene.released Scene.dom600 (Scene.at_ 95 100)
                         (mkBox 0 0 95 100)%float eq_refl eq_refl))).
  right. exists Scene.nA. split; [left; reflexivity|].
  split; [reflexivity | vm_compute; reflexivity].
Defined.

(** ** Link toggle *)



Section Connect.
Context {num : Type} `{Number num}.
Implicit Type s : State num.

Lemma findNote_id : forall (l : list (Note num)) k n, findNote l k = Some n -> id n = k.
Proof.
  intros l k n Hf. apply find_some in Hf. destruct Hf as [_ Hk].
  now apply String.eqb_eq in Hk.
Qed.





End Connect.



(** ** Drag sessions *)

Lemma JSMap_keys_set :
  forall {V} (m : JSMap.t V) k v,
    JSMap.keys (JSMap.set m k v) = JSSet.add (JSMap.keys m) k.
Proof.
  intros V m k v; unfold JSMap.keys, JSSet.add, JSSet.has.
  induction m as [|[k' v'] m IH]; cbn; [reflexivity|].
  destruct (String.eqb k k') eqn:E; cbn; [reflexivity|].
  rewrite IH. destruct (existsb (String.eqb k) (map fst m)); reflexivity.
Qed.

Lemma JSSet_add_present : forall (s : JSSet.t) k, In k s -> JSSet.add s k = s.
Proof.
  intros s k Hin; unfold JSSet.add.
  apply JSSet_has_In in Hin. now rewrite Hin.
Qed.

Lemma JSSet_add_NoDup : forall (s : JSSet.t) k, NoDup s -> NoDup (JSSet.add s k).
Proof.
  intros s k Hnd; unfold JSSet.add.
  destruct (JSSet.has s k) eqn:E; [exact Hnd|].
  apply JSSet_has_false in E.
  apply NoDup_app; [exact Hnd | repeat constructor; intros [] | ].
  intros a Ha [<- | []]. contradiction.
Qed.

Lemma JSMap_get_set :
  forall {V} (m : JSMap.t V) k v k',
    JSMap.get (JSMap.set m k v) k'
    = if String.eqb k' k then Some v else JSMap.get m k'.
Proof.
  intros V m k v k'.
  induction m as [|[k0 v0] m IH]; cbn; [reflexivity|].
  destruct (String.eqb k k0) eqn:E; cbn.
  - apply String.eqb_eq in E; subst k0.
    destruct (String.eqb k' k); reflexivity.
  - rewrite IH. destruct (String.eqb k' k0) eqn:E0; [|reflexivity].
    apply String.eqb_eq in E0; subst k0.
    rewrite String.eqb_sym, E. reflexivity.
Qed.

Lemma JSMap_get_In :
  forall {V} (m : JSMap.t V) k v, JSMap.get m k = Some v -> In (k, v) m.
Proof.
  intros V m k v; induction m as [|[k0 v0] m IH]; cbn; [discriminate|].
  destruct (String.eqb k k0) eqn:E.
  - apply String.eqb_eq in E; subst k0. intros [= ->]. now left.
  - intros Hg. right. now apply IH.
Qed.

Lemma JSMap_get_keys :
  forall {V} (m : JSMap.t V) k v, JSMap.get m k = Some v -> In k (JSMap.keys m).
Proof.
  intros V m k v Hg. apply JSMap_get_In in Hg.
  unfold JSMap.keys. change k with (fst (k, v)). now apply in_map.
Qed.


Lemma JSMap_keys_nil : forall {V} (m : JSMap.t V), JSMap.keys m = [] -> m = [].
Proof. intros V [|p m]; [reflexivity | discriminate]. Qed.

Section Drag.
Context {num : Type} `{Number num}.
Implicit Type s : State num.

Lemma seedDrag_keys :
  forall notes coords (l : list string),
    let '(offsets, overrides, act) := seedDrag notes coords l in
    JSMap.keys offsets = act /\ JSMap.keys overrides = act /\ NoDup act.
Proof.
  intros notes0 coords l; unfold seedDrag.
  set (f := fun (acc : JSMap.t (Offset num) * JSMap.t (Point num) * JSSet.t) k => _).
  assert (Hgen : forall l acc,
             (let '(o, v, a) := acc in
              JSMap.keys o = a /\ JSMap.keys v = a /\ NoDup a) ->
             let '(o, v, a) := fold_left f l acc in
             JSMap.keys o = a /\ JSMap.keys v = a /\ NoDup a).
  { clear l. induction l as [|k l IH]; intros acc Hacc; cbn; [exact Hacc|].
    apply IH. destruct acc as [[o v] a]; subst f; cbn.
    destruct (findNote notes0 k); [|exact Hacc].
    destruct Hacc as [Ho [Hv Hnd]].
    rewrite !JSMap_keys_set, Ho, Hv.
    repeat split; try reflexivity. now apply JSSet_add_NoDup. }
  apply Hgen. cbn. repeat split; constructor.
Qed.

(** After the drag branch of pointer-move, an identifier of the drag set
    that has a start offset sits at pointer minus offset, and every other
    identifier keeps the entry it had. *)
Lemma moveOverrides_get :
  forall coords offsets (l : JSSet.t) (ov : JSMap.t (Point num)) k,
    JSMap.get (fst (moveOverrides coords offsets l ov)) k
    = match (if JSSet.has l k then JSMap.get offsets k else None) with
      | Some offset =>
          Some (mkPoint (nsub (px coords) (odx offset)) (nsub (py coords) (ody offset)))
      | None => JSMap.get ov k
      end.
Proof.
  intros coords offsets l ov k; unfold moveOverrides.
  generalize false as ch. revert ov.
  induction l as [|k0 l IH]; intros ov ch; cbn; [reflexivity|].
  destruct (JSMap.get offsets k0) as [off0|] eqn:E0.
  - rewrite IH, JSMap_get_set.
    destruct (String.eqb k k0) eqn:E; cbn.
    + apply String.eqb_eq in E; subst k0. rewrite E0.
      destruct (JSSet.has l k); reflexivity.
    + reflexivity.
  - rewrite IH. destruct (String.eqb k k0) eqn:E; cbn; [|reflexivity].
    apply String.eqb_eq in E; subst k0. rewrite E0.
    destruct (JSSet.has l k); reflexivity.
Qed.

Lemma moveOverrides_keys :
  forall coords offsets (l : JSSet.t) (ov : JSMap.t (Point num)),
    incl l (JSMap.keys ov) ->
    JSMap.keys (fst (moveOverrides coords offsets l ov)) = JSMap.keys ov.
Proof.
  intros coords offsets l ov; unfold moveOverrides.
  generalize false as ch. revert ov.
  induction l as [|k0 l IH]; intros ov ch Hincl; cbn; [reflexivity|].
  assert (Hl : incl l (JSMap.keys ov)) by (intros a Ha; apply Hincl; now right).
  destruct (JSMap.get offsets k0).
  - rewrite IH; rewrite JSMap_keys_set, JSSet_add_present;
      try reflexivity; try exact Hl; apply Hincl; now left.
  - now apply IH.
Qed.

Lemma dragUpdates_proposed :
  forall notes0 (ov : JSMap.t (Point num)),
    dragUpdates notes0 ov = proposedUpdates notes0 ov.
Proof.
  intros notes0 ov; unfold dragUpdates, proposedUpdates.
  match goal with
  | |- fold_left ?f _ _ = flat_map ?g _ =>
      assert (Hgen : forall l acc, fold_left f l acc = acc ++ flat_map g l)
  end.
  { induction l as [|[k pos] l IH]; intros acc; cbn; [now rewrite app_nil_r|].
    rewrite IH. destruct (findNote notes0 k); cbn;
      [now rewrite <- app_assoc | reflexivity]. }
  apply Hgen.
Qed.

(** Events that never touch the drag protocol. *)
Lemma step_outside_drag :
  forall s ev,
    match ev with
    | PointerDown _ _ | Wheel _ | NodeDoubleClick _ | KeyDown _ _ | Click _ => True
    | _ => False
    end ->
    dragPart (fst (step s ev)) = dragPart s.
Proof.
  intros s ev Hev; destruct ev; try contradiction; cbn.
  - unfold handlePointerDown; split_ifs; reflexivity.
  - reflexivity.
  - reflexivity.
  - unfold handleKeyDown; split_ifs; reflexivity.
  - unfold onClick; split_ifs; reflexivity.
Qed.

Lemma nodePointerDown_no_drag :
  forall s dom e note,
    startsDrag s (NodePointerDown dom e note) = false ->
    dragPart (fst (step s (NodePointerDown dom e note))) = dragPart s.
Proof.
  intros s dom e note; cbn. unfold handleNodePointerDown.
  destruct (ToolMode_eqb (mode s) CONNECT); cbn.
  - intros _. split_ifs; reflexivity.
  - intros Hno.
    replace (negb (isLayoutLocked s) && negb (ToolMode_eqb (mode s) PAN)
             && negb (ToolMode_eqb (mode s) SELECT)) with false.
    reflexivity.
Qed.

Lemma nodePointerDown_starts_drag :
  forall s dom e note,
    startsDrag s (NodePointerDown dom e note) = true ->
    let s' := fst (step s (NodePointerDown dom e note)) in
    sessionConsistent s' /\ NoDup (activeDragIds s') /\
    dragCommitRef s' = dragCommitRef s /\ notes s' = notes s /\
    mode s' = mode s /\ isLayoutLocked s' = isLayoutLocked s /\
    isDraggingRef s' = true.
Proof.
  intros s dom e note; cbn. unfold handleNodePointerDown, sessionConsistent.
  destruct (ToolMode_eqb (mode s) CONNECT); cbn; [discriminate|].
  intros Hyes. rewrite Hyes.
  match goal with
  | |- context [seedDrag ?n ?c ?l] =>
      pose proof (seedDrag_keys n c l) as Hseed; destruct (seedDrag n c l) as [[o v] a]
  end.
  destruct Hseed as [Ho [Hv Hnd]]; cbn. repeat split; try assumption; reflexivity.
Qed.


(** Pointer-move leaves the drag set, the start offsets, the commit flag and
    the notes alone; the override map either stays or becomes the one the
    drag branch computes. *)
Lemma pointerMove_drag :
  forall s dom e,
    let s' := fst (step s (PointerMove dom e)) in
    activeDragIds s' = activeDragIds s /\
    dragStartOffsets s' = dragStartOffsets s /\
    dragCommitRef s' = dragCommitRef s /\
    notes s' = notes s /\
    mode s' = mode s /\ isLayoutLocked s' = isLayoutLocked s /\
    (dragOverrides s' = dragOverrides s \/
     dragOverrides s'
     = fst (moveOverrides (getPointerPosition dom e) (dragStartOffsets s)
                          (activeDragIds s) (dragOverrides s))).
Proof.
  intros s dom e; cbn. unfold handlePointerMove.
  split_ifs; repeat split; auto.
Qed.

Lemma pointerUp_drag :
  forall s dom e,
    let r := step s (PointerUp dom e) in
    let updates := proposedUpdates (notes s) (dragOverrides s) in
    notes (fst r) = notes s /\
    mode (fst r) = mode s /\ isLayoutLocked (fst r) = isLayoutLocked s /\
    (activeDragIds s = JSSet.empty ->
     snd r = [] /\ dragPart (fst r) = dragPart s) /\
    (activeDragIds s <> JSSet.empty -> updates <> [] ->
     snd r = [onUpdateNotes updates] /\
     dragPart (fst r)
     = (activeDragIds s, dragOverrides s, JSMap.empty, true, notes s)) /\
    (activeDragIds s <> JSSet.empty -> updates = [] ->
     snd r = [] /\
     dragPart (fst r)
     = (JSSet.empty, JSMap.empty, JSMap.empty, dragCommitRef s, notes s)).
Proof.
  intros s dom e; cbn. unfold handlePointerUp, dragPart.
  rewrite dragUpdates_proposed.
  assert (Habsurd : forall (A : Type) (l : list A) (P : Prop), l <> l -> P)
    by (intros A l P Hl; now elim Hl).
  destruct (activeDragIds s) as [|k0 act] eqn:Eact; cbn;
    [|destruct (proposedUpdates (notes s) (dragOverrides s)) as [|u0 ups] eqn:Eup; cbn];
    repeat split; try discriminate;
    try match goal with
        | Hc : _ <> _ |- _ => solve [apply (Habsurd _ _ _ Hc)]
        end;
    split_ifs; cbn; rewrite ?Eact; reflexivity.
Qed.

End Drag.

Section DragProtocol.
Context {num : Type} `{Number num}.
Implicit Type s : State num.

Lemma dragPart_fields :
  forall s a o f c n,
    dragPart s = (a, o, f, c, n) ->
    activeDragIds s = a /\ dragOverrides s = o /\ dragStartOffsets s = f /\
    dragCommitRef s = c /\ notes s = n.
Proof. unfold dragPart; intros s a o f c n [= <- <- <- <- <-]; repeat split. Qed.

Lemma run_cons :
  forall s ev (evs : list (@Event num)),
    fst (run s (ev :: evs)) = fst (run (fst (step s ev)) evs).
Proof.
  intros s ev evs; cbn. destruct (step s ev) as [s1 c1]; cbn.
  destruct (run s1 evs); reflexivity.
Qed.

Lemma receiveNotes_drag :
  forall s notes',
    let s' := fst (step s (NotesChanged notes')) in
    notes s' = notes' /\
    (dragCommitRef s = true ->
     activeDragIds s' = JSSet.empty /\ dragOverrides s' = JSMap.empty /\
     dragCommitRef s' = false) /\
    (dragCommitRef s = false ->
     activeDragIds s' = activeDragIds s /\ dragOverrides s' = dragOverrides s /\
     dragStartOffsets s' = dragStartOffsets s /\ dragCommitRef s' = false).
Proof.
  intros s notes'; cbn. unfold receiveNotes, dragCommitEffect; cbn.
  destruct (dragCommitRef s) eqn:E; cbn; repeat split; intros;
    try reflexivity; try discriminate; exact E.
Qed.

(** In every state the component can reach, the override map and the
    active-drag set hold the same identifiers. *)
Lemma step_keeps_overridesMatchDragSet :
  forall s ev, overridesMatchDragSet s -> overridesMatchDragSet (fst (step s ev)).
Proof.
  intros s ev [Hk Hnd]; unfold overridesMatchDragSet.
  destruct ev as [dom e | dom e | dom e | d | dom e note | note | key tag | b | notes'].
  - destruct (dragPart_fields _ _ _ _ _ _ (step_outside_drag s (PointerDown dom e) I))
      as [-> [-> _]]. now split.
  - destruct (pointerMove_drag s dom e) as [Ha [_ [_ [_ [_ [_ Hov]]]]]].
    rewrite Ha. split; [|exact Hnd].
    destruct Hov as [-> | ->]; [exact Hk|].
    rewrite moveOverrides_keys; [exact Hk|]. rewrite Hk. apply incl_refl.
  - destruct (pointerUp_drag s dom e) as [_ [_ [_ [Hnone [Hcommit Hclear]]]]].
    destruct (activeDragIds s) as [|k0 act] eqn:Eact.
    + destruct (Hnone eq_refl) as [_ Hd].
      apply dragPart_fields in Hd. destruct Hd as [-> [-> _]].
      rewrite Eact. now split.
    + destruct (proposedUpdates (notes s) (dragOverrides s)) eqn:Eup.
      * destruct (Hclear ltac:(discriminate) eq_refl) as [_ Hd].
        apply dragPart_fields in Hd. destruct Hd as [-> [-> _]].
        split; [reflexivity | constructor].
      * destruct (Hcommit ltac:(discriminate) ltac:(discriminate)) as [_ Hd].
        apply dragPart_fields in Hd. destruct Hd as [-> [-> _]]. now split.
  - destruct (dragPart_fields _ _ _ _ _ _ (step_outside_drag s (Wheel d) I))
      as [-> [-> _]]. now split.
  - destruct (startsDrag s (NodePointerDown dom e note)) eqn:Est.
    + destruct (nodePointerDown_starts_drag s dom e note Est) as [[Hov _] [Hn _]].
      now split.
    + destruct (dragPart_fields _ _ _ _ _ _ (nodePointerDown_no_drag s dom e note Est))
        as [-> [-> _]]. now split.
  - destruct (dragPart_fields _ _ _ _ _ _ (step_outside_drag s (NodeDoubleClick note) I))
      as [-> [-> _]]. now split.
  - destruct (dragPart_fields _ _ _ _ _ _ (step_outside_drag s (KeyDown key tag) I))
      as [-> [-> _]]. now split.
  - destruct (dragPart_fields _ _ _ _ _ _ (step_outside_drag s (Click b) I))
      as [-> [-> _]]. now split.
  - destruct (receiveNotes_drag s notes') as [_ [Hyes Hno]].
    destruct (dragCommitRef s).
    + destruct (Hyes eq_refl) as [-> [-> _]]. split; [reflexivity | constructor].
    + destruct (Hno eq_refl) as [-> [-> _]]. now split.
Qed.

Lemma reachable_overridesMatchDragSet :
  forall notes0 (evs : list (@Event num)),
    overridesMatchDragSet (fst (run (initialState notes0) evs)).
Proof.
  intros notes0 evs.
  assert (Hgen : forall evs s, overridesMatchDragSet s ->
                               overridesMatchDragSet (fst (run s evs))).
  { clear evs. induction evs as [|ev evs IH]; intros s Hs; [exact Hs|].
    rewrite run_cons. apply IH. now apply step_keeps_overridesMatchDragSet. }
  apply Hgen. split; [reflexivity | constructor].
Qed.

End DragProtocol.

(** C2.  In a state where the override map and the active-drag set hold the
    same identifiers (every reachable state), pointer-up makes exactly one
    [onUpdateNotes] call when some overridden identifier names a present
    note; its argument holds, for each such override and for nothing else,
    the note found with [x] and [y] replaced by the override and every
    other field kept, and the drag set and override map stay.  When no overridden
    identifier names a present note, which includes the session with
    nothing captured, it makes no call and the drag set and override map
    are empty afterwards. *)
Theorem pointer_up_commit :
  forall {num : Type} `{Number num} (s : State num) dom e,
    JSMap.keys (dragOverrides s) = activeDragIds s ->
    let r := step s (PointerUp dom e) in
    let updates := proposedUpdates (notes s) (dragOverrides s) in
    (updates <> [] ->
     snd r = [onUpdateNotes updates] /\
     activeDragIds (fst r) = activeDragIds s /\
     dragOverrides (fst r) = dragOverrides s) /\
    (updates = [] ->
     snd r = [] /\
     activeDragIds (fst r) = JSSet.empty /\
     dragOverrides (fst r) = JSMap.empty /\
     (JSMap.keys (dragStartOffsets s) = activeDragIds s ->
      dragStartOffsets (fst r) = JSMap.empty)) /\
    (forall u, In u updates ->
       exists k pos note,
         In (k, pos) (dragOverrides s) /\ findNote (notes s) k = Some note /\
         id note = k /\
         x u = px pos /\ y u = py pos /\
         id u = id note /\ title u = title note /\ content u = content note /\
         tags u = tags note /\ isFavorite u = isFavorite note /\
         createdAt u = createdAt note /\ updatedAt u = updatedAt note /\
         links u = links note) /\
    (forall k pos note,
        In (k, pos) (dragOverrides s) -> findNote (notes s) k = Some note ->
        exists u, In u updates /\ id u = k /\ x u = px pos /\ y u = py pos).
Proof.
  intros num N s dom e Hkeys r updates.
  destruct (pointerUp_drag s dom e) as [_ [_ [_ [Hnone [Hcommit Hclear]]]]].
  fold r in Hnone, Hcommit, Hclear. fold updates in Hcommit, Hclear.
  assert (Hempty : activeDragIds s = JSSet.empty -> updates = []).
  { intros Ha. rewrite Ha in Hkeys. apply JSMap_keys_nil in Hkeys.
    subst updates. now rewrite Hkeys. }
  split; [|split; [|split]].
  - intros Hup.
    assert (Hact : activeDragIds s <> JSSet.empty) by (intros Ha; auto).
    destruct (Hcommit Hact Hup) as [Hcalls Hd].
    apply dragPart_fields in Hd. destruct Hd as [Ha [Ho _]]. auto.
  - intros Hup. destruct (activeDragIds s) as [|k0 act] eqn:Eact.
    + destruct (Hnone eq_refl) as [Hcalls Hd].
      apply dragPart_fields in Hd. destruct Hd as [Ha [Ho [Hf _]]].
      apply JSMap_keys_nil in Hkeys.
      rewrite Ha, Ho, Hf, Hkeys. repeat split; auto.
      intros Hoff. now apply JSMap_keys_nil.
    + destruct (Hclear ltac:(discriminate) Hup) as [Hcalls Hd].
      apply dragPart_fields in Hd. destruct Hd as [Ha [Ho [Hf _]]].
      repeat split; auto.
  - intros u Hu. subst updates. unfold proposedUpdates in Hu.
    apply in_flat_map in Hu. destruct Hu as [[k pos] [Hin Hu]]; cbn in Hu.
    destruct (findNote (notes s) k) as [note|] eqn:Hf; [|contradiction].
    destruct Hu as [<- | []].
    exists k, pos, note. pose proof (find_some _ _ Hf) as [_ Hid].
    apply String.eqb_eq in Hid.
    repeat split; try reflexivity; assumption.
  - intros k pos note Hin Hf. exists (withXY note (px pos) (py pos)).
    split; [|split; [exact (findNote_id _ _ _ Hf) | now split]].
    subst updates. unfold proposedUpdates. apply in_flat_map.
    exists (k, pos). split; [exact Hin|]. cbn. rewrite Hf. now left.
Qed.

(** [pointer_up_commit] at the released drag of [DragScene]: one call that
    moves note [a] to (140, 130). *)
Lemma pointer_up_commit_witness :
  snd (step DragScene.dragged DragScene.release)
  = [onUpdateNotes [Scene.note "a" 140 130 []]].
Proof.
  refine (proj1 (proj1 (@pointer_up_commit float _ DragScene.dragged Scene.dom600
                          (Scene.at_ 140 130) eq_refl) _)).
  vm_compute. discriminate.
Defined.

Section Session.
Context {num : Type} `{Number num}.
Implicit Type s : State num.

Lemma moveOverrides_unchanged :
  forall coords offsets (l : JSSet.t) (ov : JSMap.t (Point num)),
    snd (moveOverrides coords offsets l ov) = false ->
    fst (moveOverrides coords offsets l ov) = ov.
Proof.
  intros coords offsets l ov; unfold moveOverrides.
  match goal with
  | |- snd (fold_left ?f _ _) = _ -> _ =>
      assert (Hgen : forall l acc, snd (fold_left f l acc) = false ->
                                   snd acc = false /\ fst (fold_left f l acc) = fst acc)
  end.
  { clear l. induction l as [|k l IH]; intros [m ch] Hs; cbn in *; [now split|].
    destruct (JSMap.get offsets k).
    - apply IH in Hs. cbn in Hs. destruct Hs; discriminate.
    - apply IH in Hs. exact Hs. }
  intros Hs. apply Hgen in Hs. exact (proj2 Hs).
Qed.

(** A pointer-move that reaches the drag branch. *)
Lemma pointerMove_drag_branch :
  forall s dom e,
    isDraggingRef s = true ->
    mode s = DEFAULT ->
    isLayoutLocked s = false ->
    activeDragIds s <> JSSet.empty ->
    dragOverrides (fst (step s (PointerMove dom e)))
    = fst (moveOverrides (getPointerPosition dom e) (dragStartOffsets s)
                         (activeDragIds s) (dragOverrides s)).
Proof.
  intros s dom e Hd Hm Hl Ha; cbn -[moveOverrides]. unfold handlePointerMove.
  rewrite Hd, Hm, Hl; cbn -[moveOverrides].
  destruct (activeDragIds s) as [|k0 act] eqn:Eact; [now elim Ha|];
    cbn -[moveOverrides].
  match goal with
  | |- context [moveOverrides ?c ?o ?l ?v] =>
      pose proof (moveOverrides_unchanged c o l v) as Hun;
      destruct (moveOverrides c o l v) as [nov ch]
  end.
  destruct ch; cbn in *; [reflexivity | symmetry; now apply Hun].
Qed.

Lemma gesture_keeps_session :
  forall (evs : list (@Event num)) s A,
    Forall duringGesture evs ->
    activeDragIds s = A ->
    JSMap.keys (dragOverrides s) = A ->
    JSMap.keys (dragStartOffsets s) = A ->
    let s' := fst (run s evs) in
    activeDragIds s' = A /\
    JSMap.keys (dragOverrides s') = A /\
    JSMap.keys (dragStartOffsets s') = A.
Proof.
  induction evs as [|ev evs IH]; intros s A Hall Ha Ho Hf; [now repeat split|].
  inversion Hall as [|? ? Hev Hrest]; subst.
  cbv zeta. rewrite run_cons. apply IH; [exact Hrest | | | ].
  - destruct ev; try contradiction.
    + now destruct (pointerMove_drag s dom e) as [-> _].
    + now destruct (dragPart_fields _ _ _ _ _ _ (step_outside_drag s (Wheel deltaY) I))
        as [-> _].
    + now destruct (dragPart_fields _ _ _ _ _ _
                      (step_outside_drag s (KeyDown key activeTag) I)) as [-> _].
  - destruct ev; try contradiction.
    + destruct (pointerMove_drag s dom e) as [_ [_ [_ [_ [_ [_ [-> | ->]]]]]]];
        [exact Ho|].
      rewrite moveOverrides_keys; [exact Ho|]. rewrite Ho. apply incl_refl.
    + now destruct (dragPart_fields _ _ _ _ _ _ (step_outside_drag s (Wheel deltaY) I))
        as [_ [-> _]].
    + now destruct (dragPart_fields _ _ _ _ _ _
                      (step_outside_drag s (KeyDown key activeTag) I)) as [_ [-> _]].
  - destruct ev; try contradiction.
    + now destruct (pointerMove_drag s dom e) as [_ [-> _]].
    + now destruct (dragPart_fields _ _ _ _ _ _ (step_outside_drag s (Wheel deltaY) I))
        as [_ [_ [-> _]]].
    + now destruct (dragPart_fields _ _ _ _ _ _
                      (step_outside_drag s (KeyDown key activeTag) I)) as [_ [_ [-> _]]].
Qed.

(** Nor do they release the pointer, change the tool away from Default or
    toggle the layout lock. *)
Lemma gesture_keeps_tool :
  forall (evs : list (@Event num)) s,
    Forall duringGesture evs ->
    mode s = DEFAULT ->
    let s' := fst (run s evs) in
    isDraggingRef s' = isDraggingRef s /\
    mode s' = DEFAULT /\
    isLayoutLocked s' = isLayoutLocked s.
Proof.
  induction evs as [|ev evs IH]; intros s Hall Hm; [now repeat split|].
  inversion Hall as [|? ? Hev Hrest]; subst.
  cbv zeta. rewrite run_cons.
  assert (Hstep : isDraggingRef (fst (step s ev)) = isDraggingRef s /\
                  mode (fst (step s ev)) = DEFAULT /\
                  isLayoutLocked (fst (step s ev)) = isLayoutLocked s).
  { destruct ev; try contradiction; cbn.
    - unfold handlePointerMove. split_ifs; repeat split; assumption.
    - repeat split; assumption.
    - unfold handleKeyDown. split_ifs; repeat split; assumption. }
  destruct Hstep as [Hd [Hm' Hl]].
  destruct (IH (fst (step s ev)) Hrest Hm') as [Hd2 [Hm2 Hl2]].
  rewrite Hd2, Hl2. repeat split; assumption.
Qed.

(** With no commit pending, a change of the notes prop during the gesture
    leaves the session alone as well. *)
Lemma gesture_or_refresh_keeps_session :
  forall (evs : list (@Event num)) s A,
    Forall duringGestureOrRefresh evs ->
    dragCommitRef s = false ->
    activeDragIds s = A ->
    JSMap.keys (dragOverrides s) = A ->
    JSMap.keys (dragStartOffsets s) = A ->
    let s' := fst (run s evs) in
    activeDragIds s' = A /\
    JSMap.keys (dragOverrides s') = A /\
    JSMap.keys (dragStartOffsets s') = A.
Proof.
  induction evs as [|ev evs IH]; intros s A Hall Hc Ha Ho Hf; [now repeat split|].
  inversion Hall as [|? ? Hev Hrest]; subst.
  cbv zeta. rewrite run_cons.
  assert (Hstep : dragCommitRef (fst (step s ev)) = false /\
                  activeDragIds (fst (step s ev)) = activeDragIds s /\
                  JSMap.keys (dragOverrides (fst (step s ev))) = activeDragIds s /\
                  JSMap.keys (dragStartOffsets (fst (step s ev))) = activeDragIds s).
  { destruct ev as [| dom e | | d | | | key tag | | notes']; try contradiction.
    - destruct (pointerMove_drag s dom e) as [Ha' [Hf' [Hc' [_ [_ [_ Hov]]]]]].
      rewrite Ha', Hf', Hc'. repeat split; try assumption.
      destruct Hov as [-> | ->]; [exact Ho|].
      rewrite moveOverrides_keys; [exact Ho|]. rewrite Ho. apply incl_refl.
    - destruct (dragPart_fields _ _ _ _ _ _ (step_outside_drag s (Wheel d) I))
        as [-> [-> [-> [-> _]]]]. now repeat split.
    - destruct (dragPart_fields _ _ _ _ _ _ (step_outside_drag s (KeyDown key tag) I))
        as [-> [-> [-> [-> _]]]]. now repeat split.
    - destruct (receiveNotes_drag s notes') as [_ [_ Hno]].
      destruct (Hno Hc) as [-> [-> [-> ->]]]. now repeat split. }
  destruct Hstep as [Hc1 [Ha1 [Ho1 Hf1]]].
  apply IH; [exact Hrest | exact Hc1 | | | ]; congruence.
Qed.

End Session.

(** C7 (as amended).  A node press that opens a drag session (Default
    tool, layout not locked) leaves the override map, the start-offset map and the
    active-drag set holding the same identifiers, and they still hold
    exactly those identifiers after any sequence of pointer-moves (and
    wheel or key events) that follows while the pointer is down; when no
    commit was pending at the press, also after changes of the notes prop
    that arrive meanwhile.  A pointer-move of the drag branch puts each
    dragged identifier that has a start offset at pointer position minus
    offset and leaves every other entry of the override map as it was. *)
Theorem drag_session_sets_agree :
  forall {num : Type} `{Number num} (s : State num) dom e note,
    mode s = DEFAULT ->
    isLayoutLocked s = false ->
    let s1 := fst (step s (NodePointerDown dom e note)) in
    (JSMap.keys (dragOverrides s1) = activeDragIds s1 /\
     JSMap.keys (dragStartOffsets s1) = activeDragIds s1) /\
    (forall evs,
        Forall duringGesture evs ->
        let s2 := fst (run s1 evs) in
        activeDragIds s2 = activeDragIds s1 /\
        JSMap.keys (dragOverrides s2) = activeDragIds s1 /\
        JSMap.keys (dragStartOffsets s2) = activeDragIds s1) /\
    (dragCommitRef s = false ->
     forall evs,
       Forall duringGestureOrRefresh evs ->
       let s2 := fst (run s1 evs) in
       activeDragIds s2 = activeDragIds s1 /\
       JSMap.keys (dragOverrides s2) = activeDragIds s1 /\
       JSMap.keys (dragStartOffsets s2) = activeDragIds s1) /\
    (forall evs dom' e' k,
        Forall duringGesture evs ->
        activeDragIds s1 <> JSSet.empty ->
        let s2 := fst (run s1 evs) in
        let coords := getPointerPosition dom' e' in
        JSMap.get (dragOverrides (fst (step s2 (PointerMove dom' e')))) k
        = match (if JSSet.has (activeDragIds s2) k
                 then JSMap.get (dragStartOffsets s2) k else None) with
          | Some offset =>
              Some (mkPoint (nsub (px coords) (odx offset))
                            (nsub (py coords) (ody offset)))
          | None => JSMap.get (dragOverrides s2) k
          end).
Proof.
  intros num N s dom e note Hm Hl s1.
  assert (Hst : startsDrag s (NodePointerDown dom e note) = true).
  { cbn. rewrite Hm, Hl. reflexivity. }
  destruct (nodePointerDown_starts_drag s dom e note Hst)
    as [[Ho Hf] [_ [Hc1 [_ [Hm1 [Hl1 Hd1]]]]]].
  fold s1 in Ho, Hf, Hc1, Hm1, Hl1, Hd1.
  split; [now split|]. split; [|split].
  - intros evs Hall. now apply gesture_keeps_session.
  - intros Hc evs Hall.
    apply gesture_or_refresh_keeps_session; try assumption; try reflexivity.
    now rewrite Hc1.
  - intros evs dom' e' k Hall Hne s2 coords.
    destruct (gesture_keeps_session evs s1 _ Hall eq_refl Ho Hf) as [Ha2 _].
    destruct (gesture_keeps_tool evs s1 Hall) as [Hd2 [Hm2 Hl2]];
      [now rewrite Hm1|].
    fold s2 in Ha2, Hd2, Hm2, Hl2.
    rewrite pointerMove_drag_branch;
      [apply moveOverrides_get | now rewrite Hd2 | exact Hm2
      | now rewrite Hl2, Hl1 | now rewrite Ha2].
Qed.

(** [drag_session_sets_agree] at the press of [DragScene] followed by one
    move: the three parts of the session still hold exactly note [a]. *)
Lemma drag_session_sets_agree_witness :
  let s1 := DragScene.pressed in
  let s2 := fst (run s1 [PointerMove Scene.dom600 (Scene.at_ 140 130)]) in
  (activeDragIds s2 = activeDragIds s1 /\
   JSMap.keys (dragOverrides s2) = activeDragIds s1 /\
   JSMap.keys (dragStartOffsets s2) = activeDragIds s1) /\
  activeDragIds s1 = ["a"].
Proof.
  split; [|reflexivity].
  exact (proj1 (proj2 (@drag_session_sets_agree float _ (initialState [Scene.nA; Scene.nB])
                         Scene.dom600 (Scene.at_ 100 100) Scene.nA eq_refl eq_refl))
               [PointerMove Scene.dom600 (Scene.at_ 140 130)]
               (Forall_cons (PointerMove Scene.dom600 (Scene.at_ 140 130)) I
                            (Forall_nil _))).
Defined.

(** C7 (as stated) fails: the release of [DragScene] leaves its commit
    pending; a press on note [b] then opens a session in which the three
    containers hold [b]; when the notes list changes while [b] is still
    held, the effect that settles the earlier commit empties the override
    map and the active-drag set, and the start offsets still hold [b]. *)
Lemma refresh_during_drag_splits_session :
  ~ (forall (s : State float) dom e note (evs : list (@Event float)),
        mode s = DEFAULT ->
        isLayoutLocked s = false ->
        Forall duringGestureOrRefresh evs ->
        let s1 := fst (step s (NodePointerDown dom e note)) in
        let s2 := fst (run s1 evs) in
        activeDragIds s2 = activeDragIds s1 /\
        JSMap.keys (dragOverrides s2) = activeDragIds s1 /\
        JSMap.keys (dragStartOffsets s2) = activeDragIds s1) /\
  (let s := fst (step DragScene.dragged DragScene.release) in
   let s1 := fst (step s (NodePointerDown Scene.dom600 (Scene.at_ 300 100) Scene.nB)) in
   let s2 := fst (step s1 (NotesChanged [Scene.note "a" 140 130 []; Scene.nB])) in
   dragCommitRef s = true /\
   (activeDragIds s1 = ["b"] /\ JSMap.keys (dragOverrides s1) = ["b"] /\
    JSMap.keys (dragStartOffsets s1) = ["b"]) /\
   (activeDragIds s2 = [] /\ JSMap.keys (dragOverrides s2) = [] /\
    JSMap.keys (dragStartOffsets s2) = ["b"])).
Proof.
  split.
  - intros Hclaim.
    specialize (Hclaim (fst (step DragScene.dragged DragScene.release))
                  Scene.dom600 (Scene.at_ 300 100) Scene.nB
                  [NotesChanged [Scene.note "a" 140 130 []; Scene.nB]]
                  eq_refl eq_refl ltac:(repeat constructor)).
    destruct Hclaim as [Hact _]. vm_compute in Hact. discriminate.
  - repeat split; vm_compute; reflexivity.
Qed.


(** ** Commit and reconciliation *)

Section Commit.
Context {num : Type} `{Number num}.
Implicit Type s : State num.


Lemma dragged_nodes_are_rendered :
  forall s note pos,
    In note (notes s) ->
    JSMap.get (dragOverrides s) (id note) = Some pos ->
    In (mkNodeEl (id note) (px pos) (py pos) note) (nodeLayers s).
Proof.
  intros s note pos Hin Hget; unfold nodeLayers. apply in_or_app; right.
  unfold DynamicNodesLayer.
  destruct (dragOverrides s) as [|entry ov] eqn:Eov; [discriminate|].
  cbn [JSMap.size length Nat.eqb mounted].
  apply in_flat_map. exists note. split; [exact Hin|].
  rewrite Hget. now left.
Qed.





End Commit.





(** ** Click on a selected node *)

(** Outside a rubber-band release, pointer-up neither changes the selection
    nor opens the bulk menu. *)
Lemma pointerUp_keeps_selection :
  forall {num : Type} `{Number num} (s : State num) dom e,
    mode s <> SELECT \/ selectionBox s = None ->
    let s' := fst (step s (PointerUp dom e)) in
    selectedNodeIds s' = selectedNodeIds s /\
    selectionMenuPos s' = selectionMenuPos s.
Proof.
  intros num N s dom e Hno; cbn. unfold handlePointerUp.
  destruct Hno as [Hm | Hb].
  - destruct (mode s); try (now elim Hm); cbn; split_ifs; split; reflexivity.
  - rewrite Hb. destruct (ToolMode_eqb (mode s) SELECT); split_ifs; split; reflexivity.
Qed.

(** C8 at a concrete click.  Notes [a] and [b] are both selected and note
    [a] is pressed and released without moving.  [handleNodePointerUp]
    would, with Shift, remove [a] from the selection and, without Shift,
    open the bulk menu at the node's screen position (50, 50); the
    component as wired runs [handlePointerUp] instead, which leaves the
    selection at both notes and opens no menu.  The pointer has not moved,
    so [Math.hypot] is taken at zeros, where the language fixes its value:
    the statement holds whatever the implementation computes elsewhere. *)
Theorem node_click_logic_not_wired :
  forall approx : float -> float -> float,
    let handleNodePointerUp := @handleNodePointerUp float _ (float_Hypot approx) in
    (selectedNodeIds (fst (handleNodePointerUp (ClickScene.held (Scene.shift_at 100 100))
                             Scene.dom600 (Scene.shift_at 100 100) "a")) = ["b"] /\
     selectedNodeIds (fst (run ClickScene.s0 (ClickScene.click (Scene.shift_at 100 100))))
     = ["a"; "b"]) /\
    (selectionMenuPos (fst (handleNodePointerUp (ClickScene.held (Scene.at_ 100 100))
                              Scene.dom600 (Scene.at_ 100 100) "a"))
     = Some (mkPoint 50%float 50%float) /\
     selectionMenuPos (fst (run ClickScene.s0 (ClickScene.click (Scene.at_ 100 100))))
     = None).
Proof. intros approx; repeat split; vm_compute; reflexivity. Qed.

(** ** Edge de-duplication *)

Lemma unitRank_inj : forall c d, unitRank c = unitRank d -> c = d.
Proof.
  intros c d; unfold unitRank.
  pose proof (N_ascii_bounded c) as Hc. pose proof (N_ascii_bounded d) as Hd.
  intros Heq.
  rewrite <- (ascii_N_embedding c), <- (ascii_N_embedding d). f_equal.
  destruct (N.eqb_spec (N_of_ascii c) 238), (N.eqb_spec (N_of_ascii c) 239),
           (N.eqb_spec (N_of_ascii d) 238), (N.eqb_spec (N_of_ascii d) 239); lia.
Qed.

Lemma jsCompare_eq : forall a b, jsCompare a b = Eq -> a = b.
Proof.
  induction a as [|c a IH]; intros [|d b]; cbn; try discriminate; [reflexivity|].
  destruct (N.compare (unitRank c) (unitRank d)) eqn:E; try discriminate.
  intros Hab. apply N.compare_eq in E. apply unitRank_inj in E.
  now rewrite E, (IH b Hab).
Qed.

Lemma jsCompare_antisym : forall a b, jsCompare b a = CompOpp (jsCompare a b).
Proof.
  induction a as [|c a IH]; intros [|d b]; cbn; try reflexivity.
  rewrite (N.compare_antisym (unitRank c) (unitRank d)).
  destruct (N.compare (unitRank c) (unitRank d)); cbn; [apply IH | reflexivity..].
Qed.

(** U+1F600 (bytes F0 9F 98 80, code units D83D DE00) is below U+FF5E
    (bytes EF BD 9E, code unit FF5E) in JavaScript, though its encoding is
    the greater one byte by byte. *)
Lemma jsLtb_orders_code_units :
  let grin := utf8 [240; 159; 152; 128]%nat in
  let tilde := utf8 [239; 189; 158]%nat in
  jsLtb grin tilde = true /\ String.ltb grin tilde = false /\
  getLinkKey tilde grin = (grin ++ "-" ++ tilde)%string.
Proof. repeat split. Qed.

(** [jsLtb] at the borders of the encodings: U+10000 (D800 DC00) against
    U+E000 and U+D7FF, U+10FFFF (DBFF DFFF) against U+FFFF, U+00E9 against
    [z], a prefix against its extension, and a string against itself. *)
Lemma jsLtb_at_borders :
  jsLtb (utf8 [240; 144; 128; 128]%nat) (utf8 [238; 128; 128]%nat) = true /\
  jsLtb (utf8 [238; 128; 128]%nat) (utf8 [240; 144; 128; 128]%nat) = false /\
  jsLtb (utf8 [237; 159; 191]%nat) (utf8 [240; 144; 128; 128]%nat) = true /\
  jsLtb (utf8 [244; 143; 191; 191]%nat) (utf8 [239; 191; 191]%nat) = true /\
  jsLtb "z" (utf8 [195; 169]%nat) = true /\
  jsLtb "a" "ab" = true /\ jsLtb "b" "ab" = false /\ jsLtb "ab" "ab" = false.
Proof. repeat split. Qed.

(** *** [jsCompare] is the code-unit order

    The bytes are compared through [unitRank]; the code units they stand
    for compare the same way, for every two strings of scalar values. *)

Lemma unitRank_byte : forall n, (n < 256)%N -> unitRank (ascii_of_N n) = byteRank n.
Proof. intros n Hn. unfold unitRank, byteRank. now rewrite N_ascii_embedding. Qed.

Lemma jsCompare_bytes :
  forall u v,
    Forall (fun n => (n < 256)%N) u -> Forall (fun n => (n < 256)%N) v ->
    jsCompare (string_of_list_ascii (map ascii_of_N u))
              (string_of_list_ascii (map ascii_of_N v))
    = bytesCompare u v.
Proof.
  induction u as [|a u IH]; intros [|b v] Hu Hv; cbn; try reflexivity.
  inversion Hu; inversion Hv; subst.
  rewrite !unitRank_byte by assumption.
  destruct (byteRank a ?= byteRank b)%N; [now apply IH | reflexivity..].
Qed.

Lemma byteRank_other : forall n, n <> 238%N -> n <> 239%N -> byteRank n = (4 * n)%N.
Proof.
  intros n H1 H2. unfold byteRank.
  destruct (N.eqb_spec n 238); [contradiction|].
  destruct (N.eqb_spec n 239); [contradiction|]. reflexivity.
Qed.

Lemma byteRank_lead3 :
  forall h, (h < 16)%N ->
    byteRank (224 + h) = if (h =? 14)%N then 977%N
                         else if (h =? 15)%N then 978%N else (4 * (224 + h))%N.
Proof.
  intros h Hh. unfold byteRank.
  destruct (N.eqb_spec (224 + h) 238), (N.eqb_spec h 14); try lia; try reflexivity.
  destruct (N.eqb_spec (224 + h) 239), (N.eqb_spec h 15); try lia; reflexivity.
Qed.

Lemma encode8_bytes : forall c, wellFormed c -> Forall (fun n => (n < 256)%N) (encode8 c).
Proof.
  intros [a | h l | h m l | h a mh ml l]; cbn [encode8 wellFormed]; intros Hwf;
    repeat (apply Forall_cons; [lia|]); apply Forall_nil.
Qed.

(** One scalar value in front of each string: the two comparisons agree on
    the longer strings when they agree on the rest. *)
Lemma scalar_step :
  forall c d t1 t2 u1 u2,
    wellFormed c -> wellFormed d ->
    bytesCompare t1 t2 = unitsCompare u1 u2 ->
    bytesCompare (encode8 c ++ t1) (encode8 d ++ t2)
    = unitsCompare (encode16 c ++ u1) (encode16 d ++ u2).
Proof.
  intros [a | h l | h m l | h a mh ml l] [a' | h' l' | h' m' l' | h' a' mh' ml' l']
         t1 t2 u1 u2 Hc Hd IH;
    cbn [wellFormed] in Hc, Hd;
    cbn [encode8 encode16 codePoint app bytesCompare unitsCompare];
    rewrite ?byteRank_lead3 by lia;
    rewrite ?byteRank_other by lia;
    split_compare; try lia; try reflexivity; try exact IH.
Qed.

Lemma scalarOf_wellFormed : forall n, isScalarValue n -> wellFormed (scalarOf n).
Proof.
  intros n Hn. unfold isScalarValue in Hn. unfold scalarOf.
  destruct (N.ltb_spec n 128) as [H1 | H1]; [exact H1|].
  destruct (N.ltb_spec n 2048); [cbn [wellFormed]; euclid|].
  destruct (N.ltb_spec n 65536); cbn [wellFormed]; repeat split; euclid.
Qed.

Lemma scalarOf_codePoint : forall n, codePoint (scalarOf n) = n.
Proof.
  intros n. unfold scalarOf.
  destruct (N.ltb_spec n 128); [reflexivity|].
  destruct (N.ltb_spec n 2048); [cbn [codePoint]; euclid|].
  destruct (N.ltb_spec n 65536); cbn [codePoint]; euclid.
Qed.

Lemma scalarOf_utf8 : forall n, encode8 (scalarOf n) = utf8Bytes n.
Proof.
  intros n. unfold scalarOf, utf8Bytes.
  destruct (N.ltb_spec n 128); [reflexivity|].
  destruct (N.ltb_spec n 2048); [reflexivity|].
  destruct (N.ltb_spec n 65536); [reflexivity|].
  cbn [encode8].
  replace (16 * ((n / 1024) mod 4) + (n / 64) mod 16)%N with ((n / 64) mod 64)%N
    by euclid.
  reflexivity.
Qed.

Lemma scalarOf_utf16 : forall n, (n < 1114112)%N -> encode16 (scalarOf n) = utf16Units n.
Proof.
  intros n Hn. unfold scalarOf, utf16Units.
  destruct (N.ltb_spec n 65536) as [Hbmp | Hsupp].
  - destruct (N.ltb_spec n 128); [reflexivity|].
    destruct (N.ltb_spec n 2048); cbn [encode16 codePoint]; f_equal; euclid.
  - destruct (N.ltb_spec n 128); [lia|].
    destruct (N.ltb_spec n 2048); [lia|].
    cbn [encode16]. f_equal; [|f_equal]; euclid.
Qed.

Lemma jsString_bytes :
  forall a, Forall isScalarValue a ->
    Forall (fun n => (n < 256)%N) (flat_map utf8Bytes a).
Proof.
  intros a Ha. apply Forall_flat_map. eapply Forall_impl; [|exact Ha].
  intros n Hn. rewrite <- scalarOf_utf8. apply encode8_bytes, scalarOf_wellFormed, Hn.
Qed.

(** On strings of scalar values, [jsCompare] of the UTF-8 encodings is the
    comparison of the UTF-16 code units, which is the one JavaScript's [<]
    makes. *)
Theorem jsCompare_is_code_unit_order :
  forall a b,
    Forall isScalarValue a -> Forall isScalarValue b ->
    jsCompare (jsString a) (jsString b)
    = unitsCompare (flat_map utf16Units a) (flat_map utf16Units b).
Proof.
  intros a b Ha Hb. unfold jsString.
  rewrite jsCompare_bytes by (apply jsString_bytes; assumption).
  revert b Hb. induction Ha as [|c a Hc Ha IH]; intros b Hb.
  - destruct Hb as [|d b Hd Hb]; [reflexivity|].
    cbn [flat_map]. rewrite <- scalarOf_utf8.
    rewrite <- scalarOf_utf16 by (destruct Hd; lia).
    destruct (scalarOf d); reflexivity.
  - destruct Hb as [|d b Hd Hb].
    + cbn [flat_map]. rewrite <- scalarOf_utf8.
      rewrite <- scalarOf_utf16 by (destruct Hc; lia).
      destruct (scalarOf c); reflexivity.
    + cbn [flat_map]. rewrite <- !scalarOf_utf8.
      rewrite <- !scalarOf_utf16 by (destruct Hc, Hd; lia).
      apply scalar_step; auto using scalarOf_wellFormed.
Qed.

(** [a < b] in JavaScript, for the two orders of the arguments
    [getLinkKey] can be called with. *)
Corollary jsLtb_is_code_unit_order :
  forall a b,
    Forall isScalarValue a -> Forall isScalarValue b ->
    jsLtb (jsString a) (jsString b)
    = match unitsCompare (flat_map utf16Units a) (flat_map utf16Units b) with
      | Lt => true
      | _ => false
      end.
Proof.
  intros a b Ha Hb. unfold jsLtb. now rewrite jsCompare_is_code_unit_order.
Qed.

(** The encodings on U+1F600, U+FF5E and U+00E9. *)
Lemma encodings_examples :
  utf8Bytes 128512 = [240; 159; 152; 128]%N /\
  utf16Units 128512 = [55357; 56832]%N /\
  utf8Bytes 65374 = [239; 189; 158]%N /\ utf16Units 65374 = [65374]%N /\
  utf8Bytes 233 = [195; 169]%N /\ utf16Units 233 = [233]%N /\
  jsString [128512; 65374]%N = utf8 [240; 159; 152; 128; 239; 189; 158]%nat.
Proof. repeat split. Qed.

Lemma getLinkKey_sym : forall a b, getLinkKey a b = getLinkKey b a.
Proof.
  intros a b; unfold getLinkKey, jsLtb.
  rewrite (jsCompare_antisym a b).
  destruct (jsCompare a b) eqn:E; cbn; try reflexivity.
  apply jsCompare_eq in E. now subst.
Qed.

Lemma append_inj_length :
  forall a c b d : string,
    String.length a = String.length c -> (a ++ b)%string = (c ++ d)%string ->
    a = c /\ b = d.
Proof.
  induction a as [|ch a IH]; intros [|ch' c] b d Hlen Heq; cbn in *;
    try discriminate.
  - now split.
  - injection Hlen as Hlen. injection Heq as -> Heq.
    destruct (IH c b d Hlen Heq) as [-> ->]. now split.
Qed.

Section EdgeLoops.
Context {num : Type} `{Number num}.
Variable notes0 : list (Note num).
Variable act : JSSet.t.
Variable ov : JSMap.t (Point num).

Lemma NoDup_snoc : forall (l : list string) k, NoDup l -> ~ In k l -> NoDup (l ++ [k]).
Proof.
  intros l k Hnd Hk. apply NoDup_app; [exact Hnd | repeat constructor; intros [] |].
  intros a Ha [<- | []]. contradiction.
Qed.

Lemma staticEdge_inv :
  forall P processed els (p : Note num * string),
    staticInv notes0 act P processed els ->
    staticInv notes0 act (P ++ [p])
      (fst (staticEdge notes0 act (fst p) (processed, els) (snd p)))
      (snd (staticEdge notes0 act (fst p) (processed, els) (snd p))).
Proof.
  intros P processed els p [H1 [H2 [H3 H4]]]; unfold staticEdge.
  change (getLinkKey (id (fst p)) (snd p)) with (pairKey p).
  assert (Hold1 : forall el, In el els ->
            exists q, In q (P ++ [p]) /\ pushedFor el q /\ dragging act q = false).
  { intros el Hin. destruct (H1 el Hin) as [_ [q [Hq Hr]]].
    exists q. split; [apply in_or_app; now left | exact Hr]. }
  destruct (JSSet.has processed (pairKey p)) eqn:Ehas; cbn [fst snd].
  - apply JSSet_has_In in Ehas.
    split; [intros el Hin; split | split; [|split]].
    + now apply H1.
    + now apply Hold1.
    + exact H2.
    + intros q Hq. apply in_app_or in Hq. destruct Hq as [Hq | [<- | []]]; auto.
    + intros k Hk. destruct (H4 k Hk) as [q [Hq Hr]].
      exists q. split; [apply in_or_app; now left | exact Hr].
  - apply JSSet_has_false in Ehas.
    assert (Hp3 : forall q, In q (P ++ [p]) -> In (pairKey q) (JSSet.add processed (pairKey p))).
    { intros q Hq. apply JSSet_add_In. apply in_app_or in Hq.
      destruct Hq as [Hq | [<- | []]]; auto. }
    assert (Hfresh : ~ In (pairKey p) (map ekey els)).
    { intros Hin. apply in_map_iff in Hin. destruct Hin as [el [Hk Hin]].
      apply Ehas. rewrite <- Hk. now apply H1. }
    assert (Hold4 : forall k, In k processed ->
              exists q, In q (P ++ [p]) /\ k = pairKey q /\
                (findNote notes0 (snd q) <> None -> dragging act q = false ->
                 exists el, In el els /\ ekey el = k)).
    { intros k Hk. destruct (H4 k Hk) as [q [Hq Hr]].
      exists q. split; [apply in_or_app; now left | exact Hr]. }
    destruct (findNote notes0 (snd p)) as [target|] eqn:Ef.
    + pose proof (findNote_id _ _ _ Ef) as Hid. rewrite Hid.
      fold (dragging act p).
      destruct (dragging act p) eqn:Edrag; cbn [fst snd].
      * split; [intros el Hin; split | split; [|split]].
        -- apply JSSet_add_In. left. now apply H1.
        -- now apply Hold1.
        -- exact H2.
        -- exact Hp3.
        -- intros k Hk. apply JSSet_add_In in Hk. destruct Hk as [Hk | ->].
           ++ now apply Hold4.
           ++ exists p. split; [apply in_or_app; right; now left|].
              split; [reflexivity|]. intros _ Hd. congruence.
      * split; [intros el Hin; split | split; [|split]].
        -- apply JSSet_add_In. apply in_app_or in Hin.
           destruct Hin as [Hin | [<- | []]]; [left; now apply H1 | now right].
        -- apply in_app_or in Hin.
           destruct Hin as [Hin | [<- | []]]; [now apply Hold1|].
           exists p. split; [apply in_or_app; right; now left|].
           split; [now repeat split | exact Edrag].
        -- rewrite map_app; cbn. now apply NoDup_snoc.
        -- exact Hp3.
        -- intros k Hk. apply JSSet_add_In in Hk. destruct Hk as [Hk | ->].
           ++ destruct (Hold4 k Hk) as [q [Hq [Hkq Hc]]].
              exists q. split; [exact Hq|]. split; [exact Hkq|].
              intros Hf Hd. destruct (Hc Hf Hd) as [el [Hin Hel]].
              exists el. split; [apply in_or_app; now left | exact Hel].
           ++ exists p. split; [apply in_or_app; right; now left|].
              split; [reflexivity|]. intros _ _.
              eexists. split; [apply in_or_app; right; now left | reflexivity].
    + cbn [fst snd]. split; [intros el Hin; split | split; [|split]].
      * apply JSSet_add_In. left. now apply H1.
      * now apply Hold1.
      * exact H2.
      * exact Hp3.
      * intros k Hk. apply JSSet_add_In in Hk. destruct Hk as [Hk | ->].
        -- now apply Hold4.
        -- exists p. split; [apply in_or_app; right; now left|].
           split; [reflexivity|]. intros Hf _. congruence.
Qed.

Lemma dynamicEdge_inv :
  forall P processed els (p : Note num * string),
    dynamicInv notes0 act P processed els ->
    dynamicInv notes0 act (P ++ [p])
      (fst (dynamicEdge notes0 ov act (fst p) (processed, els) (snd p)))
      (snd (dynamicEdge notes0 ov act (fst p) (processed, els) (snd p))).
Proof.
  intros P processed els p [H1 [H2 [H3 H4]]]; unfold dynamicEdge.
  change (getLinkKey (id (fst p)) (snd p)) with (pairKey p).
  assert (Hold1 : forall el, In el els ->
            exists q, In q (P ++ [p]) /\ pushedFor el q /\ dragging act q = true).
  { intros el Hin. destruct (H1 el Hin) as [_ [q [Hq Hr]]].
    exists q. split; [apply in_or_app; now left | exact Hr]. }
  assert (Hskip : (findNote notes0 (snd p) = None \/ dragging act p = false
                   \/ In (pairKey p) processed) ->
                  dynamicInv notes0 act (P ++ [p]) processed els).
  { intros Hwhy. split; [intros el Hin; split | split; [|split]].
    - now apply H1.
    - now apply Hold1.
    - exact H2.
    - intros q Hq Hf Hd. apply in_app_or in Hq.
      destruct Hq as [Hq | [<- | []]]; [now apply H3|].
      destruct Hwhy as [Hn | [Hn | Hn]]; [congruence | congruence | exact Hn].
    - exact H4. }
  destruct (findNote notes0 (snd p)) as [target|] eqn:Ef; cbn [fst snd];
    [|apply Hskip; now left].
  replace (negb (JSSet.has act (id (fst p))) && negb (JSSet.has act (snd p)))
    with (negb (dragging act p))
    by (unfold dragging; now rewrite negb_orb).
  destruct (dragging act p) eqn:Edrag; cbn [negb fst snd];
    [|apply Hskip; right; now left].
  destruct (JSSet.has processed (pairKey p)) eqn:Ehas; cbn [fst snd].
  { apply Hskip. right; right. now apply JSSet_has_In. }
  apply JSSet_has_false in Ehas.
  assert (Hfresh : ~ In (pairKey p) (map ekey els)).
  { intros Hin. apply in_map_iff in Hin. destruct Hin as [el [Hk Hin]].
    apply Ehas. rewrite <- Hk. now apply H1. }
  split; [intros el Hin; split | split; [|split]].
  - apply JSSet_add_In. apply in_app_or in Hin.
    destruct Hin as [Hin | [<- | []]]; [left; now apply H1 | now right].
  - apply in_app_or in Hin.
    destruct Hin as [Hin | [<- | []]]; [now apply Hold1|].
    exists p. split; [apply in_or_app; right; now left|].
    split; [now repeat split | exact Edrag].
  - rewrite map_app; cbn. now apply NoDup_snoc.
  - intros q Hq Hf Hd. apply JSSet_add_In. apply in_app_or in Hq.
    destruct Hq as [Hq | [<- | []]]; [left; now apply H3 | now right].
  - intros k Hk. apply JSSet_add_In in Hk. destruct Hk as [Hk | ->].
    + destruct (H4 k Hk) as [el [Hin Hel]].
      exists el. split; [apply in_or_app; now left | exact Hel].
    + eexists. split; [apply in_or_app; right; now left | reflexivity].
Qed.

(** The nested [forEach] visits [linkPairs] in order. *)
Lemma fold_linkPairs :
  forall (A : Type) (f : Note num -> A -> string -> A) (l : list (Note num)) (acc : A),
    fold_left (fun acc source => fold_left (f source) (links source) acc) l acc
    = fold_left (fun acc p => f (fst p) acc (snd p)) (linkPairs l) acc.
Proof.
  intros A f l. induction l as [|source l IH]; intros acc; cbn; [reflexivity|].
  rewrite fold_left_app, IH. f_equal.
  generalize (links source) acc. clear.
  induction l as [|t l IH]; intros acc; cbn; [reflexivity | apply IH].
Qed.

Lemma static_loop_inv :
  forall L P acc,
    staticInv notes0 act P (fst acc) (snd acc) ->
    let r := fold_left (fun acc p => staticEdge notes0 act (fst p) acc (snd p)) L acc in
    staticInv notes0 act (P ++ L) (fst r) (snd r).
Proof.
  induction L as [|p L IH]; intros P [processed els] Hinv; cbn -[staticEdge].
  - now rewrite app_nil_r.
  - change (P ++ p :: L) with (P ++ [p] ++ L). rewrite app_assoc.
    apply IH. now apply staticEdge_inv.
Qed.

Lemma dynamic_loop_inv :
  forall L P acc,
    dynamicInv notes0 act P (fst acc) (snd acc) ->
    let r := fold_left (fun acc p => dynamicEdge notes0 ov act (fst p) acc (snd p)) L acc in
    dynamicInv notes0 act (P ++ L) (fst r) (snd r).
Proof.
  induction L as [|p L IH]; intros P [processed els] Hinv; cbn -[dynamicEdge].
  - now rewrite app_nil_r.
  - change (P ++ p :: L) with (P ++ [p] ++ L). rewrite app_assoc.
    apply IH. now apply dynamicEdge_inv.
Qed.

Lemma StaticConnectionsLayer_inv :
  exists processed,
    staticInv notes0 act (linkPairs notes0) processed (StaticConnectionsLayer notes0 act).
Proof.
  unfold StaticConnectionsLayer.
  rewrite (fold_linkPairs _ (staticEdge notes0 act)).
  eexists. apply (static_loop_inv (linkPairs notes0) [] (JSSet.empty, [])).
  split; [intros el [] | split; [constructor | split; [intros p [] | intros k []]]].
Qed.

Lemma DynamicConnectionsLayer_inv :
  act <> JSSet.empty ->
  exists processed els,
    DynamicConnectionsLayer notes0 ov act = Some els /\
    dynamicInv notes0 act (linkPairs notes0) processed els.
Proof.
  intros Hact; unfold DynamicConnectionsLayer.
  assert (Hsize : Nat.eqb (JSSet.size act) 0 = false).
  { unfold JSSet.size. destruct (length act) eqn:E; [|reflexivity].
    apply length_zero_iff_nil in E. contradiction. }
  rewrite Hsize, (fold_linkPairs _ (dynamicEdge notes0 ov act)).
  eexists. eexists. split; [reflexivity|].
  apply (dynamic_loop_inv (linkPairs notes0) [] (JSSet.empty, [])).
  split; [intros el [] | split; [constructor | split; [intros p [] | intros k []]]].
Qed.

Lemma linkPairs_In :
  forall (l : list (Note num)) p,
    In p (linkPairs l) <-> In (fst p) l /\ In (snd p) (links (fst p)).
Proof.
  intros l [source t]; unfold linkPairs; rewrite in_flat_map; cbn. split.
  - intros [n [Hn Hin]]. apply in_map_iff in Hin.
    destruct Hin as [t' [[= -> ->] Ht]]. now split.
  - intros [Hn Ht]. exists source. split; [exact Hn|].
    apply in_map_iff. now exists t.
Qed.

Lemma linkPairs_identifiers :
  forall p, In p (linkPairs notes0) ->
            In (id (fst p)) (identifiers notes0) /\ In (snd p) (identifiers notes0).
Proof.
  intros p Hp. apply linkPairs_In in Hp. destruct Hp as [Hn Ht].
  unfold identifiers. split; apply in_flat_map; exists (fst p);
    (split; [exact Hn|]); [now left | now right].
Qed.

Lemma isEntity_found : forall A, isEntity notes0 A -> findNote notes0 A <> None.
Proof.
  intros A [n [Hn <-]] Hf. pose proof (find_none _ _ Hf n Hn) as Hk. cbn in Hk.
  rewrite String.eqb_refl in Hk. discriminate.
Qed.

Lemma find_snoc :
  forall (T : Type) (f : T -> bool) (l : list T) (a : T),
    find f (l ++ [a]) = match find f l with
                        | Some b => Some b
                        | None => if f a then Some a else None
                        end.
Proof.
  intros T f l a. induction l as [|b l IH]; cbn; [reflexivity|].
  destruct (f b); [reflexivity | exact IH].
Qed.

Lemma find_refined :
  forall (T : Type) (f g : T -> bool) (l : list T) (a : T),
    find f l = Some a -> g a = true -> find (fun b => f b && g b) l = Some a.
Proof.
  intros T f g l a. induction l as [|b l IH]; cbn; [discriminate|].
  destruct (f b) eqn:Fb; cbn.
  - intros [= ->] Hg. now rewrite Hg.
  - exact IH.
Qed.

Lemma linkJoins_true :
  forall X Y (p : Note num * string),
    linkJoins X Y p = true <->
    (id (fst p) = X /\ snd p = Y) \/ (id (fst p) = Y /\ snd p = X).
Proof.
  intros X Y p; unfold linkJoins.
  rewrite orb_true_iff, !andb_true_iff, !String.eqb_eq. reflexivity.
Qed.

Lemma edgesBetween_snoc :
  forall X Y (els : list (EdgeEl num)) el,
    length (edgesBetween X Y (els ++ [el]))
    = (length (edgesBetween X Y els) + if joins X Y el then 1 else 0)%nat.
Proof.
  intros X Y els el; unfold edgesBetween. rewrite filter_app, length_app; cbn.
  destruct (joins X Y el); reflexivity.
Qed.

Section Counting.
Variables A B : string.

Lemma linkJoins_key :
  forall p : Note num * string, linkJoins A B p = true -> hasKey A B p = true.
Proof.
  intros p Hj. apply linkJoins_true in Hj. unfold hasKey, pairKey.
  apply String.eqb_eq.
  destruct Hj as [[-> ->] | [-> ->]]; [reflexivity | apply getLinkKey_sym].
Qed.

Lemma linkJoins_dragging :
  forall p : Note num * string,
    linkJoins A B p = true ->
    dragging act p = JSSet.has act A || JSSet.has act B.
Proof.
  intros p Hj. apply linkJoins_true in Hj. unfold dragging.
  destruct Hj as [[-> ->] | [-> ->]]; [reflexivity | apply orb_comm].
Qed.

(** Whether the key was processed, and how many pushed elements join [A]
    and [B], after one more link. *)
Lemma key_step :
  forall (pred : Note num * string -> bool) (P : list (Note num * string))
         (processed : JSSet.t) (p : Note num * string),
    (In (getLinkKey A B) processed <-> find pred P <> None) ->
    ~ In (pairKey p) processed ->
    pred p = hasKey A B p ->
    (In (getLinkKey A B) (JSSet.add processed (pairKey p)) <->
     match find pred P with
     | Some b => Some b
     | None => if pred p then Some p else None
     end <> None) /\
    (hasKey A B p = true -> find pred P = None) /\
    (hasKey A B p = false -> linkJoins A B p = false).
Proof.
  intros pred P processed p Hproc Hnew Hpred.
  rewrite JSSet_add_In, Hpred.
  destruct (hasKey A B p) eqn:Ek.
  - pose proof Ek as Ek'. unfold hasKey in Ek'. apply String.eqb_eq in Ek'.
    assert (Hnone : find pred P = None).
    { destruct (find pred P) eqn:Efind; [|reflexivity].
      exfalso. apply Hnew. rewrite Ek'. apply Hproc. discriminate. }
    rewrite Hnone. repeat split; try discriminate.
    intros _. right. now rewrite Ek'.
  - assert (Hne : (getLinkKey A B) <> pairKey p).
    { intros Heq. unfold hasKey in Ek. apply String.eqb_neq in Ek. now apply Ek. }
    split; [|split; [discriminate|]].
    + destruct (find pred P);
        (split; [intros [Hin | Heq]; [now apply Hproc | contradiction]
                | intros Hf; left; now apply Hproc]).
    + intros _. destruct (linkJoins A B p) eqn:Ej; [|reflexivity].
      apply linkJoins_key in Ej. congruence.
Qed.

(** A link that is skipped because its key was processed. *)
Lemma key_skip :
  forall (pred : Note num * string -> bool) (P : list (Note num * string))
         (processed : JSSet.t) (p : Note num * string),
    (In (getLinkKey A B) processed <-> find pred P <> None) ->
    (pred p = true -> hasKey A B p = true) ->
    pred p = false \/ In (pairKey p) processed ->
    match find pred P with
    | Some b => Some b
    | None => if pred p then Some p else None
    end = find pred P.
Proof.
  intros pred P processed p Hproc Hpred Hwhy.
  destruct (find pred P) as [q|] eqn:Efind; [reflexivity|].
  destruct (pred p) eqn:El; [|reflexivity].
  destruct Hwhy as [Hf | Hin]; [discriminate|].
  specialize (Hpred eq_refl). unfold hasKey in Hpred. apply String.eqb_eq in Hpred.
  rewrite Hpred in Hin. apply Hproc in Hin. now elim Hin.
Qed.

Lemma staticEdge_keyInv :
  forall P processed els (p : Note num * string),
    staticKeyInv notes0 act A B P processed els ->
    staticKeyInv notes0 act A B (P ++ [p])
      (fst (staticEdge notes0 act (fst p) (processed, els) (snd p)))
      (snd (staticEdge notes0 act (fst p) (processed, els) (snd p))).
Proof.
  intros P processed els p [Hproc Hcount]; unfold staticEdge, staticKeyInv.
  change (getLinkKey (id (fst p)) (snd p)) with (pairKey p).
  rewrite find_snoc.
  destruct (JSSet.has processed (pairKey p)) eqn:Ehas; cbn [fst snd].
  - apply JSSet_has_In in Ehas.
    rewrite (key_skip (hasKey A B) P processed p Hproc (fun E => E) (or_intror Ehas)).
    now split.
  - apply JSSet_has_false in Ehas.
    destruct (key_step (hasKey A B) P processed p Hproc Ehas eq_refl)
      as [Hproc' [Hfirst Hother]].
    assert (Hgoal :
      forall (els' : list (EdgeEl num)),
        length (edgesBetween A B els')
        = (length (edgesBetween A B els)
           + if linkJoins A B p && targetFound notes0 p && negb (dragging act p)
             then 1 else 0)%nat ->
        length (edgesBetween A B els')
        = staticCount notes0 act A B
            match find (hasKey A B) P with
            | Some b => Some b
            | None => if hasKey A B p then Some p else None
            end).
    { intros els' Hels. rewrite Hels, Hcount.
      destruct (hasKey A B p) eqn:Ek.
      - rewrite (Hfirst eq_refl). reflexivity.
      - rewrite (Hother eq_refl); cbn [andb]. rewrite Nat.add_0_r.
        destruct (find (hasKey A B) P); reflexivity. }
    unfold targetFound, dragging in Hgoal.
    destruct (findNote notes0 (snd p)) as [target|] eqn:Ef; cbn [fst snd].
    + rewrite (findNote_id _ _ _ Ef).
      destruct (JSSet.has act (id (fst p)) || JSSet.has act (snd p)) eqn:Ed;
        cbn [fst snd negb]; (split; [exact Hproc'|]); apply Hgoal.
      * rewrite andb_false_r. lia.
      * rewrite edgesBetween_snoc, !andb_true_r. reflexivity.
    + split; [exact Hproc'|]. apply Hgoal. rewrite andb_false_r. cbn. lia.
Qed.

Lemma static_loop_keyInv :
  forall L P acc,
    staticKeyInv notes0 act A B P (fst acc) (snd acc) ->
    let r := fold_left (fun acc p => staticEdge notes0 act (fst p) acc (snd p)) L acc in
    staticKeyInv notes0 act A B (P ++ L) (fst r) (snd r).
Proof.
  induction L as [|p L IH]; intros P [processed els] Hinv; cbn -[staticEdge].
  - now rewrite app_nil_r.
  - change (P ++ p :: L) with (P ++ [p] ++ L). rewrite app_assoc.
    apply IH. now apply staticEdge_keyInv.
Qed.

Lemma static_count :
  length (edgesBetween A B (StaticConnectionsLayer notes0 act))
  = staticCount notes0 act A B (firstWithKey notes0 A B).
Proof.
  unfold StaticConnectionsLayer, firstWithKey.
  rewrite (fold_linkPairs _ (staticEdge notes0 act)).
  apply (static_loop_keyInv (linkPairs notes0) [] (JSSet.empty, [])).
  split; [|reflexivity]. split; [intros [] | intros Hf; now elim Hf].
Qed.

Lemma dynamicEdge_keyInv :
  forall P processed els (p : Note num * string),
    dynamicKeyInv notes0 act A B P processed els ->
    dynamicKeyInv notes0 act A B (P ++ [p])
      (fst (dynamicEdge notes0 ov act (fst p) (processed, els) (snd p)))
      (snd (dynamicEdge notes0 ov act (fst p) (processed, els) (snd p))).
Proof.
  intros P processed els p [Hproc Hcount]; unfold dynamicEdge, dynamicKeyInv.
  change (getLinkKey (id (fst p)) (snd p)) with (pairKey p).
  rewrite find_snoc.
  assert (Hel : eligible notes0 act A B p = true -> hasKey A B p = true).
  { unfold eligible. intros E. apply andb_true_iff in E. tauto. }
  assert (Hskip : eligible notes0 act A B p = false \/ In (pairKey p) processed ->
                  dynamicKeyInv notes0 act A B P processed els ->
                  (In (getLinkKey A B) processed <->
                   match find (eligible notes0 act A B) P with
                   | Some b => Some b
                   | None => if eligible notes0 act A B p then Some p else None
                   end <> None) /\
                  length (edgesBetween A B els)
                  = dynamicCount A B
                      match find (eligible notes0 act A B) P with
                      | Some b => Some b
                      | None => if eligible notes0 act A B p then Some p else None
                      end).
  { intros Hwhy _.
    rewrite (key_skip (eligible notes0 act A B) P processed p Hproc Hel Hwhy).
    now split. }
  specialize (fun W => Hskip W (conj Hproc Hcount)).
  assert (Hfound : findNote notes0 (snd p) = None -> eligible notes0 act A B p = false).
  { intros Ef. unfold eligible, targetFound. rewrite Ef. now rewrite andb_false_r. }
  assert (Hdrag : dragging act p = false -> eligible notes0 act A B p = false).
  { intros Ed. unfold eligible. rewrite Ed. now rewrite !andb_false_r. }
  assert (Hboth : forall target, findNote notes0 (snd p) = Some target ->
                    dragging act p = true ->
                    eligible notes0 act A B p = hasKey A B p).
  { intros target Ef Ed. unfold eligible, targetFound. rewrite Ef, Ed.
    now rewrite andb_true_r. }
  destruct (findNote notes0 (snd p)) as [target|] eqn:Ef; cbn [fst snd];
    [|apply Hskip; left; now apply Hfound].
  replace (negb (JSSet.has act (id (fst p))) && negb (JSSet.has act (snd p)))
    with (negb (dragging act p))
    by (unfold dragging; now rewrite negb_orb).
  destruct (dragging act p) eqn:Edrag; cbn [negb fst snd];
    [|apply Hskip; left; now apply Hdrag].
  destruct (JSSet.has processed (pairKey p)) eqn:Ehas; cbn [fst snd].
  { apply Hskip. right. now apply JSSet_has_In. }
  apply JSSet_has_false in Ehas.
  destruct (key_step (eligible notes0 act A B) P processed p Hproc Ehas
              (Hboth target eq_refl eq_refl)) as [Hproc' [Hfirst Hother]].
  split; [exact Hproc'|].
  rewrite edgesBetween_snoc, Hcount, (Hboth target eq_refl eq_refl).
  change (joins A B (mkEdgeEl (pairKey p) (id (fst p)) (snd p)
                       (px (getPos ov (id (fst p)) (Some (fst p))))
                       (py (getPos ov (id (fst p)) (Some (fst p))))
                       (px (getPos ov (snd p) (Some target)))
                       (py (getPos ov (snd p) (Some target)))))
    with (linkJoins A B p).
  destruct (hasKey A B p) eqn:Ek.
  - rewrite (Hfirst eq_refl). reflexivity.
  - rewrite (Hother eq_refl), Nat.add_0_r.
    destruct (find (eligible notes0 act A B) P); reflexivity.
Qed.

Lemma dynamic_loop_keyInv :
  forall L P acc,
    dynamicKeyInv notes0 act A B P (fst acc) (snd acc) ->
    let r := fold_left (fun acc p => dynamicEdge notes0 ov act (fst p) acc (snd p)) L acc in
    dynamicKeyInv notes0 act A B (P ++ L) (fst r) (snd r).
Proof.
  induction L as [|p L IH]; intros P [processed els] Hinv; cbn -[dynamicEdge].
  - now rewrite app_nil_r.
  - change (P ++ p :: L) with (P ++ [p] ++ L). rewrite app_assoc.
    apply IH. now apply dynamicEdge_keyInv.
Qed.

Lemma dynamic_count :
  length (edgesBetween A B (mounted (DynamicConnectionsLayer notes0 ov act)))
  = if Nat.eqb (JSSet.size act) 0 then 0%nat
    else dynamicCount A B (find (eligible notes0 act A B) (linkPairs notes0)).
Proof.
  unfold DynamicConnectionsLayer.
  destruct (Nat.eqb (JSSet.size act) 0); [reflexivity|]. cbn [mounted].
  rewrite (fold_linkPairs _ (dynamicEdge notes0 ov act)).
  apply (dynamic_loop_keyInv (linkPairs notes0) [] (JSSet.empty, [])).
  split; [|reflexivity]. split; [intros [] | intros Hf; now elim Hf].
Qed.

Lemma layers_count :
  length (edgesBetween A B (connectionLayers notes0 ov act))
  = (staticCount notes0 act A B (firstWithKey notes0 A B)
     + if Nat.eqb (JSSet.size act) 0 then 0
       else dynamicCount A B (find (eligible notes0 act A B) (linkPairs notes0)))%nat.
Proof.
  unfold connectionLayers, edgesBetween. rewrite filter_app, length_app.
  fold (edgesBetween A B (StaticConnectionsLayer notes0 act)).
  fold (edgesBetween A B (mounted (DynamicConnectionsLayer notes0 ov act))).
  now rewrite static_count, dynamic_count.
Qed.

Lemma linkJoins_found :
  isEntity notes0 A -> isEntity notes0 B ->
  forall p : Note num * string,
    linkJoins A B p = true -> targetFound notes0 p = true.
Proof.
  intros HA HB p Hj. apply linkJoins_true in Hj. unfold targetFound.
  destruct Hj as [[_ ->] | [_ ->]].
  - destruct (findNote notes0 B) eqn:E; [reflexivity | now elim (isEntity_found B HB)].
  - destruct (findNote notes0 A) eqn:E; [reflexivity | now elim (isEntity_found A HA)].
Qed.

Lemma owned_count :
  isEntity notes0 A -> isEntity notes0 B ->
  keyOwnedBy notes0 A B ->
  length (edgesBetween A B (connectionLayers notes0 ov act)) = 1%nat.
Proof.
  intros HA HB [p1 [Hfirst Hj]].
  rewrite layers_count, Hfirst. cbn [staticCount].
  rewrite Hj, (linkJoins_found HA HB p1 Hj); cbn [andb].
  pose proof (linkJoins_dragging p1 Hj) as Hd.
  destruct (dragging act p1) eqn:Edrag; cbn [negb].
  - assert (Hsize : Nat.eqb (JSSet.size act) 0 = false).
    { unfold JSSet.size. destruct act as [|k0 l]; [|reflexivity].
      cbn in Hd. discriminate. }
    rewrite Hsize.
    assert (Hel : find (eligible notes0 act A B) (linkPairs notes0) = Some p1).
    { unfold eligible. apply find_refined; [exact Hfirst|].
      now rewrite (linkJoins_found HA HB p1 Hj), Edrag. }
    rewrite Hel. cbn [dynamicCount]. now rewrite Hj.
  - destruct (Nat.eqb (JSSet.size act) 0); [reflexivity|].
    destruct (find (eligible notes0 act A B) (linkPairs notes0)) as [q|] eqn:Eq;
      [|reflexivity].
    cbn [dynamicCount]. destruct (linkJoins A B q) eqn:Ejq; [|reflexivity].
    exfalso. apply find_some in Eq. destruct Eq as [_ Hq].
    unfold eligible in Hq. apply andb_true_iff in Hq. destruct Hq as [_ Hq].
    apply andb_true_iff in Hq. destruct Hq as [_ Hq].
    rewrite (linkJoins_dragging q Ejq), <- Hd in Hq. discriminate.
Qed.

(** The link the adjacency records for [A] and [B]. *)
Lemma linked_pair :
  linked notes0 A B ->
  exists p, In p (linkPairs notes0) /\ linkJoins A B p = true.
Proof.
  intros [n [Hn [[Hid Ht] | [Hid Ht]]]].
  - exists (n, B). split; [now apply linkPairs_In|].
    apply linkJoins_true. now left.
  - exists (n, A). split; [now apply linkPairs_In|].
    apply linkJoins_true. now right.
Qed.

Lemma unambiguous_owned :
  keysUnambiguous notes0 -> linked notes0 A B -> keyOwnedBy notes0 A B.
Proof.
  intros Hkeys Hlink. destruct (linked_pair Hlink) as [p0 [Hp0 Hj0]].
  unfold keyOwnedBy, firstWithKey.
  destruct (find (hasKey A B) (linkPairs notes0)) as [p1|] eqn:Efind.
  - exists p1. split; [reflexivity|].
    apply find_some in Efind. destruct Efind as [Hp1 Hk1].
    pose proof (linkJoins_key p0 Hj0) as Hk0.
    unfold hasKey in Hk0, Hk1. apply String.eqb_eq in Hk0, Hk1.
    pose proof (Hkeys p1 p0 Hp1 Hp0 (eq_trans Hk1 (eq_sym Hk0))) as Hsame.
    apply linkJoins_true in Hsame. apply linkJoins_true in Hj0.
    apply linkJoins_true.
    destruct Hsame as [[-> ->] | [-> ->]]; destruct Hj0 as [[<- <-] | [<- <-]]; auto.
  - exfalso. pose proof (find_none _ _ Efind p0 Hp0) as Hk.
    rewrite (linkJoins_key p0 Hj0) in Hk. discriminate.
Qed.

End Counting.

End EdgeLoops.

Lemma unowned_count :
  forall {num : Type} `{Number num} (notes0 : list (Note num)) A B,
    ~ keyOwnedBy notes0 A B ->
    length (edgesBetween A B (connectionLayers notes0 JSMap.empty JSSet.empty)) = 0%nat.
Proof.
  intros num N notes0 A B Hno.
  rewrite layers_count. cbn [JSSet.size JSSet.empty length Nat.eqb].
  rewrite Nat.add_0_r.
  destruct (firstWithKey notes0 A B) as [p|] eqn:Efirst; [|reflexivity].
  cbn [staticCount].
  destruct (linkJoins A B p) eqn:Ej; [|reflexivity].
  elim Hno. now exists p.
Qed.

(** Identifiers of one length, as the UUIDs the application generates, give
    unambiguous link keys. *)
Lemma uniform_length_keysUnambiguous :
  forall {num : Type} `{Number num} (notes0 : list (Note num)) len,
    (forall k, In k (identifiers notes0) -> String.length k = len) ->
    keysUnambiguous notes0.
Proof.
  intros num N notes0 len Hlen p q Hp Hq.
  destruct (linkPairs_identifiers notes0 p Hp) as [Hp1 Hp2].
  destruct (linkPairs_identifiers notes0 q Hq) as [Hq1 Hq2].
  pose proof (Hlen _ Hp1) as La. pose proof (Hlen _ Hp2) as Lb.
  pose proof (Hlen _ Hq1) as Lc. pose proof (Hlen _ Hq2) as Ld.
  unfold pairKey, getLinkKey. intros Heq. apply linkJoins_true.
  destruct (jsLtb (id (fst p)) (snd p)), (jsLtb (id (fst q)) (snd q));
    apply append_inj_length in Heq; try congruence;
    destruct Heq as [E1 Heq]; injection Heq as E2; auto.
Qed.

(** C3 (as amended).  Both connection loops skip a link whose key was
    processed before.  For two notes [A] and [B] of the list whose link is
    recorded as [A -> B], as [B -> A] or both ways: when the first link in
    visiting order (notes in list order, each note's links in order) that
    produces the key of [A] and [B] is a link between [A] and [B], the
    static and the dynamic connection layer together mount exactly one edge
    element joining [A] and [B], for any override map and any set of
    dragged identifiers; when it is not, they mount none while nothing is
    dragged.  The first case is the rule whenever no two recorded links
    between different pairs share a key, and so whenever all identifiers
    have one length, as the UUIDs the application generates do. *)
Theorem each_link_renders_once :
  forall {num : Type} `{Number num} (notes : list (Note num)) (A B : string),
    isEntity notes A ->
    isEntity notes B ->
    linked notes A B ->
    (keyOwnedBy notes A B ->
     forall (dragOverrides : JSMap.t (Point num)) (activeDragIds : JSSet.t),
       length (edgesBetween A B (connectionLayers notes dragOverrides activeDragIds))
       = 1%nat) /\
    (~ keyOwnedBy notes A B ->
     length (edgesBetween A B (connectionLayers notes JSMap.empty JSSet.empty))
     = 0%nat) /\
    (keysUnambiguous notes -> keyOwnedBy notes A B) /\
    (forall len,
        (forall k, In k (identifiers notes) -> String.length k = len) ->
        keysUnambiguous notes).
Proof.
  intros num N notes0 A B HA HB Hlink.
  split; [|split; [|split]].
  - intros Hown ov act. now apply owned_count.
  - apply unowned_count.
  - intros Hkeys. now apply unambiguous_owned.
  - intros len. apply uniform_length_keysUnambiguous.
Qed.

(** [each_link_renders_once] for the link between [a] and [b] recorded on
    both sides while [a] is dragged. *)
Lemma each_link_renders_once_witness :
  length (edgesBetween "a" "b"
            (connectionLayers BothWays.notes BothWays.dragOverrides BothWays.activeDragIds))
  = 1%nat.
Proof.
  apply (proj1 (@each_link_renders_once float _ BothWays.notes "a" "b"
                  (ex_intro _ (Scene.note "a" 100 100 ["b"])
                            (conj (or_introl eq_refl) eq_refl))
                  (ex_intro _ (Scene.note "b" 300 100 ["a"])
                            (conj (or_intror (or_introl eq_refl)) eq_refl))
                  (ex_intro _ (Scene.note "a" 100 100 ["b"])
                            (conj (or_introl eq_refl)
                                  (or_introl (conj eq_refl (or_introl eq_refl))))))).
  exists (Scene.note "a" 100 100 ["b"], "b"). split; reflexivity.
Defined.

(** What the layers mount for [KeyClash]: the one element keyed ["a-b-c"]
    joins ["a-b"] and ["c"]. *)
Lemma key_clash_layers :
  map (fun el => (ekey el, esource el, etarget el))
      (connectionLayers KeyClash.notes JSMap.empty JSSet.empty)
  = [("a-b-c", "a-b", "c")].
Proof. vm_compute. reflexivity. Qed.

(** C3 (as stated) fails: in [KeyClash] the notes ["a"] and ["b-c"] are
    linked, but their key ["a-b-c"] is already taken by the pair ["a-b"],
    ["c"], and no edge element joins them. *)
Lemma key_clash_drops_edge :
  ~ (forall (notes : list (Note float)) (dragOverrides : JSMap.t (Point float))
            (activeDragIds : JSSet.t) (A B : string),
        A <> B -> isEntity notes A -> isEntity notes B -> linked notes A B ->
        length (edgesBetween A B (connectionLayers notes dragOverrides activeDragIds))
        = 1%nat).
Proof.
  intros Hclaim.
  specialize (Hclaim KeyClash.notes JSMap.empty JSSet.empty "a" "b-c").
  assert (Hcount : length (edgesBetween "a" "b-c"
                             (connectionLayers KeyClash.notes JSMap.empty JSSet.empty))
                   = 0%nat) by (vm_compute; reflexivity).
  rewrite Hcount in Hclaim. enough (0%nat = 1%nat) by discriminate.
  apply Hclaim.
  - discriminate.
  - eexists. split; [right; right; left; reflexivity | reflexivity].
  - eexists. split; [right; right; right; left; reflexivity | reflexivity].
  - eexists. split; [right; right; left; reflexivity|].
    left. split; [reflexivity | now left].
Qed.

(** * Further properties

    ** The store's reducers *)

Section StoreProperties.
Context {num : Type} `{Number num}.

Lemma find_app_first :
  forall (A : Type) (f : A -> bool) (l1 l2 : list A),
    find f (l1 ++ l2) = match find f l1 with
                        | Some a => Some a
                        | None => find f l2
                        end.
Proof.
  intros A f l1 l2. induction l1 as [|a l1 IH]; cbn; [reflexivity|].
  destruct (f a); [reflexivity | exact IH].
Qed.

(** The update the [Map] built from [updates] holds for [k]: the last one
    carrying that identifier. *)
Lemma updateMap_last :
  forall (updates : list (Note num)) (init : JSMap.t (Note num)) k,
    JSMap.get (fold_left (fun m n => JSMap.set m (id n) n) updates init) k
    = match find (fun u => String.eqb (id u) k) (rev updates) with
      | Some u => Some u
      | None => JSMap.get init k
      end.
Proof.
  induction updates as [|u updates IH]; intros init k; cbn; [reflexivity|].
  rewrite IH, find_app_first, JSMap_get_set.
  destruct (find (fun u0 => String.eqb (id u0) k) (rev updates)); [reflexivity|].
  cbn. rewrite (String.eqb_sym (id u) k).
  destruct (String.eqb k (id u)); reflexivity.
Qed.

Lemma batch_update_char :
  forall (prev updates : list (Note num)),
    handleBatchUpdateNotes prev updates
    = map (fun n => match find (fun u => String.eqb (id u) (id n)) (rev updates) with
                    | Some u => u
                    | None => n
                    end) prev.
Proof.
  intros prev updates. unfold handleBatchUpdateNotes. apply map_ext. intros n.
  rewrite updateMap_last. cbn.
  destruct (find _ (rev updates)); reflexivity.
Qed.

(** [handleBatchUpdateNotes] replaces each note by the last update that
    carries its identifier and leaves every other note, the length of the
    list and the sequence of identifiers as they were; an update whose
    identifier names no note adds nothing. *)
Theorem batch_update_last_wins :
  forall (prev updates : list (Note num)),
    handleBatchUpdateNotes prev updates
    = map (fun n => match find (fun u => String.eqb (id u) (id n)) (rev updates) with
                    | Some u => u
                    | None => n
                    end) prev /\
    map id (handleBatchUpdateNotes prev updates) = map id prev /\
    length (handleBatchUpdateNotes prev updates) = length prev.
Proof.
  intros prev updates.
  pose proof (batch_update_char prev updates) as Heq.
  split; [exact Heq|]. split.
  - rewrite Heq, map_map. apply map_ext. intros n.
    destruct (find _ (rev updates)) as [u|] eqn:E; [|reflexivity].
    apply find_some in E. destruct E as [_ E]. now apply String.eqb_eq in E.
  - rewrite Heq. apply length_map.
Qed.

(** Applying the same batch of updates a second time changes nothing. *)
Theorem batch_update_idempotent :
  forall (prev updates : list (Note num)),
    handleBatchUpdateNotes (handleBatchUpdateNotes prev updates) updates
    = handleBatchUpdateNotes prev updates.
Proof.
  intros prev updates.
  rewrite (batch_update_char (handleBatchUpdateNotes prev updates) updates).
  rewrite (batch_update_char prev updates).
  rewrite map_map. apply map_ext. intros n.
  destruct (find (fun u => String.eqb (id u) (id n)) (rev updates)) as [u|] eqn:E.
  - pose proof (find_some _ _ E) as [_ Hid]. apply String.eqb_eq in Hid.
    rewrite Hid, E. reflexivity.
  - rewrite E. reflexivity.
Qed.

(** The editor's single-note update is the batch update of one note. *)
Theorem single_update_is_batch_of_one :
  forall (prev : list (Note num)) (u : Note num),
    handleUpdateNote prev u = handleBatchUpdateNotes prev [u].
Proof.
  intros prev u; unfold handleUpdateNote, handleBatchUpdateNotes; cbn.
  apply map_ext. intros n. destruct (String.eqb (id n) (id u)); reflexivity.
Qed.

Lemma includes_In : forall (ids : list string) k, includes ids k = true <-> In k ids.
Proof. intros ids k. apply (JSSet_has_In ids k). Qed.

(** A batch delete that goes through (some identifier given, and at most
    three of them or the dialog confirmed) keeps exactly the notes whose
    identifier is not listed, in their order.  The active identifier is
    cleared exactly when it is a non-empty string that is listed: an
    unlisted one is kept, and so is the empty string, listed or not. *)
Theorem batch_delete_removes_listed :
  forall (confirmed : bool) (prev : list (Note num)) (active : option string)
         (ids : list string),
    ids <> [] ->
    (length ids <= 3)%nat \/ confirmed = true ->
    let r := handleBatchDelete confirmed prev active ids in
    (forall n, In n (fst r) <-> In n prev /\ ~ In (id n) ids) /\
    fst r = filter (fun n => negb (includes ids (id n))) prev /\
    (forall k, snd r = Some k -> active = Some k /\ (~ In k ids \/ k = "")) /\
    (forall k, active = Some k -> ~ In k ids -> snd r = Some k) /\
    (active = Some "" -> snd r = Some "") /\
    (forall k, active = Some k -> k <> "" -> In k ids -> snd r = None) /\
    (active = None -> snd r = None).
Proof.
  intros confirmed prev active ids Hne Hok; unfold handleBatchDelete.
  assert (Nat.eqb (length ids) 0 = false) as ->.
  { destruct ids; [now elim Hne | reflexivity]. }
  assert (Nat.ltb 3 (length ids) && negb confirmed = false) as ->.
  { destruct Hok as [Hle | ->]; [|apply andb_false_r].
    apply Nat.ltb_ge in Hle. now rewrite Hle. }
  cbn [fst snd]. split; [|split; [reflexivity|split; [|split; [|split; [|split]]]]].
  - intros n. rewrite filter_In, negb_true_iff.
    rewrite <- includes_In. destruct (includes ids (id n)); intuition congruence.
  - intros k. destruct active as [prevId|]; [|discriminate].
    destruct (String.eqb prevId "") eqn:E0; cbn.
    + intros [= <-]. apply String.eqb_eq in E0. split; [reflexivity | now right].
    + destruct (includes ids prevId) eqn:Ei; [discriminate|].
      intros [= <-]. split; [reflexivity|]. left.
      rewrite <- includes_In. congruence.
  - intros k -> Hk. rewrite <- includes_In in Hk.
    destruct (includes ids k); [now elim Hk|]. now rewrite andb_false_r.
  - intros ->. reflexivity.
  - intros k -> Hk Hin. apply includes_In in Hin. rewrite Hin.
    apply String.eqb_neq in Hk. now rewrite Hk.
  - intros ->. reflexivity.
Qed.

(** A batch delete without identifiers, or of more than three notes when
    the dialog is declined, changes nothing. *)
Theorem batch_delete_declined :
  forall (confirmed : bool) (prev : list (Note num)) (active : option string)
         (ids : list string),
    ids = [] \/ ((3 < length ids)%nat /\ confirmed = false) ->
    handleBatchDelete confirmed prev active ids = (prev, active).
Proof.
  intros confirmed prev active ids [-> | [Hlen ->]]; unfold handleBatchDelete;
    [reflexivity|].
  apply Nat.ltb_lt in Hlen. rewrite Hlen.
  destruct (Nat.eqb (length ids) 0); reflexivity.
Qed.

(** Deleting one note from the list view is a batch delete of that note,
    provided the active identifier is not the empty string. *)
Theorem single_delete_is_batch_of_one :
  forall (prev : list (Note num)) (active : option string) (k : string) confirmed,
    active <> Some "" ->
    handleDeleteNote prev active k = handleBatchDelete confirmed prev active [k].
Proof.
  intros prev active k confirmed Ha; unfold handleDeleteNote, handleBatchDelete; cbn.
  f_equal.
  - apply filter_ext. intros n. now rewrite orb_false_r.
  - destruct active as [prevId|]; [|reflexivity].
    assert (String.eqb prevId "" = false) as ->.
    { apply String.eqb_neq. intros ->. now elim Ha. }
    cbn. rewrite orb_false_r. reflexivity.
Qed.

End StoreProperties.

Section DuplicateProperties.
Context {num : Type} `{Number num}.

Lemma duplicatesOf_ids :
  forall (prev : list (Note num)) supply (ids : list string) i,
    map id (duplicatesOf prev supply i ids)
    = map (fun j => freshId (supply j)) (seq i (length (namingNotes prev ids))).
Proof.
  intros prev supply ids. unfold namingNotes.
  induction ids as [|k ids IH]; intros i; cbn; [reflexivity|].
  destruct (findNote prev k); cbn; [rewrite IH; reflexivity | apply IH].
Qed.

Lemma duplicatesOf_copies :
  forall (prev : list (Note num)) supply (ids : list string) i c,
    In c (duplicatesOf prev supply i ids) ->
    exists j k original,
      (i <= j < i + length (namingNotes prev ids))%nat /\
      In k ids /\ findNote prev k = Some original /\
      id c = freshId (supply j) /\
      createdAt c = createdNow (supply j) /\ updatedAt c = updatedNow (supply j) /\
      title c = (title original ++ " (Copy)")%string /\
      x c = nadd (x original) (ofZ 40) /\ y c = nadd (y original) (ofZ 40) /\
      content c = content original /\ tags c = tags original /\
      isFavorite c = isFavorite original /\ links c = links original.
Proof.
  intros prev supply ids. unfold namingNotes.
  induction ids as [|k ids IH]; intros i c Hin; cbn in *; [contradiction|].
  destruct (findNote prev k) as [original|] eqn:Ef; cbn in *.
  - destruct Hin as [<- | Hin].
    + exists i, k, original; cbn. repeat split; auto; lia.
    + destruct (IH (S i) c Hin) as [j [k' [o [Hj [Hk Hrest]]]]].
      exists j, k', o. repeat split; try tauto; lia.
  - destruct (IH i c Hin) as [j [k' [o [Hj [Hk Hrest]]]]].
    exists j, k', o. repeat split; try tauto; lia.
Qed.

Lemma duplicatesOf_nth :
  forall (prev : list (Note num)) supply (ids : list string) i j k,
    nth_error (namingNotes prev ids) j = Some k ->
    exists original c,
      findNote prev k = Some original /\
      nth_error (duplicatesOf prev supply i ids) j = Some c /\
      id c = freshId (supply (i + j)%nat) /\
      createdAt c = createdNow (supply (i + j)%nat) /\
      updatedAt c = updatedNow (supply (i + j)%nat) /\
      title c = (title original ++ " (Copy)")%string /\
      x c = nadd (x original) (ofZ 40) /\ y c = nadd (y original) (ofZ 40) /\
      content c = content original /\ tags c = tags original /\
      isFavorite c = isFavorite original /\ links c = links original.
Proof.
  intros prev supply ids. unfold namingNotes.
  induction ids as [|k0 ids IH]; intros i j k Hnth; cbn in *.
  - destruct j; discriminate.
  - destruct (findNote prev k0) as [original|] eqn:Ef; cbn in *.
    + destruct j as [|j]; cbn in *.
      * injection Hnth as <-. exists original. eexists.
        split; [exact Ef|]. split; [reflexivity|]. cbn.
        rewrite Nat.add_0_r. repeat split.
      * destruct (IH (S i) j k Hnth) as [o [c Hc]].
        exists o, c. now rewrite <- Nat.add_succ_comm.
    + apply (IH i j k Hnth).
Qed.

(** [handleBatchDuplicate] keeps the list as a prefix and appends one copy
    per listed identifier that names a note (an identifier naming nothing
    is skipped and draws no UUID): the [j]-th such identifier, in the order
    listed, gets the [j]-th appended note, made from the [j]-th draw.  A
    copy carries a drawn UUID and the drawn timestamps, the original's
    title followed by [" (Copy)"], the original's position moved by 40 on
    both axes, and the original's content, tags, favourite flag and
    outgoing links. *)
Theorem duplicate_appends_copies :
  forall (supply : nat -> Fresh num) (prev : list (Note num)) (ids : list string),
    let r := handleBatchDuplicate supply prev ids in
    firstn (length prev) r = prev /\
    length r = (length prev + length (namingNotes prev ids))%nat /\
    (forall c, In c (skipn (length prev) r) ->
      exists j k original,
        (j < length (namingNotes prev ids))%nat /\
        In k ids /\ findNote prev k = Some original /\
        id c = freshId (supply j) /\
        createdAt c = createdNow (supply j) /\ updatedAt c = updatedNow (supply j) /\
        title c = (title original ++ " (Copy)")%string /\
        x c = nadd (x original) (ofZ 40) /\ y c = nadd (y original) (ofZ 40) /\
        content c = content original /\ tags c = tags original /\
        isFavorite c = isFavorite original /\ links c = links original) /\
    (forall j k,
        nth_error (namingNotes prev ids) j = Some k ->
        exists original c,
          findNote prev k = Some original /\
          nth_error (skipn (length prev) r) j = Some c /\
          id c = freshId (supply j) /\
          createdAt c = createdNow (supply j) /\ updatedAt c = updatedNow (supply j) /\
          title c = (title original ++ " (Copy)")%string /\
          x c = nadd (x original) (ofZ 40) /\ y c = nadd (y original) (ofZ 40) /\
          content c = content original /\ tags c = tags original /\
          isFavorite c = isFavorite original /\ links c = links original).
Proof.
  intros supply prev ids; unfold handleBatchDuplicate; cbv zeta.
  assert (Hskip : skipn (length prev) (prev ++ duplicatesOf prev supply 0 ids)
                  = duplicatesOf prev supply 0 ids).
  { rewrite skipn_app, Nat.sub_diag, skipn_all. reflexivity. }
  split; [|split; [|split]].
  - rewrite firstn_app, Nat.sub_diag, firstn_all. cbn. apply app_nil_r.
  - rewrite length_app. f_equal.
    rewrite <- (length_map id), duplicatesOf_ids, length_map. apply length_seq.
  - intros c Hc. rewrite Hskip in Hc.
    destruct (duplicatesOf_copies prev supply ids 0 c Hc)
      as [j [k [o [Hj Hrest]]]].
    exists j, k, o. split; [lia | exact Hrest].
  - intros j k Hnth. rewrite Hskip.
    exact (duplicatesOf_nth prev supply ids 0 j k Hnth).
Qed.

(** When the notes have distinct identifiers and the UUIDs drawn are new
    and distinct, the identifiers are still distinct after duplicating. *)
Theorem duplicate_keeps_identifiers_distinct :
  forall (supply : nat -> Fresh num) (prev : list (Note num)) (ids : list string),
    NoDup (map id prev) ->
    (forall i j, (i < length (namingNotes prev ids))%nat ->
                 (j < length (namingNotes prev ids))%nat ->
                 freshId (supply i) = freshId (supply j) -> i = j) ->
    (forall i, (i < length (namingNotes prev ids))%nat ->
               ~ In (freshId (supply i)) (map id prev)) ->
    NoDup (map id (handleBatchDuplicate supply prev ids)).
Proof.
  intros supply prev ids Hnd Hinj Hnew; unfold handleBatchDuplicate.
  rewrite map_app, duplicatesOf_ids.
  set (n := length (namingNotes prev ids)) in *.
  apply NoDup_app; [exact Hnd | |].
  - assert (Hgen : forall m i, (i + m <= n)%nat ->
                NoDup (map (fun j => freshId (supply j)) (seq i m))).
    { induction m as [|m IH]; intros i Him; cbn; [constructor|].
      constructor; [|apply IH; lia].
      intros Hin. apply in_map_iff in Hin. destruct Hin as [j [Heq Hj]].
      apply in_seq in Hj. apply Hinj in Heq; lia. }
    apply Hgen. lia.
  - intros k Hk Hin. apply in_map_iff in Hin. destruct Hin as [j [<- Hj]].
    apply in_seq in Hj. apply (Hnew j); [lia | exact Hk].
Qed.

End DuplicateProperties.

(** ** The render layers *)

Lemma fold_left_invariant :
  forall (A B : Type) (f : A -> B -> A) (I : A -> Prop) (l : list B) (a : A),
    I a -> (forall a b, In b l -> I a -> I (f a b)) -> I (fold_left f l a).
Proof.
  intros A B f I l. induction l as [|b l IH]; intros a Ha Hstep; cbn; [exact Ha|].
  apply IH; [apply Hstep; [now left | exact Ha]|].
  intros a' b' Hb'. apply Hstep. now right.
Qed.

Section LayerProperties.
Context {num : Type} `{Number num}.

Lemma static_layer_shape :
  forall (notes0 : list (Note num)) (act : JSSet.t),
    Forall (staticEdgeShape notes0 act) (StaticConnectionsLayer notes0 act).
Proof.
  intros notes0 act; unfold StaticConnectionsLayer.
  rewrite (fold_linkPairs _ (staticEdge notes0 act)).
  apply (fold_left_invariant _ _ _
           (fun acc => Forall (staticEdgeShape notes0 act) (snd acc)));
    [constructor|].
  intros [processed els] [source t] Hp Hacc; cbn [fst snd] in *.
  apply linkPairs_In in Hp. destruct Hp as [Hs Ht]; cbn in Hs, Ht.
  unfold staticEdge.
  destruct (JSSet.has processed (getLinkKey (id source) t)); [exact Hacc|].
  destruct (findNote notes0 t) as [target|] eqn:Ef; [|exact Hacc].
  pose proof (findNote_id _ _ _ Ef) as Hid.
  destruct (JSSet.has act (id source)) eqn:E1; [exact Hacc|].
  destruct (JSSet.has act (id target)) eqn:E2; [exact Hacc|]. cbn [orb snd].
  apply Forall_app. split; [exact Hacc|]. constructor; [|constructor].
  exists source, target; unfold edgeFrom; cbn. rewrite Hid.
  repeat split; auto. congruence.
Qed.

Lemma dynamic_layer_shape :
  forall (notes0 : list (Note num)) (ov : JSMap.t (Point num)) (act : JSSet.t),
    Forall (dynamicEdgeShape notes0 ov act)
           (mounted (DynamicConnectionsLayer notes0 ov act)).
Proof.
  intros notes0 ov act; unfold DynamicConnectionsLayer.
  destruct (Nat.eqb (JSSet.size act) 0); [constructor|]. cbn [mounted].
  rewrite (fold_linkPairs _ (dynamicEdge notes0 ov act)).
  apply (fold_left_invariant _ _ _
           (fun acc => Forall (dynamicEdgeShape notes0 ov act) (snd acc)));
    [constructor|].
  intros [processed els] [source t] Hp Hacc; cbn [fst snd] in *.
  apply linkPairs_In in Hp. destruct Hp as [Hs Ht]; cbn in Hs, Ht.
  unfold dynamicEdge.
  destruct (findNote notes0 t) as [target|] eqn:Ef; [|exact Hacc].
  destruct (negb (JSSet.has act (id source)) && negb (JSSet.has act t)) eqn:Ed;
    [exact Hacc|].
  destruct (JSSet.has processed (getLinkKey (id source) t)); [exact Hacc|].
  cbn [snd]. apply Forall_app. split; [exact Hacc|]. constructor; [|constructor].
  exists source, target; unfold edgeFrom; cbn.
  repeat split; auto;
    try match goal with
        | |- _ = getPos ?o ?k ?n => destruct (getPos o k n); reflexivity
        end.
  destruct (JSSet.has act (id source)); [now left|].
  destruct (JSSet.has act t); [now right | discriminate].
Qed.

(** Every edge element either layer mounts was made from a note of the list
    and one of its links whose target is in the list, so a link to a
    missing note is never drawn.  The static layer draws only edges between
    two notes that are not dragged, at their stored coordinates; the
    dynamic layer draws only edges with a dragged end, each end at its
    override when it has one and at its stored coordinates otherwise. *)
Theorem edges_join_present_notes :
  forall (notes0 : list (Note num)) (ov : JSMap.t (Point num)) (act : JSSet.t),
    Forall (staticEdgeShape notes0 act) (StaticConnectionsLayer notes0 act) /\
    Forall (dynamicEdgeShape notes0 ov act)
           (mounted (DynamicConnectionsLayer notes0 ov act)) /\
    Forall (fun el => isEntity notes0 (esource el) /\ isEntity notes0 (etarget el))
           (connectionLayers notes0 ov act).
Proof.
  intros notes0 ov act.
  pose proof (static_layer_shape notes0 act) as Hs.
  pose proof (dynamic_layer_shape notes0 ov act) as Hd.
  split; [exact Hs | split; [exact Hd|]].
  assert (Hent : forall el source target,
             edgeFrom notes0 el source target ->
             isEntity notes0 (esource el) /\ isEntity notes0 (etarget el)).
  { intros el source target [Hin [_ [Hf [Hsrc _]]]]. split.
    - exists source. now split.
    - exists target. pose proof (find_some _ _ Hf) as [Hint Hid].
      apply String.eqb_eq in Hid. now split. }
  unfold connectionLayers. apply Forall_app. split.
  - eapply Forall_impl; [|exact Hs]. intros el [source [target [Hfrom _]]].
    now apply Hent with source target.
  - eapply Forall_impl; [|exact Hd]. intros el [source [target [Hfrom _]]].
    now apply Hent with source target.
Qed.

(** Within each connection layer no two edge elements carry the same React
    key, whatever the notes list. *)
Theorem edge_keys_unique_per_layer :
  forall (notes0 : list (Note num)) (ov : JSMap.t (Point num)) (act : JSSet.t),
    NoDup (map ekey (StaticConnectionsLayer notes0 act)) /\
    NoDup (map ekey (mounted (DynamicConnectionsLayer notes0 ov act))).
Proof.
  intros notes0 ov act. split.
  - destruct (StaticConnectionsLayer_inv notes0 act) as [processed [_ [Hnd _]]].
    exact Hnd.
  - destruct (length act) eqn:E.
    + apply length_zero_iff_nil in E. subst act. constructor.
    + assert (Hact : act <> JSSet.empty) by (intros ->; discriminate).
      destruct (DynamicConnectionsLayer_inv notes0 act ov Hact)
        as [processed [els [-> [_ [Hnd _]]]]].
      exact Hnd.
Qed.

Lemma JSMap_get_None :
  forall {V} (m : JSMap.t V) k, JSMap.get m k = None <-> ~ In k (JSMap.keys m).
Proof.
  intros V m k; unfold JSMap.keys. induction m as [|[k0 v0] m IH]; cbn; [tauto|].
  destruct (String.eqb k k0) eqn:E.
  - apply String.eqb_eq in E; subst. split; [discriminate | intros Hn; elim Hn; now left].
  - apply String.eqb_neq in E. rewrite IH. intuition congruence.
Qed.

Lemma has_keys_get :
  forall {V} (m : JSMap.t V) k,
    JSSet.has (JSMap.keys m) k = match JSMap.get m k with Some _ => true | None => false end.
Proof.
  intros V m k. destruct (JSMap.get m k) eqn:E.
  - apply JSSet_has_In. now apply JSMap_get_keys with v.
  - apply JSSet_has_false. now apply JSMap_get_None.
Qed.

Lemma static_nodes_notes :
  forall (l : list (Note num)) (act : JSSet.t),
    map nnote (StaticNodesLayer l act)
    = filter (fun n => negb (JSSet.has act (id n))) l.
Proof.
  intros l act; unfold StaticNodesLayer. induction l as [|n l IH]; cbn; [reflexivity|].
  destruct (JSSet.has act (id n)); cbn; [exact IH | now rewrite IH].
Qed.

Lemma dynamic_nodes_notes :
  forall (l : list (Note num)) (ov : JSMap.t (Point num)),
    map nnote (mounted (DynamicNodesLayer l ov))
    = filter (fun n => JSSet.has (JSMap.keys ov) (id n)) l.
Proof.
  intros l ov; unfold DynamicNodesLayer.
  destruct (Nat.eqb (JSMap.size ov) 0) eqn:Esize.
  - destruct ov; [|discriminate].
    cbn. induction l as [|n l IH]; cbn; [reflexivity | exact IH].
  - cbn [mounted].
    induction l as [|n l IH]; cbn [flat_map map filter]; [reflexivity|].
    rewrite map_app, IH, has_keys_get.
    destruct (JSMap.get ov (id n)); reflexivity.
Qed.

(** While the override map and the active-drag set hold the same
    identifiers, the two node layers split the notes between them: the
    static layer draws the notes that are not dragged and the dynamic layer
    the dragged ones, each in list order, so every note is drawn exactly
    once, keyed by its identifier. *)
Theorem node_layers_partition :
  forall s : State num,
    JSMap.keys (dragOverrides s) = activeDragIds s ->
    map nnote (StaticNodesLayer (notes s) (activeDragIds s))
    = filter (fun n => negb (JSSet.has (activeDragIds s) (id n))) (notes s) /\
    map nnote (mounted (DynamicNodesLayer (notes s) (dragOverrides s)))
    = filter (fun n => JSSet.has (activeDragIds s) (id n)) (notes s) /\
    length (nodeLayers s) = length (notes s) /\
    Forall (fun el => nkey el = id (nnote el)) (nodeLayers s).
Proof.
  intros s Hkeys.
  pose proof (static_nodes_notes (notes s) (activeDragIds s)) as Hst.
  pose proof (dynamic_nodes_notes (notes s) (dragOverrides s)) as Hdy.
  rewrite Hkeys in Hdy.
  split; [exact Hst | split; [exact Hdy | split]].
  - unfold nodeLayers. rewrite length_app.
    rewrite <- (length_map nnote (StaticNodesLayer _ _)), Hst.
    rewrite <- (length_map nnote (mounted _)), Hdy.
    rewrite Nat.add_comm. apply filter_length.
  - unfold nodeLayers. apply Forall_app. split.
    + unfold StaticNodesLayer. apply Forall_forall. intros el Hin.
      apply in_flat_map in Hin. destruct Hin as [n [_ Hel]].
      destruct (JSSet.has (activeDragIds s) (id n)); [contradiction|].
      destruct Hel as [<- | []]. reflexivity.
    + unfold DynamicNodesLayer.
      destruct (Nat.eqb (JSMap.size (dragOverrides s)) 0); [constructor|].
      apply Forall_forall. intros el Hin.
      apply in_flat_map in Hin. destruct Hin as [n [_ Hel]].
      destruct (JSMap.get (dragOverrides s) (id n)); [|contradiction].
      destruct Hel as [<- | []]. reflexivity.
Qed.

(** The node element drawn for a note of the list. *)
Lemma node_drawn :
  forall (s : State num) (n : Note num),
    JSMap.keys (dragOverrides s) = activeDragIds s ->
    In n (notes s) ->
    exists nel, In nel (nodeLayers s) /\ nkey nel = id n /\
                mkPoint (nx nel) (ny nel)
                = getPos (dragOverrides s) (id n) (Some n).
Proof.
  intros s n Hkeys Hin. unfold getPos.
  destruct (JSMap.get (dragOverrides s) (id n)) as [pos|] eqn:E.
  - exists (mkNodeEl (id n) (px pos) (py pos) n). split.
    + now apply dragged_nodes_are_rendered.
    + split; [reflexivity | now destruct pos].
  - exists (mkNodeEl (id n) (x n) (y n) n). split; [|now split].
    unfold nodeLayers. apply in_or_app. left.
    unfold StaticNodesLayer. apply in_flat_map. exists n. split; [exact Hin|].
    rewrite <- Hkeys, has_keys_get, E. now left.
Qed.

(** While the override map and the active-drag set hold the same
    identifiers, both ends of every edge element lie where a node layer
    draws a node with that identifier: edges stay attached to their nodes,
    dragged or not. *)
Theorem edges_attach_to_nodes :
  forall (s : State num) (el : EdgeEl num),
    JSMap.keys (dragOverrides s) = activeDragIds s ->
    In el (connectionLayers (notes s) (dragOverrides s) (activeDragIds s)) ->
    (exists nel, In nel (nodeLayers s) /\ nkey nel = esource el /\
                 nx nel = ex1 el /\ ny nel = ey1 el) /\
    (exists nel, In nel (nodeLayers s) /\ nkey nel = etarget el /\
                 nx nel = ex2 el /\ ny nel = ey2 el).
Proof.
  intros s el Hkeys Hin.
  assert (Hgen : exists source target,
             edgeFrom (notes s) el source target /\
             mkPoint (ex1 el) (ey1 el)
             = getPos (dragOverrides s) (esource el) (Some source) /\
             mkPoint (ex2 el) (ey2 el)
             = getPos (dragOverrides s) (etarget el) (Some target)).
  { pose proof (static_layer_shape (notes s) (activeDragIds s)) as Hs.
    pose proof (dynamic_layer_shape (notes s) (dragOverrides s) (activeDragIds s)) as Hd.
    unfold connectionLayers in Hin. apply in_app_or in Hin. destruct Hin as [Hin | Hin].
    - rewrite Forall_forall in Hs.
      destruct (Hs el Hin) as [source [target [Hfrom [H1 [H2 [Hp1 Hp2]]]]]].
      exists source, target. split; [exact Hfrom|].
      rewrite <- Hkeys, !has_keys_get in H1, H2. unfold getPos.
      destruct (JSMap.get (dragOverrides s) (esource el)); [discriminate|].
      destruct (JSMap.get (dragOverrides s) (etarget el)); [discriminate|].
      now split.
    - rewrite Forall_forall in Hd.
      destruct (Hd el Hin) as [source [target [Hfrom [_ [Hp1 Hp2]]]]].
      exists source, target. split; [exact Hfrom | split; assumption]. }
  destruct Hgen as [source [target [[Hsin [_ [Hf [Hsrc _]]]] [Hp1 Hp2]]]].
  pose proof (find_some _ _ Hf) as [Htin Htid]. apply String.eqb_eq in Htid.
  split.
  - destruct (node_drawn s source Hkeys Hsin) as [nel [Hnel [Hk Hpos]]].
    exists nel. rewrite Hsrc in Hp1. rewrite <- Hp1 in Hpos.
    injection Hpos as Hx Hy. repeat split; congruence.
  - destruct (node_drawn s target Hkeys Htin) as [nel [Hnel [Hk Hpos]]].
    exists nel. rewrite Htid in Hpos, Hk. rewrite <- Hp2 in Hpos.
    injection Hpos as Hx Hy. repeat split; congruence.
Qed.

End LayerProperties.

(** ** Pressing a node *)

Section NodePress.
Context {num : Type} `{Number num}.
Implicit Type s : State num.

Lemma nodePress_selection :
  forall s dom e (note : Note num),
    mode s <> CONNECT ->
    let r := step s (NodePointerDown dom e note) in
    selectedNodeIds (fst r)
    = (if negb (JSSet.has (selectedNodeIds s) (id note)) then
         if negb (shiftKey e) then JSSet.of_list [id note]
         else JSSet.add (selectedNodeIds s) (id note)
       else selectedNodeIds s) /\
    selectionMenuPos (fst r) = None /\ activeNodeId (fst r) = None /\ snd r = [].
Proof.
  intros s dom e note Hm; cbn. unfold handleNodePointerDown.
  assert (ToolMode_eqb (mode s) CONNECT = false) as ->
      by (destruct (mode s); try reflexivity; now elim Hm).
  destruct (negb (isLayoutLocked s) && negb (ToolMode_eqb (mode s) PAN)
            && negb (ToolMode_eqb (mode s) SELECT)); cbv zeta.
  - match goal with
    | |- context [seedDrag ?a ?b ?c] => destruct (seedDrag a b c) as [[o v] a']
    end.
    cbn. now repeat split.
  - cbn. now repeat split.
Qed.

(** Outside the Connect tool a node press leaves the pressed note selected:
    an already selected note keeps the selection as it is, an unselected
    one replaces the selection, or joins it at the end when Shift is held;
    the bulk menu and the detail card are closed. *)
Theorem node_press_selects :
  forall s dom e (note : Note num),
    mode s <> CONNECT ->
    let s' := fst (step s (NodePointerDown dom e note)) in
    In (id note) (selectedNodeIds s') /\
    (In (id note) (selectedNodeIds s) -> selectedNodeIds s' = selectedNodeIds s) /\
    (~ In (id note) (selectedNodeIds s) ->
     selectedNodeIds s'
     = if shiftKey e then selectedNodeIds s ++ [id note] else [id note]) /\
    (NoDup (selectedNodeIds s) -> NoDup (selectedNodeIds s')) /\
    selectionMenuPos s' = None /\ activeNodeId s' = None /\
    snd (step s (NodePointerDown dom e note)) = [].
Proof.
  intros s dom e note Hm s'.
  destruct (nodePress_selection s dom e note Hm) as [Hsel [Hmenu [Hact Hcalls]]].
  fold s' in Hsel, Hmenu, Hact.
  rewrite Hsel, Hmenu, Hact, Hcalls. clear Hsel Hmenu Hact Hcalls.
  destruct (JSSet.has (selectedNodeIds s) (id note)) eqn:Ehas; cbn [negb].
  - apply JSSet_has_In in Ehas. repeat split; auto. intros Hn. contradiction.
  - pose proof Ehas as Hnot. apply JSSet_has_false in Hnot.
    destruct (shiftKey e); cbn [negb]; unfold JSSet.add, JSSet.of_list; cbn;
      rewrite ?Ehas.
    + repeat split; auto.
      * apply in_or_app. right. now left.
      * intros Hin. contradiction.
      * intros Hnd. now apply NoDup_snoc.
    + repeat split; auto.
      * intros Hin. contradiction.
      * intros _. repeat constructor. intros [].
Qed.

Lemma seedDrag_spec :
  forall (notes0 : list (Note num)) (coords : Point num) (l : list string) k,
    let r := seedDrag notes0 coords l in
    (In k (snd r) <-> In k l /\ findNote notes0 k <> None) /\
    (forall n, In k l -> findNote notes0 k = Some n ->
       JSMap.get (snd (fst r)) k = Some (mkPoint (x n) (y n)) /\
       JSMap.get (fst (fst r)) k
       = Some (mkOffset (nsub (px coords) (x n)) (nsub (py coords) (y n)))).
Proof.
  intros notes0 coords l k; unfold seedDrag.
  set (f := fun (acc : JSMap.t (Offset num) * JSMap.t (Point num) * JSSet.t) k0 => _).
  assert (Hgen : forall l acc,
             let r := fold_left f l acc in
             (In k (snd r) <-> In k (snd acc) \/ (In k l /\ findNote notes0 k <> None)) /\
             (forall n, findNote notes0 k = Some n ->
                (In k l \/
                 (JSMap.get (snd (fst acc)) k = Some (mkPoint (x n) (y n)) /\
                  JSMap.get (fst (fst acc)) k
                  = Some (mkOffset (nsub (px coords) (x n)) (nsub (py coords) (y n))))) ->
                JSMap.get (snd (fst r)) k = Some (mkPoint (x n) (y n)) /\
                JSMap.get (fst (fst r)) k
                = Some (mkOffset (nsub (px coords) (x n)) (nsub (py coords) (y n))))).
  { clear l. induction l as [|k0 l IH]; intros acc; cbn.
    - split; [tauto|]. intros n Hf [[] | Hacc]. exact Hacc.
    - destruct (IH (f acc k0)) as [IH1 IH2]. split.
      + rewrite IH1. destruct acc as [[o v] a]; subst f; cbn.
        destruct (findNote notes0 k0) eqn:Ef; cbn.
        * rewrite JSSet_add_In. split.
          -- intros [[Ha | ->] | [Hl Hf]]; auto.
             right. split; [now left | congruence].
          -- intros [Ha | [[-> | Hl] Hf]]; auto.
        * split.
          -- intros [Ha | [Hl Hf]]; auto.
          -- intros [Ha | [[-> | Hl] Hf]]; auto. congruence.
      + intros n Hf Hwhy. apply IH2; [exact Hf|].
        destruct (String.eqb k k0) eqn:E.
        * apply String.eqb_eq in E; subst k0. right.
          destruct acc as [[o v] a]; subst f; cbn. rewrite Hf; cbn.
          rewrite !JSMap_get_set, String.eqb_refl. now split.
        * apply String.eqb_neq in E.
          destruct Hwhy as [[Heq | Hl] | Hacc]; [congruence | now left | right].
          destruct acc as [[o v] a]; subst f; cbn in *.
          destruct (findNote notes0 k0); cbn; [|exact Hacc].
          rewrite !JSMap_get_set.
          assert (String.eqb k k0 = false) as -> by (now apply String.eqb_neq).
          exact Hacc. }
  destruct (Hgen l (JSMap.empty, JSMap.empty, JSSet.empty)) as [H1 H2].
  split.
  - rewrite H1. cbn. tauto.
  - intros n Hl Hf. apply H2; [exact Hf | now left].
Qed.

Lemma nodePress_session :
  forall s dom e (note : Note num),
    mode s = DEFAULT ->
    isLayoutLocked s = false ->
    let s' := fst (step s (NodePointerDown dom e note)) in
    let coords := getPointerPosition dom e in
    (forall k, In k (activeDragIds s') <->
               In k (selectedNodeIds s') /\ isEntity (notes s) k) /\
    (forall k n,
        In k (activeDragIds s') -> findNote (notes s) k = Some n ->
        JSMap.get (dragOverrides s') k = Some (mkPoint (x n) (y n)) /\
        JSMap.get (dragStartOffsets s') k
        = Some (mkOffset (nsub (px coords) (x n)) (nsub (py coords) (y n)))).
Proof.
  intros s dom e note Hm Hl.
  assert (Hmc : mode s <> CONNECT) by (rewrite Hm; discriminate).
  assert (Hin : In (id note) (selectedNodeIds (fst (step s (NodePointerDown dom e note))))).
  { destruct (nodePress_selection s dom e note Hmc) as [Hsel _]. rewrite Hsel.
    destruct (JSSet.has (selectedNodeIds s) (id note)) eqn:Ehas; cbn [negb].
    - now apply JSSet_has_In.
    - destruct (shiftKey e); cbn [negb].
      + apply JSSet_add_In. now right.
      + now left. }
  revert Hin. cbn. unfold handleNodePointerDown. rewrite Hm, Hl; cbn.
  set (sel' := if negb (JSSet.has (selectedNodeIds s) (id note)) then _ else _).
  destruct (JSSet.has sel' (id note)) eqn:Ehas.
  - pose proof (fun k => seedDrag_spec (notes s) (getPointerPosition dom e)
                           (JSSet.to_list sel') k) as Hseed.
    destruct (seedDrag (notes s) (getPointerPosition dom e) (JSSet.to_list sel'))
      as [[o v] a]; cbn in *.
    intros _. split.
    + intros k. rewrite (proj1 (Hseed k)). unfold JSSet.to_list. split.
      * intros [Hk Hf]. split; [exact Hk|].
        destruct (findNote (notes s) k) as [n|] eqn:Ef; [|now elim Hf].
        exists n. pose proof (find_some _ _ Ef) as [Hn Hid].
        apply String.eqb_eq in Hid. now split.
      * intros [Hk Hent]. split; [exact Hk | now apply isEntity_found].
    + intros k n Hk Hf. apply (proj2 (Hseed k)); [|exact Hf].
      now apply (proj1 (Hseed k)).
  - destruct (seedDrag _ _ _) as [[o v] a]; cbn.
    intros Hin. apply JSSet_has_false in Ehas. contradiction.
Qed.

(** A node press with the Default tool and the layout unlocked opens a drag
    session over exactly the selected identifiers that name a note of the
    list; each is seeded with the stored position of that note as its
    override and with pointer position minus stored position as its start
    offset. *)
Theorem drag_session_covers_selection :
  forall s dom e (note : Note num),
    mode s = DEFAULT ->
    isLayoutLocked s = false ->
    let s' := fst (step s (NodePointerDown dom e note)) in
    let coords := getPointerPosition dom e in
    (forall k, In k (activeDragIds s') <->
               In k (selectedNodeIds s') /\ isEntity (notes s) k) /\
    (forall k n,
        In k (activeDragIds s') -> findNote (notes s) k = Some n ->
        JSMap.get (dragOverrides s') k = Some (mkPoint (x n) (y n)) /\
        JSMap.get (dragStartOffsets s') k
        = Some (mkOffset (nsub (px coords) (x n)) (nsub (py coords) (y n)))).
Proof.
  intros s dom e note Hm Hl s' coords.
  destruct (nodePress_session s dom e note Hm Hl) as [Hmembers Hseeds].
  split; [exact Hmembers | exact Hseeds].
Qed.

End NodePress.

(** ** Whole drag gestures *)


Section DragGesture.
Context {num : Type} `{Number num}.
Implicit Type s : State num.

Lemma gesture_keeps_offsets :
  forall (evs : list (@Event num)) s,
    Forall duringGesture evs ->
    dragStartOffsets (fst (run s evs)) = dragStartOffsets s.
Proof.
  induction evs as [|ev evs IH]; intros s Hall; [reflexivity|].
  inversion Hall as [|? ? Hev Hrest]; subst.
  rewrite run_cons, IH by exact Hrest.
  destruct ev; try contradiction.
  - now destruct (pointerMove_drag s dom e) as [_ [-> _]].
  - now destruct (dragPart_fields _ _ _ _ _ _ (step_outside_drag s (Wheel deltaY) I))
      as [_ [_ [-> _]]].
  - now destruct (dragPart_fields _ _ _ _ _ _
                    (step_outside_drag s (KeyDown key activeTag) I)) as [_ [_ [-> _]]].
Qed.



End DragGesture.

(** A drag follows the last pointer position only: after the press, any
    pointer-moves, wheel or key events, and one more pointer-move, the
    override of every dragged note is the position of that last move minus
    the offset taken at the press (the pointer position of the press minus
    the stored position of the note), in canvas coordinates and in the
    arithmetic of the component.  The positions passed in between leave
    no trace. *)
Theorem drag_follows_last_pointer :
  forall {num : Type} `{Number num} (s : State num) dom e (note : Note num)
         evs dom' e' k n,
    mode s = DEFAULT ->
    isLayoutLocked s = false ->
    Forall duringGesture evs ->
    let s1 := fst (step s (NodePointerDown dom e note)) in
    let s2 := fst (run s1 evs) in
    let s3 := fst (step s2 (PointerMove dom' e')) in
    let c0 := getPointerPosition dom e in
    let c1 := getPointerPosition dom' e' in
    In k (activeDragIds s1) ->
    findNote (notes s) k = Some n ->
    JSMap.get (dragOverrides s3) k
    = Some (mkPoint (nsub (px c1) (nsub (px c0) (x n)))
                    (nsub (py c1) (nsub (py c0) (y n)))).
Proof.
  intros num N s dom e note evs dom' e' k n Hm Hl Hall s1 s2 s3 c0 c1 Hk Hf.
  assert (Hst : startsDrag s (NodePointerDown dom e note) = true).
  { cbn. rewrite Hm, Hl. reflexivity. }
  destruct (nodePointerDown_starts_drag s dom e note Hst)
    as [[Ho Hoff] [_ [_ [_ [Hm1 [Hl1 Hd1]]]]]].
  destruct (nodePress_session s dom e note Hm Hl) as [_ Hseed].
  fold s1 in Ho, Hoff, Hm1, Hl1, Hd1, Hseed.
  destruct (Hseed k n Hk Hf) as [_ Hoffset].
  destruct (gesture_keeps_session evs s1 _ Hall eq_refl Ho Hoff) as [Ha2 _].
  destruct (gesture_keeps_tool evs s1 Hall) as [Hd2 [Hm2 Hl2]]; [now rewrite Hm1|].
  pose proof (gesture_keeps_offsets evs s1 Hall) as Hoff2.
  fold s2 in Ha2, Hd2, Hm2, Hl2, Hoff2.
  assert (Hne : activeDragIds s2 <> JSSet.empty).
  { rewrite Ha2. intros Hnil. rewrite Hnil in Hk. contradiction. }
  subst s3. rewrite pointerMove_drag_branch;
    [ | now rewrite Hd2 | exact Hm2 | now rewrite Hl2, Hl1 | exact Hne].
  rewrite moveOverrides_get, Ha2, Hoff2.
  apply JSSet_has_In in Hk. rewrite Hk, Hoffset. reflexivity.
Qed.

(** ** Layout lock and Connect tool *)

Section Gates.
Context {num : Type} `{Number num}.
Implicit Type s : State num.

Lemma step_keeps_lock :
  forall s (ev : @Event num),
    notLockButton ev -> isLayoutLocked (fst (step s ev)) = isLayoutLocked s.
Proof.
  intros s ev Hev. destruct ev as [dom e | dom e | dom e | d | dom e note | note
                                   | key tag | b | notes'].
  - cbn. unfold handlePointerDown; split_ifs; reflexivity.
  - now destruct (pointerMove_drag s dom e) as [_ [_ [_ [_ [_ [-> _]]]]]].
  - now destruct (pointerUp_drag s dom e) as [_ [_ [-> _]]].
  - reflexivity.
  - destruct (startsDrag s (NodePointerDown dom e note)) eqn:Est.
    + now destruct (nodePointerDown_starts_drag s dom e note Est)
        as [_ [_ [_ [_ [_ [-> _]]]]]].
    + revert Est. cbn. unfold handleNodePointerDown.
      destruct (ToolMode_eqb (mode s) CONNECT); cbn.
      * intros _. split_ifs; reflexivity.
      * intros ->. reflexivity.
  - reflexivity.
  - cbn. unfold handleKeyDown; split_ifs; reflexivity.
  - destruct b; try contradiction; cbn; unfold onClick; split_ifs; reflexivity.
  - cbn. unfold receiveNotes, dragCommitEffect; cbn.
    destruct (dragCommitRef s); reflexivity.
Qed.

Lemma moveOverrides_no_ids :
  forall coords offsets (ov : JSMap.t (Point num)),
    moveOverrides coords offsets JSSet.empty ov = (ov, false).
Proof. reflexivity. Qed.

(** While the layout is locked and no drag session is open, no event other
    than the lock button opens one: the active-drag set and the override
    map stay empty, and the node layers draw every note at its stored
    position. *)
Theorem locked_layout_opens_no_session :
  forall s (evs : list (@Event num)),
    isLayoutLocked s = true ->
    activeDragIds s = JSSet.empty ->
    dragOverrides s = JSMap.empty ->
    Forall notLockButton evs ->
    let s' := fst (run s evs) in
    isLayoutLocked s' = true /\
    activeDragIds s' = JSSet.empty /\
    dragOverrides s' = JSMap.empty /\
    nodeLayers s' = map (fun n => mkNodeEl (id n) (x n) (y n) n) (notes s').
Proof.
  intros s evs Hl Ha Ho Hall.
  assert (Hinv : isLayoutLocked (fst (run s evs)) = true /\
                 activeDragIds (fst (run s evs)) = JSSet.empty /\
                 dragOverrides (fst (run s evs)) = JSMap.empty).
  { revert s Hl Ha Ho. induction evs as [|ev evs IH]; intros s Hl Ha Ho;
      [now repeat split|].
    inversion Hall as [|? ? Hev Hrest]; subst.
    rewrite run_cons. apply IH; [exact Hrest | | |].
    - now rewrite step_keeps_lock.
    - destruct ev as [dom e | dom e | dom e | d | dom e note | note
                      | key tag | b | notes'].
      + now destruct (dragPart_fields _ _ _ _ _ _
                        (step_outside_drag s (PointerDown dom e) I)) as [-> _].
      + now destruct (pointerMove_drag s dom e) as [-> _].
      + destruct (pointerUp_drag s dom e) as [_ [_ [_ [Hnone _]]]].
        destruct (Hnone Ha) as [_ Hd]. apply dragPart_fields in Hd.
        now destruct Hd as [-> _].
      + now destruct (dragPart_fields _ _ _ _ _ _
                        (step_outside_drag s (Wheel d) I)) as [-> _].
      + assert (Hno : startsDrag s (NodePointerDown dom e note) = false).
        { cbn. rewrite Hl. now rewrite andb_false_r. }
        now destruct (dragPart_fields _ _ _ _ _ _
                        (nodePointerDown_no_drag s dom e note Hno)) as [-> _].
      + now destruct (dragPart_fields _ _ _ _ _ _
                        (step_outside_drag s (NodeDoubleClick note) I)) as [-> _].
      + now destruct (dragPart_fields _ _ _ _ _ _
                        (step_outside_drag s (KeyDown key tag) I)) as [-> _].
      + now destruct (dragPart_fields _ _ _ _ _ _
                        (step_outside_drag s (Click b) I)) as [-> _].
      + destruct (receiveNotes_drag s notes') as [_ [Hyes Hno]].
        destruct (dragCommitRef s).
        * now destruct (Hyes eq_refl) as [-> _].
        * now destruct (Hno eq_refl) as [-> _].
    - destruct ev as [dom e | dom e | dom e | d | dom e note | note
                      | key tag | b | notes'].
      + now destruct (dragPart_fields _ _ _ _ _ _
                        (step_outside_drag s (PointerDown dom e) I)) as [_ [-> _]].
      + destruct (pointerMove_drag s dom e) as [_ [_ [_ [_ [_ [_ [-> | ->]]]]]]];
          [exact Ho|]. rewrite Ha, moveOverrides_no_ids. exact Ho.
      + destruct (pointerUp_drag s dom e) as [_ [_ [_ [Hnone _]]]].
        destruct (Hnone Ha) as [_ Hd]. apply dragPart_fields in Hd.
        now destruct Hd as [_ [-> _]].
      + now destruct (dragPart_fields _ _ _ _ _ _
                        (step_outside_drag s (Wheel d) I)) as [_ [-> _]].
      + assert (Hno : startsDrag s (NodePointerDown dom e note) = false).
        { cbn. rewrite Hl. now rewrite andb_false_r. }
        now destruct (dragPart_fields _ _ _ _ _ _
                        (nodePointerDown_no_drag s dom e note Hno)) as [_ [-> _]].
      + now destruct (dragPart_fields _ _ _ _ _ _
                        (step_outside_drag s (NodeDoubleClick note) I)) as [_ [-> _]].
      + now destruct (dragPart_fields _ _ _ _ _ _
                        (step_outside_drag s (KeyDown key tag) I)) as [_ [-> _]].
      + now destruct (dragPart_fields _ _ _ _ _ _
                        (step_outside_drag s (Click b) I)) as [_ [-> _]].
      + destruct (receiveNotes_drag s notes') as [_ [Hyes Hno]].
        destruct (dragCommitRef s).
        * now destruct (Hyes eq_refl) as [_ [-> _]].
        * now destruct (Hno eq_refl) as [_ [-> _]]. }
  destruct Hinv as [Hl' [Ha' Ho']]. cbv zeta.
  repeat split; try assumption.
  unfold nodeLayers, StaticNodesLayer, DynamicNodesLayer. rewrite Ha', Ho'. cbn.
  rewrite app_nil_r. induction (notes (fst (run s evs))) as [|n l IHl]; cbn;
    [reflexivity | now rewrite IHl].
Qed.

Lemma connect_step :
  forall s (ev : @Event num),
    pointerGesture ev ->
    mode s = CONNECT -> isDraggingRef s = false ->
    let s' := fst (step s ev) in
    viewBox s' = viewBox s /\ selectedNodeIds s' = selectedNodeIds s /\
    selectionBox s' = selectionBox s /\ mode s' = CONNECT /\ isDraggingRef s' = false.
Proof.
  intros s ev Hev Hm Hd. destruct ev; try contradiction; cbn.
  - unfold handlePointerDown. rewrite Hm; cbn. now repeat split.
  - unfold handlePointerMove. rewrite Hd; cbn. now repeat split.
  - unfold handlePointerUp. rewrite Hm; cbn. split_ifs; now repeat split.
  - unfold handleNodePointerDown. rewrite Hm; cbn. split_ifs; now repeat split.
Qed.

(** With the Connect tool, and no gesture in progress, pointer gestures on
    the canvas and on nodes never pan the view, never change the selection
    and never start a rubber band. *)
Theorem connect_tool_never_pans_or_selects :
  forall s (evs : list (@Event num)),
    mode s = CONNECT ->
    isDraggingRef s = false ->
    Forall pointerGesture evs ->
    let s' := fst (run s evs) in
    viewBox s' = viewBox s /\ selectedNodeIds s' = selectedNodeIds s /\
    selectionBox s' = selectionBox s /\ mode s' = CONNECT.
Proof.
  intros s evs Hm Hd Hall. revert s Hm Hd.
  induction evs as [|ev evs IH]; intros s Hm Hd; [now repeat split|].
  inversion Hall as [|? ? Hev Hrest]; subst.
  cbv zeta. rewrite run_cons.
  destruct (connect_step s ev Hev Hm Hd) as [Hv [Hs [Hb [Hm' Hd']]]].
  destruct (IH Hrest (fst (step s ev)) Hm' Hd') as [Hv2 [Hs2 [Hb2 Hm2]]].
  repeat split; congruence.
Qed.

End Gates.

(** ** Zoom over several wheel events *)

Section Zoom.
Context {num : Type} `{Number num}.
Implicit Type s : State num.

Lemma setViewBox_same : forall s, setViewBox (viewBox s) s = s.
Proof. now intros []. Qed.

Lemma setViewBox_twice :
  forall s v w, setViewBox v (setViewBox w s) = setViewBox v s.
Proof. now intros []. Qed.

(** However many wheel events arrive, and whatever their deltas, the view
    box keeps its origin, and nothing of the component state but the view
    box changes. *)
Theorem wheels_keep_origin :
  forall (ds : list num) s,
    let s' := fst (run s (map Wheel ds)) in
    bx (viewBox s') = bx (viewBox s) /\
    by_ (viewBox s') = by_ (viewBox s) /\
    s' = setViewBox (viewBox s') s /\
    snd (run s (map Wheel ds)) = [].
Proof.
  induction ds as [|d ds IH]; intros s.
  - cbn. rewrite setViewBox_same. now repeat split.
  - specialize (IH (fst (step s (Wheel d)))). cbv zeta in *.
    destruct IH as [Hx [Hy [Hs Hc]]].
    cbn [map]. rewrite run_cons. rewrite Hx, Hy.
    split; [reflexivity|]. split; [reflexivity|]. split.
    + rewrite Hs at 1. cbn [step fst onWheel]. now rewrite setViewBox_twice.
    + cbn [run]. cbn [step onWheel fst] in Hc |- *.
      destruct (run _ (map Wheel ds)) as [s2 c2]. cbn in Hc |- *. exact Hc.
Qed.

End Zoom.

(** ** Panning over several moves *)

Section PanGesture.
Context {num : Type} `{Number num}.
Implicit Type s : State num.
Local Open Scope num_scope.

Lemma pan_moves_keep_gesture :
  forall (es : list (PointerEvent num)) s dom c,
    isDraggingRef s = true ->
    mode s = PAN \/ (mode s = DEFAULT /\ activeDragIds s = JSSet.empty) ->
    container dom = Some c ->
    ntruthy (clientWidth c) = true ->
    let s' := fst (run s (map (PointerMove dom) es)) in
    isDraggingRef s' = true /\
    (mode s' = PAN \/ (mode s' = DEFAULT /\ activeDragIds s' = JSSet.empty)) /\
    bw (viewBox s') = bw (viewBox s) /\ bh (viewBox s') = bh (viewBox s) /\
    lastPanPoint s' = lastClient es (lastPanPoint s).
Proof.
  induction es as [|e es IH]; intros s dom c Hd Hm Hc Hw; [now repeat split|].
  cbv zeta. cbn [map]. rewrite run_cons.
  pose proof (pan_move s dom e c Hd Hm Hc Hw) as E.
  cbv zeta in E. apply (f_equal fst) in E. cbn [fst] in E.
  set (s1 := fst (step s (PointerMove dom e))) in *.
  assert (Hd1 : isDraggingRef s1 = true) by (rewrite E; exact Hd).
  assert (Hm1 : mode s1 = PAN \/ (mode s1 = DEFAULT /\ activeDragIds s1 = JSSet.empty))
    by (rewrite E; exact Hm).
  destruct (IH s1 dom c Hd1 Hm1 Hc Hw) as [Hd' [Hm' [Hbw [Hbh Hlast]]]].
  repeat split; try assumption.
  - rewrite Hbw, E. reflexivity.
  - rewrite Hbh, E. reflexivity.
  - rewrite Hlast, E. reflexivity.
Qed.

(** Throughout a pan the extent of the view box is the one at the press,
    and every pointer-move, however many came before, moves the origin by
    the pointer's displacement since the previous move (since the press,
    for the first) times one and the same ratio: the width of the view box
    over the width of the container. *)
Theorem pan_moves_at_constant_ratio :
  forall (es : list (PointerEvent num)) (e : PointerEvent num) s dom c,
    isDraggingRef s = true ->
    mode s = PAN \/ (mode s = DEFAULT /\ activeDragIds s = JSSet.empty) ->
    container dom = Some c ->
    ntruthy (clientWidth c) = true ->
    let sa := fst (run s (map (PointerMove dom) es)) in
    let sb := fst (step sa (PointerMove dom e)) in
    let prev := lastClient es (lastPanPoint s) in
    let ratio := bw (viewBox s) / clientWidth c in
    viewBox sb
    = mkBox (bx (viewBox sa) - (clientX e - px prev) * ratio)
            (by_ (viewBox sa) - (clientY e - py prev) * ratio)
            (bw (viewBox s)) (bh (viewBox s)) /\
    lastPanPoint sb = mkPoint (clientX e) (clientY e) /\
    snd (step sa (PointerMove dom e)) = [].
Proof.
  intros es e s dom c Hd Hm Hc Hw sa sb prev ratio.
  destruct (pan_moves_keep_gesture es s dom c Hd Hm Hc Hw)
    as [Hd' [Hm' [Hbw [Hbh Hlast]]]].
  fold sa in Hd', Hm', Hbw, Hbh, Hlast.
  pose proof (pan_move sa dom e c Hd' Hm' Hc Hw) as E. cbv zeta in E.
  subst sb. rewrite E. cbn [fst snd].
  subst prev ratio. rewrite <- Hlast, <- Hbw, <- Hbh.
  repeat split.
Qed.

End PanGesture.

(** ** Rubber band *)

Section Band.
Context {num : Type} `{Number num}.
Implicit Type s : State num.

Lemma band_moves :
  forall (ms : list (Dom num * PointerEvent num)) s (b : Box num) d e,
    mode s = SELECT ->
    isDraggingRef s = true ->
    selectionBox s = Some b ->
    let c := getPointerPosition d e in
    selectionBox (fst (run s (moves (ms ++ [(d, e)]))))
    = Some (mkBox (bx b) (by_ b) (nsub (px c) (bx b)) (nsub (py c) (by_ b))).
Proof.
  induction ms as [|[d0 e0] ms IH]; intros s b d e Hm Hd Hb; cbv zeta.
  - cbn -[getPointerPosition]. unfold handlePointerMove.
    rewrite Hm, Hd, Hb. reflexivity.
  - cbn [app moves map fst snd]. rewrite run_cons.
    set (c0 := getPointerPosition d0 e0).
    assert (E : fst (step s (PointerMove d0 e0))
                = setSelectionBox
                    (Some (mkBox (bx b) (by_ b) (nsub (px c0) (bx b))
                                 (nsub (py c0) (by_ b)))) s).
    { cbn -[getPointerPosition]. unfold handlePointerMove.
      rewrite Hm, Hd, Hb. reflexivity. }
    rewrite E.
    apply (IH _ (mkBox (bx b) (by_ b) (nsub (px c0) (bx b)) (nsub (py c0) (by_ b))));
      [exact Hm | exact Hd | reflexivity].
Qed.

(** With the Select tool, after a press on the canvas and any number of
    pointer-moves, the rubber band is anchored at the press point and
    extends to the last pointer position, both in canvas coordinates;
    intermediate positions leave no trace. *)
Theorem band_box_follows_pointer :
  forall s dom e0 (ms : list (Dom num * PointerEvent num)) d e,
    mode s = SELECT ->
    let s1 := fst (step s (PointerDown dom e0)) in
    let s2 := fst (run s1 (moves (ms ++ [(d, e)]))) in
    let c0 := getPointerPosition dom e0 in
    let c := getPointerPosition d e in
    selectionBox s1 = Some (mkBox (px c0) (py c0) (ofZ 0) (ofZ 0)) /\
    selectionBox s2
    = Some (mkBox (px c0) (py c0) (nsub (px c) (px c0)) (nsub (py c) (py c0))).
Proof.
  intros s dom e0 ms d e Hm; cbv zeta.
  assert (H1 : mode (fst (step s (PointerDown dom e0))) = SELECT /\
               isDraggingRef (fst (step s (PointerDown dom e0))) = true /\
               selectionBox (fst (step s (PointerDown dom e0)))
               = Some (mkBox (px (getPointerPosition dom e0))
                             (py (getPointerPosition dom e0)) (ofZ 0) (ofZ 0))).
  { cbn -[getPointerPosition]. unfold handlePointerDown. rewrite Hm.
    cbn -[getPointerPosition]. destruct (shiftKey e0); now repeat split. }
  destruct H1 as [Hm1 [Hd1 Hb1]]. split; [exact Hb1|].
  exact (band_moves ms _ _ d e Hm1 Hd1 Hb1).
Qed.

End Band.

(** ** Deleting from the canvas *)

Section CanvasDelete.
Context {num : Type} `{Number num}.
Implicit Type s : State num.

Lemma nodeLayers_from_notes :
  forall s (el : NodeEl num),
    In el (nodeLayers s) -> In (nnote el) (notes s) /\ nkey el = id (nnote el).
Proof.
  intros s el Hin. unfold nodeLayers in Hin. apply in_app_or in Hin.
  destruct Hin as [Hin | Hin].
  - unfold StaticNodesLayer in Hin. apply in_flat_map in Hin.
    destruct Hin as [n [Hn Hel]].
    destruct (JSSet.has (activeDragIds s) (id n)); [contradiction|].
    destruct Hel as [<- | []]. now split.
  - unfold DynamicNodesLayer in Hin.
    destruct (Nat.eqb (JSMap.size (dragOverrides s)) 0); [contradiction|].
    cbn [mounted] in Hin. apply in_flat_map in Hin.
    destruct Hin as [n [Hn Hel]].
    destruct (JSMap.get (dragOverrides s) (id n)); [|contradiction].
    destruct Hel as [<- | []]. now split.
Qed.

Lemma edges_from_notes :
  forall (l : list (Note num)) ov act (el : EdgeEl num),
    In el (connectionLayers l ov act) ->
    exists source target,
      In source l /\ In target l /\
      esource el = id source /\ etarget el = id target.
Proof.
  intros l ov act el Hin. unfold connectionLayers in Hin.
  apply in_app_or in Hin.
  assert (Hfrom : exists source target, edgeFrom l el source target).
  { destruct Hin as [Hin | Hin].
    - pose proof (static_layer_shape l act) as Hall.
      rewrite Forall_forall in Hall.
      destruct (Hall el Hin) as [a [b [Hf _]]]. now exists a, b.
    - pose proof (dynamic_layer_shape l ov act) as Hall.
      rewrite Forall_forall in Hall.
      destruct (Hall el Hin) as [a [b [Hf _]]]. now exists a, b. }
  destruct Hfrom as [a [b [Ha [_ [Hb [Hs _]]]]]].
  exists a, b. repeat split; try assumption.
  - apply find_some in Hb. tauto.
  - symmetry. exact (findNote_id _ _ _ Hb).
Qed.

Lemma kept_note_not_listed :
  forall (l : list (Note num)) (ids : list string) n,
    In n (filter (fun n => negb (includes ids (id n))) l) -> ~ In (id n) ids.
Proof.
  intros l ids n Hin Hid. apply filter_In in Hin. destruct Hin as [_ Hk].
  apply includes_In in Hid. rewrite Hid in Hk. discriminate.
Qed.

(** Delete or Backspace, pressed outside a text field while some nodes are
    selected, asks the parent to delete exactly the selection; once the
    parent's batch delete has gone through and the new notes list is back,
    the selection is empty, no node element is drawn for a deleted note and
    no connection touches one. *)
Theorem deleted_notes_leave_canvas :
  forall s (key : string) (tag : option string) (confirmed : bool)
         (appActive : option string),
    key = "Delete"%string \/ key = "Backspace"%string ->
    isTextInput tag = false ->
    selectedNodeIds s <> JSSet.empty ->
    (length (selectedNodeIds s) <= 3)%nat \/ confirmed = true ->
    let r := step s (KeyDown key tag) in
    let ids := JSSet.to_list (selectedNodeIds s) in
    let store := handleBatchDelete confirmed (notes s) appActive ids in
    let s2 := fst (step (fst r) (NotesChanged (fst store))) in
    snd r = [onDeleteNotes ids] /\
    selectedNodeIds s2 = JSSet.empty /\
    (forall el, In el (nodeLayers s2) -> ~ In (nkey el) ids) /\
    (forall el,
        In el (connectionLayers (notes s2) (dragOverrides s2) (activeDragIds s2)) ->
        ~ In (esource el) ids /\ ~ In (etarget el) ids).
Proof.
  intros s key tag confirmed appActive Hkey Htag Hsel Hok; cbv zeta.
  assert (Hr : step s (KeyDown key tag)
               = (s |> setSelectedNodeIds JSSet.empty
                    |> setSelectionMenuPos None
                    |> setActiveNodeId None,
                  [onDeleteNotes (JSSet.to_list (selectedNodeIds s))])).
  { cbn. unfold handleKeyDown. rewrite Htag.
    destruct (selectedNodeIds s) as [|k0 sel]; [now elim Hsel|].
    destruct Hkey as [-> | ->]; reflexivity. }
  rewrite Hr. cbn [fst snd].
  assert (Hstore : fst (handleBatchDelete confirmed (notes s) appActive
                          (JSSet.to_list (selectedNodeIds s)))
                   = filter (fun n => negb (includes (JSSet.to_list (selectedNodeIds s))
                                                     (id n))) (notes s)).
  { unfold handleBatchDelete, JSSet.to_list.
    destruct (selectedNodeIds s) as [|k0 sel] eqn:Esel; [now elim Hsel|].
    cbn [length Nat.eqb].
    destruct Hok as [Hle | ->].
    - match goal with
      | |- context [Nat.ltb 3 ?m] => destruct (Nat.ltb 3 m) eqn:Elt
      end; [apply Nat.ltb_lt in Elt; cbn in Hle; lia | reflexivity].
    - rewrite andb_false_r. reflexivity. }
  destruct (receiveNotes_drag
              (s |> setSelectedNodeIds JSSet.empty |> setSelectionMenuPos None
                 |> setActiveNodeId None)
              (fst (handleBatchDelete confirmed (notes s) appActive
                      (JSSet.to_list (selectedNodeIds s))))) as [Hn _].
  cbv zeta in Hn.
  split; [reflexivity|]. split.
  { cbn. unfold receiveNotes, dragCommitEffect. cbn.
    destruct (dragCommitRef s); reflexivity. }
  split.
  - intros el Hin. apply nodeLayers_from_notes in Hin. destruct Hin as [Hin ->].
    rewrite Hn, Hstore in Hin. exact (kept_note_not_listed _ _ _ Hin).
  - intros el Hin. apply edges_from_notes in Hin.
    destruct Hin as [a [b [Ha [Hb [-> ->]]]]].
    rewrite Hn, Hstore in Ha, Hb.
    split; [exact (kept_note_not_listed _ _ _ Ha) | exact (kept_note_not_listed _ _ _ Hb)].
Qed.

Lemma filter_split_Permutation :
  forall (A : Type) (f : A -> bool) (l : list A),
    Permutation (filter (fun a => negb (f a)) l ++ filter f l) l.
Proof.
  intros A f l. induction l as [|a l IH]; cbn; [constructor|].
  destruct (f a); cbn.
  - apply Permutation_sym, Permutation_cons_app, Permutation_sym, IH.
  - now constructor.
Qed.

(** In every state the component can reach from its initial state, by any
    events, the node layers draw every note exactly once: the notes of the
    drawn elements are a rearrangement of the notes list (the dragged
    ones come last), each keyed by its identifier. *)
Theorem reachable_states_draw_each_note_once :
  forall (notes0 : list (Note num)) (evs : list (@Event num)),
    let s := fst (run (initialState notes0) evs) in
    Permutation (map nnote (nodeLayers s)) (notes s) /\
    Forall (fun el => nkey el = id (nnote el)) (nodeLayers s).
Proof.
  intros notes0 evs; cbv zeta.
  destruct (reachable_overridesMatchDragSet notes0 evs) as [Hk _].
  set (s := fst (run (initialState notes0) evs)) in *.
  split.
  - unfold nodeLayers. rewrite map_app, static_nodes_notes, dynamic_nodes_notes, Hk.
    apply filter_split_Permutation.
  - apply Forall_forall. intros el Hin. now apply nodeLayers_from_notes in Hin.
Qed.

End CanvasDelete.

(** ** Bulk menu *)

Section BulkMenu.
Context {num : Type} `{Number num}.
Implicit Type s : State num.

Lemma step_keeps_bulkMenuInvariant :
  forall s (ev : @Event num),
    bulkMenuInvariant s -> bulkMenuInvariant (fst (step s ev)).
Proof.
  intros s ev [Hb Hm]; unfold bulkMenuInvariant.
  assert (Hb' : forall box, selectionBox s = Some box -> selectionMenuPos s = None)
    by (intros box E; apply Hb; rewrite E; discriminate).
  destruct ev as [dom e | dom e | dom e | d | dom e note | note
                  | key tag | b | notes']; cbn.
  - unfold handlePointerDown. split_ifs; menu_done Hb Hb' Hm.
  - unfold handlePointerMove.
    destruct (isDraggingRef s); cbn; [|menu_done Hb Hb' Hm].
    destruct (ToolMode_eqb (mode s) SELECT); cbn;
      [destruct (selectionBox s) as [prev|] eqn:Ebox; cbn|];
      try (split_ifs; menu_done Hb Hb' Hm).
  - unfold handlePointerUp.
    destruct (ToolMode_eqb (mode s) SELECT); cbn;
      [destruct (selectionBox s) as [box|] eqn:Ebox; cbn|];
      try (split_ifs; menu_done Hb Hb' Hm).
    assert (Hnone : selectionMenuPos s = None) by (now apply Hb' with box).
    match goal with
    | |- context [boxSelection ?nb ?l ?seed] =>
        destruct (boxSelection nb l seed) as [|k0 sel] eqn:Esel
    end; cbn; split_ifs; menu_done Hb Hb' Hm.
  - menu_done Hb Hb' Hm.
  - unfold handleNodePointerDown.
    destruct (ToolMode_eqb (mode s) CONNECT); cbn; split_ifs; menu_done Hb Hb' Hm.
  - menu_done Hb Hb' Hm.
  - unfold handleKeyDown. split_ifs; menu_done Hb Hb' Hm.
  - unfold onClick.
    destruct b; cbn;
      repeat match goal with
             | |- context [match ?c with _ => _ end] => destruct c eqn:?; cbn
             end;
      menu_done Hb Hb' Hm.
  - unfold receiveNotes, dragCommitEffect; cbn.
    destruct (dragCommitRef s); menu_done Hb Hb' Hm.
Qed.

(** In every state the component can reach from its initial state, the
    rubber band and the bulk menu are never up together and the bulk menu
    is up only over a non-empty selection; so a click on Copy or Delete in
    the bulk menu hands the parent the selection, and never an empty list
    of identifiers. *)
Theorem bulk_menu_acts_on_nonempty_selection :
  forall (notes0 : list (Note num)) (evs : list (@Event num)),
    let s := fst (run (initialState notes0) evs) in
    bulkMenuInvariant s /\
    forall (b : Button) (c : Call num),
      b = MenuCopy \/ b = MenuDelete ->
      In c (snd (step s (Click b))) ->
      bulkIds c = Some (JSSet.to_list (selectedNodeIds s)) /\
      selectedNodeIds s <> JSSet.empty.
Proof.
  intros notes0 evs; cbv zeta.
  assert (Hinv : bulkMenuInvariant (fst (run (initialState notes0) evs))).
  { assert (Hgen : forall evs s, bulkMenuInvariant s ->
                                 bulkMenuInvariant (fst (run s evs))).
    { clear evs. induction evs as [|ev evs IH]; intros s Hs; [exact Hs|].
      rewrite run_cons. apply IH. now apply step_keeps_bulkMenuInvariant. }
    apply Hgen. split; intros Hx; now elim Hx. }
  split; [exact Hinv|].
  destruct Hinv as [_ Hm].
  set (s := fst (run (initialState notes0) evs)) in *.
  intros b c Hb Hin. cbn in Hin. unfold onClick in Hin.
  destruct (selectionMenuPos s) as [pos|] eqn:Epos.
  - assert (Hne : selectedNodeIds s <> JSSet.empty) by (apply Hm; discriminate).
    destruct Hb as [-> | ->]; cbn in Hin; destruct Hin as [<- | []]; now split.
  - destruct Hb as [-> | ->]; cbn in Hin; contradiction.
Qed.

End BulkMenu.

(** ** Examples of the further properties *)

Lemma batch_delete_removes_listed_witness :
  let prev := [Scene.nA; Scene.nB; Scene.note "" 0 0 []] in
  let r := handleBatchDelete false prev (Some ""%string) ["a"; ""]%string in
  (fst r = filter (fun n => negb (includes ["a"; ""]%string (id n))) prev /\
   snd r = Some ""%string) /\
  fst r = [Scene.nB].
Proof.
  split; [|reflexivity].
  assert (Hfew : (length ["a"; ""]%string <= 3)%nat) by (cbn; lia).
  destruct (batch_delete_removes_listed (num:=float) false
              [Scene.nA; Scene.nB; Scene.note "" 0 0 []] (Some ""%string)
              ["a"; ""]%string ltac:(discriminate) (or_introl Hfew))
    as [_ [Hkept [_ [_ [Hempty _]]]]].
  split; [exact Hkept | exact (Hempty eq_refl)].
Defined.

Lemma batch_delete_declined_witness :
  handleBatchDelete false [Scene.nA; Scene.nB] (Some "a"%string)
                    ["a"; "b"; "c"; "d"]%string
  = ([Scene.nA; Scene.nB], Some "a"%string).
Proof.
  apply (batch_delete_declined (num:=float)).
  right. split; [cbn; lia | reflexivity].
Defined.

Lemma single_delete_is_batch_of_one_witness :
  handleDeleteNote [Scene.nA; Scene.nB] (Some "a"%string) "a"
  = handleBatchDelete true [Scene.nA; Scene.nB] (Some "a"%string) ["a"%string].
Proof.
  apply (single_delete_is_batch_of_one (num:=float)). discriminate.
Defined.

Lemma duplicate_appends_copies_witness :
  let prev := [Scene.nA; Scene.nB] in
  let ids := ["zz"; "a"]%string in
  let r := handleBatchDuplicate StoreScene.supply prev ids in
  (exists original c,
      findNote prev "a" = Some original /\
      nth_error (skipn (length prev) r) 0 = Some c /\
      id c = freshId (StoreScene.supply 0) /\
      createdAt c = createdNow (StoreScene.supply 0) /\
      updatedAt c = updatedNow (StoreScene.supply 0) /\
      title c = (title original ++ " (Copy)")%string /\
      x c = nadd (x original) (ofZ 40) /\ y c = nadd (y original) (ofZ 40) /\
      content c = content original /\ tags c = tags original /\
      isFavorite c = isFavorite original /\ links c = links original) /\
  r = [Scene.nA; Scene.nB; StoreScene.copyA].
Proof.
  split; [|reflexivity].
  apply (proj2 (proj2 (proj2 (duplicate_appends_copies (num:=float) StoreScene.supply
                                [Scene.nA; Scene.nB] ["zz"; "a"]%string)))).
  reflexivity.
Defined.

Lemma duplicate_keeps_identifiers_distinct_witness :
  NoDup (map id (handleBatchDuplicate StoreScene.supply [Scene.nA; Scene.nB]
                                      ["a"%string])) /\
  map id (handleBatchDuplicate StoreScene.supply [Scene.nA; Scene.nB] ["a"%string])
  = ["a"; "b"; "a2"]%string.
Proof.
  split; [|reflexivity].
  apply (duplicate_keeps_identifiers_distinct (num:=float)).
  - repeat constructor; cbn; intuition discriminate.
  - cbn. intros i j Hi Hj _. lia.
  - cbn. intros i _ Hin. intuition discriminate.
Defined.

Lemma node_layers_partition_witness :
  let s := DragScene.pressed in
  (map nnote (StaticNodesLayer (notes s) (activeDragIds s))
   = filter (fun n => negb (JSSet.has (activeDragIds s) (id n))) (notes s) /\
   map nnote (mounted (DynamicNodesLayer (notes s) (dragOverrides s)))
   = filter (fun n => JSSet.has (activeDragIds s) (id n)) (notes s) /\
   length (nodeLayers s) = length (notes s) /\
   Forall (fun el => nkey el = id (nnote el)) (nodeLayers s)) /\
  map nkey (nodeLayers s) = ["b"; "a"]%string.
Proof.
  split; [|reflexivity].
  apply (node_layers_partition (num:=float) DragScene.pressed). reflexivity.
Defined.

Lemma edges_attach_to_nodes_witness :
  let s := StoreScene.linked in
  let el := StoreScene.edgeAB in
  (exists nel, In nel (nodeLayers s) /\ nkey nel = esource el /\
               nx nel = ex1 el /\ ny nel = ey1 el) /\
  (exists nel, In nel (nodeLayers s) /\ nkey nel = etarget el /\
               nx nel = ex2 el /\ ny nel = ey2 el).
Proof.
  apply (edges_attach_to_nodes (num:=float) StoreScene.linked StoreScene.edgeAB).
  - reflexivity.
  - left. reflexivity.
Defined.

Lemma node_press_selects_witness :
  let s := initialState [Scene.nA; Scene.nB] in
  let s' := fst (step s (NodePointerDown Scene.dom600 (Scene.at_ 100 100) Scene.nA)) in
  In (id Scene.nA) (selectedNodeIds s') /\ selectedNodeIds s' = ["a"%string].
Proof.
  split; [|reflexivity].
  apply (node_press_selects (num:=float) (initialState [Scene.nA; Scene.nB])
           Scene.dom600 (Scene.at_ 100 100) Scene.nA).
  discriminate.
Defined.

Lemma drag_session_covers_selection_witness :
  let s := initialState [Scene.nA; Scene.nB] in
  let s' := DragScene.pressed in
  (forall k, In k (activeDragIds s') <->
             In k (selectedNodeIds s') /\ isEntity (notes s) k) /\
  activeDragIds s' = ["a"%string].
Proof.
  split; [|reflexivity].
  apply (drag_session_covers_selection (num:=float) (initialState [Scene.nA; Scene.nB])
           Scene.dom600 (Scene.at_ 100 100) Scene.nA); reflexivity.
Defined.


Lemma drag_follows_last_pointer_witness :
  let s := initialState [Scene.nA; Scene.nB] in
  let s1 := fst (step s (NodePointerDown Scene.dom600 (Scene.at_ 110 95) Scene.nA)) in
  let s2 := fst (run s1 [PointerMove Scene.dom600 (Scene.at_ 120 90)]) in
  let s3 := fst (step s2 (PointerMove Scene.dom600 (Scene.at_ 140 130))) in
  let c0 := getPointerPosition Scene.dom600 (Scene.at_ 110 95) in
  let c1 := getPointerPosition Scene.dom600 (Scene.at_ 140 130) in
  JSMap.get (dragOverrides s3) "a"
  = Some (mkPoint (nsub (px c1) (nsub (px c0) (x Scene.nA)))
                  (nsub (py c1) (nsub (py c0) (y Scene.nA)))) /\
  JSMap.get (dragOverrides s3) "a" = Some (mkPoint 130 135)%float.
Proof.
  split; [|reflexivity].
  apply (drag_follows_last_pointer (num:=float) (initialState [Scene.nA; Scene.nB])
           Scene.dom600 (Scene.at_ 110 95) Scene.nA
           [PointerMove Scene.dom600 (Scene.at_ 120 90)]
           Scene.dom600 (Scene.at_ 140 130) "a" Scene.nA).
  - reflexivity.
  - reflexivity.
  - repeat constructor.
  - left. reflexivity.
  - reflexivity.
Defined.

Lemma locked_layout_opens_no_session_witness :
  let evs := [NodePointerDown Scene.dom600 (Scene.at_ 100 100) Scene.nA;
              PointerMove Scene.dom600 (Scene.at_ 140 130)] in
  let s' := fst (run StoreScene.locked evs) in
  (isLayoutLocked s' = true /\
   activeDragIds s' = JSSet.empty /\
   dragOverrides s' = JSMap.empty /\
   nodeLayers s' = map (fun n => mkNodeEl (id n) (x n) (y n) n) (notes s')) /\
  selectedNodeIds s' = ["a"%string].
Proof.
  split; [|reflexivity].
  apply (locked_layout_opens_no_session (num:=float) StoreScene.locked).
  - reflexivity.
  - reflexivity.
  - reflexivity.
  - repeat constructor.
Defined.

Lemma connect_tool_never_pans_or_selects_witness :
  let s := ConnectScene.s0 in
  let evs := [PointerDown Scene.dom600 (Scene.at_ 0 0);
              PointerMove Scene.dom600 (Scene.at_ 50 50);
              PointerUp Scene.dom600 (Scene.at_ 50 50);
              NodePointerDown Scene.dom600 (Scene.at_ 300 100) Scene.nB] in
  let s' := fst (run s evs) in
  (viewBox s' = viewBox s /\ selectedNodeIds s' = selectedNodeIds s /\
   selectionBox s' = selectionBox s /\ mode s' = CONNECT) /\
  linkSourceId s' = None.
Proof.
  split; [|reflexivity].
  apply (connect_tool_never_pans_or_selects (num:=float) ConnectScene.s0).
  - reflexivity.
  - reflexivity.
  - repeat constructor.
Defined.

Lemma pan_moves_at_constant_ratio_witness :
  let s := PanScene.wide in
  let sa := fst (run s (map (PointerMove Scene.dom600) [Scene.at_ 310 200])) in
  let sb := fst (step sa (PointerMove Scene.dom600 (Scene.at_ 330 260))) in
  let prev := lastClient [Scene.at_ 310 200] (lastPanPoint s) in
  let ratio := ndiv (bw (viewBox s)) 600%float in
  (viewBox sb
   = mkBox (nsub (bx (viewBox sa)) (nmul (nsub 330%float (px prev)) ratio))
           (nsub (by_ (viewBox sa)) (nmul (nsub 260%float (py prev)) ratio))
           (bw (viewBox s)) (bh (viewBox s)) /\
   lastPanPoint sb = mkPoint 330%float 260%float /\
   snd (step sa (PointerMove Scene.dom600 (Scene.at_ 330 260))) = []) /\
  viewBox sb = (mkBox (-60) (-120) 1200 800)%float.
Proof.
  split; [|reflexivity].
  apply (pan_moves_at_constant_ratio (num:=float) [Scene.at_ 310 200] (Scene.at_ 330 260)
           PanScene.wide Scene.dom600 (mkContainer 600 600 400)%float).
  - reflexivity.
  - right. split; reflexivity.
  - reflexivity.
  - reflexivity.
Defined.

Lemma band_box_follows_pointer_witness :
  let s1 := fst (step BandScene.start (PointerDown Scene.dom600 (Scene.at_ 0 0))) in
  let s2 := fst (run s1 (moves ([(Scene.dom600, Scene.at_ 50 50)]
                                ++ [(Scene.dom600, Scene.at_ 95 100)]))) in
  let c0 := getPointerPosition Scene.dom600 (Scene.at_ 0 0) in
  let c := getPointerPosition Scene.dom600 (Scene.at_ 95 100) in
  (selectionBox s1 = Some (mkBox (px c0) (py c0) (ofZ 0) (ofZ 0)) /\
   selectionBox s2
   = Some (mkBox (px c0) (py c0) (nsub (px c) (px c0)) (nsub (py c) (py c0)))) /\
  selectionBox s2 = selectionBox BandScene.released.
Proof.
  split; [|reflexivity].
  apply (band_box_follows_pointer (num:=float) BandScene.start Scene.dom600 (Scene.at_ 0 0)
           [(Scene.dom600, Scene.at_ 50 50)] Scene.dom600 (Scene.at_ 95 100)).
  reflexivity.
Defined.

Lemma deleted_notes_leave_canvas_witness :
  let s := StoreScene.selectedA in
  let r := step s (KeyDown "Delete" None) in
  let ids := JSSet.to_list (selectedNodeIds s) in
  let store := handleBatchDelete false (notes s) None ids in
  let s2 := fst (step (fst r) (NotesChanged (fst store))) in
  (snd r = [onDeleteNotes ids] /\
   selectedNodeIds s2 = JSSet.empty /\
   (forall el, In el (nodeLayers s2) -> ~ In (nkey el) ids) /\
   (forall el,
       In el (connectionLayers (notes s2) (dragOverrides s2) (activeDragIds s2)) ->
       ~ In (esource el) ids /\ ~ In (etarget el) ids)) /\
  map nkey (nodeLayers s2) = ["b"%string].
Proof.
  split; [|reflexivity].
  apply (deleted_notes_leave_canvas (num:=float) StoreScene.selectedA "Delete" None false None).
  - left. reflexivity.
  - reflexivity.
  - discriminate.
  - left. cbn. lia.
Defined.

Lemma bulk_menu_acts_on_nonempty_selection_witness :
  let s := fst (run (initialState [Scene.nA]) StoreScene.bandOverA) in
  let c : Call float := onDuplicateNotes ["a"%string] in
  bulkIds c = Some (JSSet.to_list (selectedNodeIds s)) /\
  selectedNodeIds s <> JSSet.empty.
Proof.
  apply (proj2 (bulk_menu_acts_on_nonempty_selection (num:=float) [Scene.nA]
                  StoreScene.bandOverA) MenuCopy).
  - left. reflexivity.
  - vm_compute. left. reflexivity.
Defined.
